(** * Airtable-connected dynamic form builder: rule engine and sync engine

    A shallow embedding of the conditional-logic engine
    (src/services/conditionalLogic.js), the field mapper
    (airtableService.mapAirtableField, formValidation.js), the webhook
    controller and the webhook sync service, followed by the properties
    the specification states about them. *)

From Stdlib Require Import Floats.PrimFloat Ascii String.
From Stdlib Require Import NArith.
From stdpp Require Import gmap strings list sorting.

Set Warnings "-register-all,-clear-no-such-hyp".
Open Scope string_scope.
Open Scope list_scope.

(** ** Part I. The embedding *)

(** *** JavaScript values

    Answers, condition values and Airtable field values are JSON values.
    Numbers are IEEE-754 doubles, as in the engine. *)

Inductive jsval : Type :=
| JUndefined
| JNull
| JBool (b : bool)
| JNum (x : float)
| JStr (s : string)
| JArr (items : list jsval)
| JObj (props : list (string * jsval)).

(** Language built-ins whose definition belongs to the JavaScript engine and not
    to this repository: loose equality [==], the global [parseFloat] and the
    [ToString] conversion applied by [String.prototype.includes]. *)
Class JsBuiltins := {
  looseEq : jsval -> jsval -> bool;
  parseFloat : jsval -> float;
  toString : jsval -> string
}.

(** [Array.prototype.includes] compares with SameValueZero: primitives by value
    (NaN equals NaN), arrays and objects by reference, so two separately parsed
    JSON structures are never the same value. *)
Definition sameValueZero (a b : jsval) : bool :=
  match a, b with
  | JUndefined, JUndefined => true
  | JNull, JNull => true
  | JBool x, JBool y => Bool.eqb x y
  | JNum x, JNum y => PrimFloat.eqb x y || (PrimFloat.is_nan x && PrimFloat.is_nan y)
  | JStr x, JStr y => String.eqb x y
  | _, _ => false
  end.

Definition arrayIncludes (items : list jsval) (expected : jsval) : bool :=
  existsb (fun item => sameValueZero item expected) items.

Fixpoint stringIncludes (s pat : string) : bool :=
  String.prefix pat s ||
  match s with
  | EmptyString => false
  | String _ rest => stringIncludes rest pat
  end.

(** *** ConditionalLogicEngine (src/services/conditionalLogic.js) *)

Record Condition := {
  c_questionKey : string;
  c_operator : string;
  c_value : jsval
}.

Record ConditionalRules := {
  logic : string;
  conditions : option (list Condition)
}.

Section ConditionalLogicEngine.
Context `{JsBuiltins}.

Definition op_equals (actual expected : jsval) : bool := looseEq actual expected.

Definition op_notEquals (actual expected : jsval) : bool := negb (looseEq actual expected).

Definition op_contains (actual expected : jsval) : bool :=
  match actual with
  | JArr items => arrayIncludes items expected
  | JStr s => stringIncludes s (toString expected)
  | _ => false
  end.

Definition op_notContains (actual expected : jsval) : bool :=
  match actual with
  | JArr items => negb (arrayIncludes items expected)
  | JStr s => negb (stringIncludes s (toString expected))
  | _ => true
  end.

Definition op_greaterThan (actual expected : jsval) : bool :=
  let numActual := parseFloat actual in
  let numExpected := parseFloat expected in
  negb (PrimFloat.is_nan numActual) && negb (PrimFloat.is_nan numExpected)
  && PrimFloat.ltb numExpected numActual.

Definition op_lessThan (actual expected : jsval) : bool :=
  let numActual := parseFloat actual in
  let numExpected := parseFloat expected in
  negb (PrimFloat.is_nan numActual) && negb (PrimFloat.is_nan numExpected)
  && PrimFloat.ltb numActual numExpected.

(** [this.operators]: the table built by the constructor; any other name has
    no entry. (A name inherited from [Object.prototype] finds a member there,
    but calling it this way raises or returns something other than [true],
    which the combination below reads like the [false] of a missing entry.) *)
Definition operators (name : string) : option (jsval -> jsval -> bool) :=
  if String.eqb name "equals" then Some op_equals
  else if String.eqb name "notEquals" then Some op_notEquals
  else if String.eqb name "contains" then Some op_contains
  else if String.eqb name "notContains" then Some op_notContains
  else if String.eqb name "greaterThan" then Some op_greaterThan
  else if String.eqb name "lessThan" then Some op_lessThan
  else None.

(** [answers[key]]: an absent property reads as [undefined]. The answers are
    the own properties of the object. *)
Definition answerOf (answers : gmap string jsval) (key : string) : jsval :=
  default JUndefined (answers !! key).

Definition isMissing (answer : jsval) : bool :=
  match answer with
  | JUndefined => true
  | JNull => true
  | JStr s => String.eqb s ""
  | _ => false
  end.

(** The callback mapped over [rules.conditions]. *)
Definition evaluateCondition (answers : gmap string jsval) (condition : Condition) : bool :=
  let answer := answerOf answers (c_questionKey condition) in
  match operators (c_operator condition) with
  | None => false
  | Some operator =>
      if isMissing answer then false
      else operator answer (c_value condition)
  end.

Definition shouldShowQuestion (rules : option ConditionalRules)
    (answers : gmap string jsval) : bool :=
  match rules with
  | None => true
  | Some r =>
      match conditions r with
      | None => true
      | Some [] => true
      | Some conds =>
          let conditionResults := map (evaluateCondition answers) conds in
          if String.eqb (logic r) "OR"
          then existsb (fun result => Bool.eqb result true) conditionResults
          else forallb (fun result => Bool.eqb result true) conditionResults
      end
  end.

End ConditionalLogicEngine.

(** A reference instance of the built-ins for closed examples: it agrees with
    the engine on operands of one primitive type (strings with strings,
    numbers with numbers). *)
Definition refBuiltins : JsBuiltins := {|
  looseEq := sameValueZero;
  parseFloat := fun v => match v with JNum x => x | _ => PrimFloat.nan end;
  toString := fun v => match v with JStr s => s | _ => "" end
|}.

Definition cond_plan_pro : Condition :=
  {| c_questionKey := "plan"; c_operator := "equals"; c_value := JStr "pro" |}.

Definition cond_name_lacks_x : Condition :=
  {| c_questionKey := "name"; c_operator := "notContains"; c_value := JStr "x" |}.


(** *** Objects as ordered dictionaries

    [createDependencyGraph] builds a plain object and [Object.keys] enumerates
    it, so the order of the own keys matters: canonical array indices first, in
    ascending numeric order, then the other keys in insertion order.

    A dictionary is modelled by its own properties. A plain object also
    answers for the names it inherits from [Object.prototype] ([constructor],
    [toString], [__proto__], ...); question keys are taken to differ from
    those. *)

Definition obj_get {V} (o : list (string * V)) (k : string) : option V :=
  snd <$> List.find (fun kv => String.eqb (fst kv) k) o.

Fixpoint obj_set {V} (o : list (string * V)) (k : string) (v : V) : list (string * V) :=
  match o with
  | [] => [(k, v)]
  | (k', v') :: rest =>
      if String.eqb k' k then (k, v) :: rest else (k', v') :: obj_set rest k v
  end.

Fixpoint obj_alter {V} (f : V -> V) (k : string) (o : list (string * V)) : list (string * V) :=
  match o with
  | [] => []
  | (k', v') :: rest =>
      if String.eqb k' k then (k', f v') :: rest else (k', v') :: obj_alter f k rest
  end.

Definition digitOf (a : Ascii.ascii) : option N :=
  let n := N_of_ascii a in
  if (48 <=? n)%N && (n <=? 57)%N then Some (n - 48)%N else None.

Fixpoint parseDigits (s : string) (acc : N) : option N :=
  match s with
  | EmptyString => Some acc
  | String a rest =>
      match digitOf a with
      | Some d => parseDigits rest (acc * 10 + d)%N
      | None => None
      end
  end.

(** A canonical array index: decimal digits without a leading zero, below
    2^32 - 1. *)
Definition arrayIndex (s : string) : option N :=
  match s with
  | EmptyString => None
  | String a rest =>
      if Ascii.eqb a "0"%char && negb (String.eqb rest "") then None
      else match parseDigits s 0 with
           | Some n => if (n <? 4294967295)%N then Some n else None
           | None => None
           end
  end.

Definition indexedKey (k : string) : option (N * string) :=
  match arrayIndex k with
  | Some n => Some (n, k)
  | None => None
  end.

Definition indexLe (a b : N * string) : Prop := (fst a <= fst b)%N.

#[global] Instance indexLe_dec : RelDecision indexLe.
Proof. intros a b. unfold indexLe. apply _. Defined.

Definition objectKeys {V} (o : list (string * V)) : list string :=
  let keys := map fst o in
  map snd (merge_sort indexLe (omap indexedKey keys))
  ++ List.filter (fun k => match arrayIndex k with Some _ => false | None => true end) keys.

(** *** Dependency graph and cycle detection (conditionalLogic.js) *)

Record Question := {
  questionKey : string;
  airtableFieldId : string;
  conditionalRules : option ConditionalRules
}.

Record GraphNode := {
  dependsOn : list string;
  dependentBy : list string
}.

(** The conditions visited by
    [if (question.conditionalRules && question.conditionalRules.conditions)]. *)
Definition conditionsOf (question : Question) : list Condition :=
  match conditionalRules question with
  | Some rules => default [] (conditions rules)
  | None => []
  end.

Definition pushDependentBy (key : string) (n : GraphNode) : GraphNode :=
  {| dependsOn := dependsOn n; dependentBy := dependentBy n ++ [key] |}.

Definition pushDependsOn (key : string) (n : GraphNode) : GraphNode :=
  {| dependsOn := dependsOn n ++ [key]; dependentBy := dependentBy n |}.

Definition addDependency (dependent : string) (graph : list (string * GraphNode))
    (condition : Condition) : list (string * GraphNode) :=
  match obj_get graph (c_questionKey condition) with
  | Some _ =>
      obj_alter (pushDependsOn (c_questionKey condition)) dependent
        (obj_alter (pushDependentBy dependent) (c_questionKey condition) graph)
  | None => graph
  end.

Definition createDependencyGraph (questions : list Question) : list (string * GraphNode) :=
  let graph0 :=
    fold_left (fun graph question =>
                 obj_set graph (questionKey question) {| dependsOn := []; dependentBy := [] |})
              questions [] in
  fold_left (fun graph question =>
               fold_left (addDependency (questionKey question)) (conditionsOf question) graph)
            questions graph0.

(** The mutable variables captured by the [dfs] closure. [visited] is an object
    whose properties are only ever set to [true], a set of keys;
    [recursionStack] is set to [true] on entry and to [false] on exit and is only
    tested for truth, a set with removal. [visitLog] is a ghost field, absent
    from the source: it appends a node whenever the node is marked visited, and
    no result depends on it. *)
Record DfsState := {
  visited : gset string;
  recursionStack : gset string;
  cycles : list (list string);
  visitLog : list string
}.

Definition enterNode (node : string) (st : DfsState) : DfsState :=
  {| visited := {[node]} ∪ visited st;
     recursionStack := {[node]} ∪ recursionStack st;
     cycles := cycles st;
     visitLog := visitLog st ++ [node] |}.

Definition leaveNode (node : string) (st : DfsState) : DfsState :=
  {| visited := visited st;
     recursionStack := recursionStack st ∖ {[node]};
     cycles := cycles st;
     visitLog := visitLog st |}.

Definition pushCycle (path : list string) (st : DfsState) : DfsState :=
  {| visited := visited st;
     recursionStack := recursionStack st;
     cycles := cycles st ++ [path];
     visitLog := visitLog st |}.

(** [graph[node]?.dependentBy || []] *)
Definition dependencies (graph : list (string * GraphNode)) (node : string) : list string :=
  match obj_get graph node with
  | Some n => dependentBy n
  | None => []
  end.

(** [forEach] with a body that may run out of fuel. *)
Fixpoint forEachM {A S} (body : S -> A -> option S) (l : list A) (s : S) : option S :=
  match l with
  | [] => Some s
  | x :: rest =>
      match body s x with
      | Some s' => forEachM body rest s'
      | None => None
      end
  end.

(** The callback of [dependencies.forEach] inside [dfs]; [recur] is the
    recursive call. *)
Definition dfsVisitDep (recur : string -> list string -> DfsState -> option DfsState)
    (path : list string) (st : DfsState) (dep : string) : option DfsState :=
  let newPath := path ++ [dep] in
  if decide (dep ∈ visited st) then
    if decide (dep ∈ recursionStack st)
    then Some (pushCycle newPath st)
    else Some st
  else recur dep newPath st.

(** The recursive closure [dfs(node, path)]; [fuel] bounds the recursion depth
    and [None] means the bound was reached. *)
Fixpoint dfs (fuel : nat) (graph : list (string * GraphNode)) (node : string)
    (path : list string) (st : DfsState) : option DfsState :=
  match fuel with
  | O => None
  | S fuel' =>
      st1 ← (if decide (node ∈ visited st) then Some st
             else forEachM (dfsVisitDep (dfs fuel' graph) path)
                           (dependencies graph node) (enterNode node st));
      Some (leaveNode node st1)
  end.

Record CycleReport := {
  hasCycles : bool;
  reportedCycles : list (list string)
}.

Definition dfsInit : DfsState :=
  {| visited := ∅; recursionStack := ∅; cycles := []; visitLog := [] |}.

Definition dfsRoots (fuel : nat) (graph : list (string * GraphNode)) (roots : list string)
    (st : DfsState) : option DfsState :=
  forEachM (fun st node =>
              if decide (node ∈ visited st) then Some st
              else dfs fuel graph node [node] st)
           roots st.

Definition detectState (questions : list Question) : option DfsState :=
  let graph := createDependencyGraph questions in
  dfsRoots (S (length graph)) graph (objectKeys graph) dfsInit.

Definition detectCircularDependencies (questions : list Question) : option CycleReport :=
  st ← detectState questions;
  Some {| hasCycles := (0 <? length (cycles st))%nat; reportedCycles := cycles st |}.

(** Big-step description of one [dfs] call and of its [forEach] loop, used to
    reason by induction on the traversal. *)
Inductive Dfs (graph : list (string * GraphNode)) :
    string -> list string -> DfsState -> DfsState -> Prop :=
| Dfs_visit node path st st1 :
    node ∉ visited st ->
    DfsEach graph path (dependencies graph node) (enterNode node st) st1 ->
    Dfs graph node path st (leaveNode node st1)
| Dfs_seen node path st :
    node ∈ visited st ->
    Dfs graph node path st (leaveNode node st)
with DfsEach (graph : list (string * GraphNode)) :
    list string -> list string -> DfsState -> DfsState -> Prop :=
| Each_done path st :
    DfsEach graph path [] st st
| Each_descend path dep deps st st1 st2 :
    dep ∉ visited st ->
    Dfs graph dep (path ++ [dep]) st st1 ->
    DfsEach graph path deps st1 st2 ->
    DfsEach graph path (dep :: deps) st st2
| Each_cycle path dep deps st st2 :
    dep ∈ visited st ->
    dep ∈ recursionStack st ->
    DfsEach graph path deps (pushCycle (path ++ [dep]) st) st2 ->
    DfsEach graph path (dep :: deps) st st2
| Each_skip path dep deps st st2 :
    dep ∈ visited st ->
    dep ∉ recursionStack st ->
    DfsEach graph path deps st st2 ->
    DfsEach graph path (dep :: deps) st st2.

Scheme Dfs_min := Minimality for Dfs Sort Prop
  with DfsEach_min := Minimality for DfsEach Sort Prop.

Combined Scheme Dfs_DfsEach_min from Dfs_min, DfsEach_min.

(** Vocabulary of the statements. [edge graph a b]: the traversal steps from
    [a] to [b], that is, [b] is listed in [graph[a].dependentBy]. *)
Definition edge (graph : list (string * GraphNode)) (a b : string) : Prop :=
  b ∈ dependencies graph a.

(** Question [a] depends on question [b]: a condition of [a]'s rule names [b],
    and [b] is the key of a question of the form. *)
Definition dependsOnQuestion (questions : list Question) (a b : string) : Prop :=
  b ∈ map questionKey questions
  /\ exists q, q ∈ questions /\ questionKey q = a
               /\ exists c, c ∈ conditionsOf q /\ c_questionKey c = b.

Definition acyclicRules (questions : list Question) : Prop :=
  forall k, ~ tc (dependsOnQuestion questions) k k.

(** A reported entry [pre ++ [d]] closes a cycle: its last key [d] occurs
    earlier in the entry and lies on a cycle of the graph. *)
Definition closesCycle (graph : list (string * GraphNode)) (entry : list string) : Prop :=
  exists pre d, entry = pre ++ [d] /\ d ∈ pre /\ tc (edge graph) d d.

(** [chainOf R l]: consecutive keys of [l] are related by [R]. *)
Fixpoint chainOf (R : string -> string -> Prop) (l : list string) : Prop :=
  match l with
  | a :: (b :: _) as rest => R a b /\ chainOf R rest
  | _ => True
  end.

(** An elementary cycle of the dependency graph: distinct keys, each depending
    on the next and the last on the first. *)
Definition elementaryCycle (questions : list Question) (cyc : list string) : Prop :=
  NoDup cyc
  /\ exists first rest, cyc = first :: rest
                       /\ chainOf (dependsOnQuestion questions) (cyc ++ [first]).

(** The reading of "the result lists every elementary cycle": each elementary
    cycle has a reported entry that holds all of its keys. *)
Definition listsEveryElementaryCycle (questions : list Question)
    (report : CycleReport) : Prop :=
  forall cyc, elementaryCycle questions cyc ->
    exists entry, entry ∈ reportedCycles report /\ forall k, k ∈ cyc -> k ∈ entry.

(** The keys of the graph as a set. *)
Definition keySet (graph : list (string * GraphNode)) : gset string :=
  list_to_set (map fst graph).

(** The questions whose rule mentions [k], one entry per mentioning condition,
    in question order. *)
Definition dependentsOf (questions : list Question) (k : string) : list string :=
  flat_map (fun q => map (fun _ => questionKey q)
                         (filter (fun c => c_questionKey c = k) (conditionsOf q)))
           questions.

(** The graph is closed when every listed dependent is itself a key. *)
Definition closedGraph (graph : list (string * GraphNode)) : Prop :=
  forall n d, d ∈ dependencies graph n -> d ∈ keySet graph.

(** While nothing has been recorded, the finished nodes are closed under
    [edge] and none of them lies on a cycle. *)
Definition noCycleSoFar (graph : list (string * GraphNode)) (st : DfsState) : Prop :=
  cycles st = [] ->
  (forall n d, n ∈ visited st /\ n ∉ recursionStack st -> edge graph n d ->
               d ∈ visited st /\ d ∉ recursionStack st)
  /\ (forall n, n ∈ visited st /\ n ∉ recursionStack st -> ~ tc (edge graph) n n).

Definition recordedWith (st : DfsState) (a b : string) : Prop :=
  exists entry, entry ∈ cycles st /\ a ∈ entry /\ b ∈ entry.

(** The successors of a finished node are visited, and a pair of finished
    nodes with edges both ways is recorded together. *)
Definition pairsRecorded (graph : list (string * GraphNode)) (st : DfsState) : Prop :=
  (forall n d, n ∈ visited st /\ n ∉ recursionStack st -> edge graph n d -> d ∈ visited st)
  /\ (forall a b, a ∈ visited st /\ a ∉ recursionStack st ->
                  b ∈ visited st /\ b ∉ recursionStack st ->
                  edge graph a b -> edge graph b a -> recordedWith st a b).

(** The ghost log lists the visited nodes, each once. *)
Definition logExact (st : DfsState) : Prop :=
  NoDup (visitLog st) /\ forall n, n ∈ visitLog st <-> n ∈ visited st.

(** The invariants of the loop over the roots. *)
Record rootsInv (graph : list (string * GraphNode)) (st : DfsState) : Prop := {
  inv_stack : recursionStack st = ∅;
  inv_keys : visited st ⊆ keySet graph;
  inv_sound : Forall (closesCycle graph) (cycles st);
  inv_complete : noCycleSoFar graph st;
  inv_pairs : pairsRecorded graph st;
  inv_log : logExact st
}.

(** Example forms. *)
Definition dependsOnKeys (key : string) (others : list string) : Question :=
  {| questionKey := key;
     airtableFieldId := String.append "fld_" key;
     conditionalRules :=
       match others with
       | [] => None
       | _ => Some {| logic := "AND";
                      conditions := Some (map (fun k => {| c_questionKey := k;
                                                            c_operator := "equals";
                                                            c_value := JStr "yes" |}) others) |}
       end |}.

Definition mutualForm : list Question :=
  [dependsOnKeys "Q1" ["Q2"]; dependsOnKeys "Q2" ["Q1"]].

Definition chainForm : list Question :=
  [dependsOnKeys "name" []; dependsOnKeys "plan" ["name"];
   dependsOnKeys "discount" ["plan"; "name"]].

(** A shows B and C, B and C show D, D shows A: two elementary cycles,
    A-B-D and A-C-D. *)
Definition diamondForm : list Question :=
  [dependsOnKeys "A" ["D"]; dependsOnKeys "B" ["A"]; dependsOnKeys "C" ["A"];
   dependsOnKeys "D" ["B"; "C"]].

(** *** FieldMapper: AirtableService.mapAirtableField and FormValidator *)

Definition truthy (v : jsval) : bool :=
  match v with
  | JUndefined | JNull => false
  | JBool b => b
  | JNum x => negb (PrimFloat.eqb x 0%float || PrimFloat.is_nan x)
  | JStr s => negb (String.eqb s "")
  | JArr _ | JObj _ => true
  end.

(** [v || fallback] *)
Definition orElse (v fallback : jsval) : jsval := if truthy v then v else fallback.

(** [s === v] for a string [s]. *)
Definition strictEqString (s : string) (v : jsval) : bool :=
  match v with
  | JStr s' => String.eqb s s'
  | _ => false
  end.

(** [t === v] where [t] is a string or [null]. *)
Definition strictEqNullable (t : option string) (v : jsval) : bool :=
  match t, v with
  | None, JNull => true
  | Some s, JStr s' => String.eqb s s'
  | _, _ => false
  end.

(** [t === v] where [t] is a string or [undefined]. *)
Definition strictEqOptional (t : option string) (v : jsval) : bool :=
  match t, v with
  | None, JUndefined => true
  | Some s, JStr s' => String.eqb s s'
  | _, _ => false
  end.

Definition isStringValue (v : jsval) : bool :=
  match v with JStr _ => true | _ => false end.

Definition isNumberValue (v : jsval) : bool :=
  match v with JNum _ => true | _ => false end.

Definition isBooleanValue (v : jsval) : bool :=
  match v with JBool _ => true | _ => false end.

Definition isUndefinedValue (v : jsval) : bool :=
  match v with JUndefined => true | _ => false end.

(** A field as the Airtable metadata API returns it. *)
Record AirtableChoice := {
  choice_id : jsval;
  choice_name : jsval;
  choice_color : jsval
}.

Record AirtableFieldOptions := {
  isReversed : jsval;
  choices : option (list AirtableChoice);
  opt_maxLength : jsval;
  opt_minLength : jsval;
  opt_pattern : jsval
}.

Record AirtableField := {
  af_id : string;
  af_name : string;
  af_description : jsval;
  af_type : string;
  af_options : option AirtableFieldOptions
}.

Record MappedOption := {
  mo_value : jsval;
  mo_label : jsval;
  mo_color : jsval
}.

Record FieldValidation := {
  fv_maxLength : jsval;
  fv_minLength : jsval;
  fv_pattern : jsval
}.

(** The object built by [mapAirtableField]; [field_type = None] is the [null]
    marking an unsupported type. *)
Record MappedField := {
  field_id : string;
  field_name : string;
  field_description : jsval;
  field_type : option string;
  airtableType : string;
  isRequired : bool;
  field_options : list MappedOption;
  field_validation : option FieldValidation
}.

(** The [switch (fieldType)] of [mapAirtableField]. *)
Definition mappedTypeOf (fieldType : string) : option string :=
  if String.eqb fieldType "singleLineText" || String.eqb fieldType "email"
     || String.eqb fieldType "url" then Some "shortText"
  else if String.eqb fieldType "multilineText" || String.eqb fieldType "richText"
  then Some "longText"
  else if String.eqb fieldType "singleSelect" then Some "singleSelect"
  else if String.eqb fieldType "multipleSelects" then Some "multiSelect"
  else if String.eqb fieldType "multipleAttachments" then Some "attachment"
  else None.

Definition mapAirtableField (airtableField : AirtableField) : MappedField :=
  let fieldType := af_type airtableField in
  let mappedType := mappedTypeOf fieldType in
  {| field_id := af_id airtableField;
     field_name := af_name airtableField;
     field_description := orElse (af_description airtableField) (JStr "");
     field_type := mappedType;
     airtableType := fieldType;
     isRequired :=
       negb (match af_options airtableField with
             | Some o => truthy (isReversed o)
             | None => false
             end);
     field_options :=
       match af_options airtableField with
       | Some o =>
           match choices o with
           | Some cs => map (fun choice => {| mo_value := choice_id choice;
                                              mo_label := choice_name choice;
                                              mo_color := choice_color choice |}) cs
           | None => []
           end
       | None => []
       end;
     field_validation :=
       match af_options airtableField with
       | Some o => Some {| fv_maxLength := opt_maxLength o;
                           fv_minLength := opt_minLength o;
                           fv_pattern := opt_pattern o |}
       | None => None
       end |}.

(** [FormValidator.supportedTypes] and [FormValidator.airtableTypeMap]. *)
Definition supportedTypes : list string :=
  ["shortText"; "longText"; "singleSelect"; "multiSelect"; "attachment"].

Definition airtableTypeMap : list (string * string) :=
  [("singleLineText", "shortText"); ("email", "shortText"); ("url", "shortText");
   ("multilineText", "longText"); ("richText", "longText");
   ("singleSelect", "singleSelect"); ("multipleSelects", "multiSelect");
   ("multipleAttachments", "attachment")].

(** A question as it arrives in the request body, before any validation. *)
Record QuestionOptionDraft := {
  od_value : jsval;
  od_label : jsval
}.

Record ValidationRulesDraft := {
  vr_minLength : jsval;
  vr_maxLength : jsval;
  vr_pattern : jsval
}.

Record QuestionDraft := {
  d_questionKey : jsval;
  d_airtableFieldId : jsval;
  d_label : jsval;
  d_type : jsval;
  d_required : jsval;
  d_options : option (list QuestionOptionDraft);
  d_validationRules : option ValidationRulesDraft
}.

(** The messages pushed to [errors], without their text. *)
Inductive QuestionError :=
| ErrQuestionKeyRequired
| ErrDuplicateQuestionKey
| ErrFieldIdRequired
| ErrDuplicateFieldId
| ErrLabelRequired
| ErrTypeNotSupported
| ErrRequiredNotBoolean
| ErrFieldNotFound
| ErrTypeMismatch
| ErrOptionsRequired
| ErrOptionsEmpty
| ErrOptionValue (optIndex : nat)
| ErrOptionLabel (optIndex : nat)
| ErrMinLengthNotNumber
| ErrMaxLengthNotNumber
| ErrPatternNotString.

(** The two [Set]s of [validateQuestions]. *)
Record UsedSets := {
  usedQuestionKeys : list jsval;
  usedAirtableIds : list jsval
}.

Definition setHas (s : list jsval) (v : jsval) : bool :=
  existsb (fun x => sameValueZero x v) s.

Definition checkQuestionKey (q : QuestionDraft) (used : UsedSets)
    : list QuestionError * UsedSets :=
  if negb (truthy (d_questionKey q)) || negb (isStringValue (d_questionKey q))
  then ([ErrQuestionKeyRequired], used)
  else if setHas (usedQuestionKeys used) (d_questionKey q)
  then ([ErrDuplicateQuestionKey], used)
  else ([], {| usedQuestionKeys := usedQuestionKeys used ++ [d_questionKey q];
               usedAirtableIds := usedAirtableIds used |}).

Definition checkFieldId (q : QuestionDraft) (used : UsedSets)
    : list QuestionError * UsedSets :=
  if negb (truthy (d_airtableFieldId q))
  then ([ErrFieldIdRequired], used)
  else if setHas (usedAirtableIds used) (d_airtableFieldId q)
  then ([ErrDuplicateFieldId], used)
  else ([], {| usedQuestionKeys := usedQuestionKeys used;
               usedAirtableIds := usedAirtableIds used ++ [d_airtableFieldId q] |}).

Definition checkLabel (q : QuestionDraft) : list QuestionError :=
  if negb (truthy (d_label q)) || negb (isStringValue (d_label q))
  then [ErrLabelRequired] else [].

Definition isSupportedType (v : jsval) : bool :=
  existsb (fun t => strictEqString t v) supportedTypes.

Definition checkType (q : QuestionDraft) : list QuestionError :=
  if negb (truthy (d_type q)) || negb (isSupportedType (d_type q))
  then [ErrTypeNotSupported] else [].

Definition checkRequired (q : QuestionDraft) : list QuestionError :=
  if negb (isBooleanValue (d_required q)) then [ErrRequiredNotBoolean] else [].

(** [airtableFields.find(f => f.id === question.airtableFieldId)] *)
Definition findField (airtableFields : list MappedField) (q : QuestionDraft)
    : option MappedField :=
  List.find (fun f => strictEqString (field_id f) (d_airtableFieldId q)) airtableFields.

Definition checkAgainstField (q : QuestionDraft) (airtableFields : list MappedField)
    : list QuestionError :=
  match findField airtableFields q with
  | None => [ErrFieldNotFound]
  | Some airtableField =>
      if negb (strictEqNullable (field_type airtableField) (d_type q)) then
        let mappedType := obj_get airtableTypeMap (airtableType airtableField) in
        if negb (strictEqOptional mappedType (d_type q)) then [ErrTypeMismatch] else []
      else []
  end.

Definition checkOption (optIndex : nat) (option : QuestionOptionDraft) : list QuestionError :=
  (if negb (truthy (od_value option)) || negb (isStringValue (od_value option))
   then [ErrOptionValue optIndex] else [])
  ++ (if negb (truthy (od_label option)) || negb (isStringValue (od_label option))
      then [ErrOptionLabel optIndex] else []).

Definition checkOptions (q : QuestionDraft) : list QuestionError :=
  if strictEqString "singleSelect" (d_type q) || strictEqString "multiSelect" (d_type q) then
    match d_options q with
    | None => [ErrOptionsRequired]
    | Some [] => [ErrOptionsEmpty]
    | Some opts => concat (imap checkOption opts)
    end
  else [].

Definition checkValidationRules (q : QuestionDraft) : list QuestionError :=
  match d_validationRules q with
  | None => []
  | Some rules =>
      (if negb (isUndefinedValue (vr_minLength rules)) && negb (isNumberValue (vr_minLength rules))
       then [ErrMinLengthNotNumber] else [])
      ++ (if negb (isUndefinedValue (vr_maxLength rules)) && negb (isNumberValue (vr_maxLength rules))
          then [ErrMaxLengthNotNumber] else [])
      ++ (if negb (isUndefinedValue (vr_pattern rules)) && negb (isStringValue (vr_pattern rules))
          then [ErrPatternNotString] else [])
  end.

(** The body of [questions.forEach((question, index) => ...)]. *)
Definition validateQuestion (airtableFields : list MappedField) (q : QuestionDraft)
    (used : UsedSets) : list QuestionError * UsedSets :=
  let '(e1, used1) := checkQuestionKey q used in
  let '(e2, used2) := checkFieldId q used1 in
  (e1 ++ e2 ++ checkLabel q ++ checkType q ++ checkRequired q
   ++ checkAgainstField q airtableFields ++ checkOptions q ++ checkValidationRules q,
   used2).

Fixpoint validateEach (airtableFields : list MappedField) (index : nat)
    (questions : list QuestionDraft) (used : UsedSets)
    (errors : list (nat * QuestionError)) : list (nat * QuestionError) :=
  match questions with
  | [] => errors
  | q :: rest =>
      let '(es, used') := validateQuestion airtableFields q used in
      validateEach airtableFields (S index) rest used'
                   (errors ++ map (fun e => (index, e)) es)
  end.

Record ValidationResult := {
  valid : bool;
  errors : option (list (nat * QuestionError))
}.

Definition validateQuestions (questions : list QuestionDraft)
    (airtableFields : list MappedField) : ValidationResult :=
  let errors := validateEach airtableFields 0 questions
                  {| usedQuestionKeys := []; usedAirtableIds := [] |} [] in
  {| valid := (length errors =? 0)%nat;
     errors := if (0 <? length errors)%nat then Some errors else None |}.

(** The guard of [FormController.createForm] (and of [updateForm]) on the
    questions of the request: an invalid configuration is answered with
    status 400 and no form is created. *)
Record HttpReply := {
  statusCode : nat;
  replySuccess : bool;
  replyError : string
}.

Definition questionsGate (questions : list QuestionDraft) (tableFields : list MappedField)
    : option HttpReply :=
  let validationResult := validateQuestions questions tableFields in
  if negb (valid validationResult)
  then Some {| statusCode := 400; replySuccess := false;
               replyError := "Invalid questions configuration" |}
  else None.

(** The external types of the specification's mapping table. *)
Definition tableTypes : list string :=
  ["singleLineText"; "email"; "url"; "multilineText"; "richText"; "singleSelect";
   "multipleSelects"; "multipleAttachments"].

(** Example: a checkbox column, which the mapper does not support. *)
Definition checkboxColumn : AirtableField :=
  {| af_id := "fldDone"; af_name := "Done"; af_description := JUndefined;
     af_type := "checkbox"; af_options := None |}.

Definition doneQuestion : QuestionDraft :=
  {| d_questionKey := JStr "done"; d_airtableFieldId := JStr "fldDone";
     d_label := JStr "Done?"; d_type := JStr "shortText"; d_required := JBool false;
     d_options := None; d_validationRules := None |}.

(** *** The synchronization engine: data model

    The persistence layer and the Airtable API are outside the repository. The
    document store is modelled by the collections it holds, with the unique
    index on [airtableRecordId] enforced by [save]; the Airtable API by an
    oracle of replies ([Env]); the clock by a reading that [sleep] advances.
    Every call to the store or to the API may also fail for a reason of its
    own: the fault plan [faults] gives, call by call, the error to raise. *)

Inductive Status := Pending | Submitted | Synced | Failed | Deleted.

#[global] Instance Status_eq_dec : EqDecision Status.
Proof. solve_decision. Defined.

Record Answer := {
  a_questionKey : string;
  a_value : jsval;
  a_submittedAt : nat
}.

Record SyncStatus := {
  lastSyncedAt : option nat;
  syncAttempts : nat;
  syncError : option string
}.

Record Response := {
  resp_id : nat;
  r_formId : nat;
  r_userId : nat;
  airtableRecordId : string;
  status : Status;
  answers : list Answer;
  syncStatus : SyncStatus
}.

Record Form := {
  form_id : nat;
  form_userId : nat;
  airtableBaseId : string;
  airtableTableId : string;
  isActive : bool;
  questions : list Question
}.

Record User := {
  user_id : nat;
  accessToken : string;
  tokenExpiresAt : nat
}.

(** An Airtable record as returned by the API; [rec_fields = None] is a reply
    without a [fields] property. *)
Record AirtableRecord := {
  rec_id : string;
  rec_fields : option (list (string * jsval))
}.

Record RecordPage := {
  page_records : list AirtableRecord;
  page_offset : option string
}.

Inductive Remote (A : Type) :=
| Replied (a : A)
| Refused (msg : string).

Arguments Replied {A} a.
Arguments Refused {A} msg.

(** The replies of the Airtable API. [getRecordReply] and [listRecordsReply]
    read the table; [createRecordReply] takes the number of records created so
    far, since each creation answers with a fresh id. *)
Record Env := {
  getRecordReply : string -> string -> string -> string -> Remote (option AirtableRecord);
  listRecordsReply : string -> string -> string -> option string -> Remote RecordPage;
  createRecordReply : nat -> string -> string -> string -> list (string * jsval)
                      -> Remote AirtableRecord;
  updateRecordReply : string -> string -> string -> string -> list (string * jsval)
                      -> Remote AirtableRecord
}.

(** Requests sent to the Airtable API, in order (a ghost log). *)
Inductive Request :=
| ReqGetRecord (baseId tableId recordId : string)
| ReqListRecords (baseId tableId : string) (offset : option string)
| ReqCreateRecord (baseId tableId : string)
| ReqUpdateRecord (baseId tableId recordId : string).

Record World := {
  forms : list Form;
  users : list User;
  responses : list Response;
  nextObjectId : nat;
  now : nat;
  created : nat;
  faults : list (option string);
  requests : list Request
}.

Definition setResponses (rs : list Response) (w : World) : World :=
  {| forms := forms w; users := users w; responses := rs;
     nextObjectId := nextObjectId w; now := now w; created := created w;
     faults := faults w; requests := requests w |}.

Definition setNextObjectId (n : nat) (w : World) : World :=
  {| forms := forms w; users := users w; responses := responses w;
     nextObjectId := n; now := now w; created := created w;
     faults := faults w; requests := requests w |}.

Definition setNow (t : nat) (w : World) : World :=
  {| forms := forms w; users := users w; responses := responses w;
     nextObjectId := nextObjectId w; now := t; created := created w;
     faults := faults w; requests := requests w |}.

Definition setCreated (n : nat) (w : World) : World :=
  {| forms := forms w; users := users w; responses := responses w;
     nextObjectId := nextObjectId w; now := now w; created := n;
     faults := faults w; requests := requests w |}.

Definition setFaults (fs : list (option string)) (w : World) : World :=
  {| forms := forms w; users := users w; responses := responses w;
     nextObjectId := nextObjectId w; now := now w; created := created w;
     faults := fs; requests := requests w |}.

Definition logRequest (r : Request) (w : World) : World :=
  {| forms := forms w; users := users w; responses := responses w;
     nextObjectId := nextObjectId w; now := now w; created := created w;
     faults := faults w; requests := requests w ++ [r] |}.

(** *** A state-and-exception monad for the asynchronous methods *)

Inductive Outcome (A : Type) :=
| Ok (a : A)
| Throw (msg : string)
| OutOfFuel.

Arguments Ok {A} a.
Arguments Throw {A} msg.
Arguments OutOfFuel {A}.

Definition M (A : Type) : Type := World -> Outcome A * World.

Definition ret {A} (a : A) : M A := fun w => (Ok a, w).

Definition throw {A} (msg : string) : M A := fun w => (Throw msg, w).

Definition bind {A B} (m : M A) (k : A -> M B) : M B :=
  fun w =>
    match m w with
    | (Ok a, w') => k a w'
    | (Throw msg, w') => (Throw msg, w')
    | (OutOfFuel, w') => (OutOfFuel, w')
    end.

Notation "x <- c1 ;; c2" := (bind c1 (fun x => c2))
  (at level 100, c1 at next level, right associativity).
Notation "c1 ;; c2" := (bind c1 (fun _ => c2))
  (at level 100, right associativity).

(** [try { body } catch (error) { handler(error.message) }] *)
Definition tryCatch {A} (body : M A) (handler : string -> M A) : M A :=
  fun w =>
    match body w with
    | (Throw msg, w') => handler msg w'
    | other => other
    end.

Definition getWorld : M World := fun w => (Ok w, w).

Definition modify (f : World -> World) : M unit := fun w => (Ok tt, f w).

(** One call to the store or to the API: it raises the error the fault plan
    holds for it, if any, and otherwise runs. *)
Definition io {A} (op : M A) : M A :=
  fun w =>
    match faults w with
    | Some msg :: rest => (Throw msg, setFaults rest w)
    | None :: rest => op (setFaults rest w)
    | [] => op w
    end.

Definition fromRemote {A} (reply : Remote A) : M A :=
  match reply with
  | Replied a => ret a
  | Refused msg => throw msg
  end.

(** [new Date()] *)
Definition newDate : M nat := fun w => (Ok (now w), w).

(** [await new Promise(resolve => setTimeout(resolve, ms))] *)
Definition sleep (ms : nat) : M unit := modify (fun w => setNow (now w + ms) w).

Fixpoint forEach {A} (body : A -> M unit) (l : list A) : M unit :=
  match l with
  | [] => ret tt
  | x :: rest => body x ;; forEach body rest
  end.

(** *** The models (mongoose) *)

Definition Form_findOne (baseId tableId : string) : M (option Form) :=
  io (fun w => (Ok (List.find (fun f => String.eqb (airtableBaseId f) baseId
                                       && String.eqb (airtableTableId f) tableId
                                       && isActive f) (forms w)), w)).

Definition Form_find (baseId tableId : string) : M (list Form) :=
  io (fun w => (Ok (List.filter (fun f => String.eqb (airtableBaseId f) baseId
                                         && String.eqb (airtableTableId f) tableId
                                         && isActive f) (forms w)), w)).

Definition Form_findById (id : nat) : M (option Form) :=
  io (fun w => (Ok (List.find (fun f => Nat.eqb (form_id f) id) (forms w)), w)).

Definition User_findById (id : nat) : M (option User) :=
  io (fun w => (Ok (List.find (fun u => Nat.eqb (user_id u) id) (users w)), w)).

(** [user.isTokenExpired()]: [this.tokenExpiresAt < new Date()] *)
Definition isTokenExpired (user : User) : M bool :=
  t <- newDate ;; ret (tokenExpiresAt user <? t)%nat.

Definition Response_findOne (recordId : string) : M (option Response) :=
  io (fun w => (Ok (List.find (fun r => String.eqb (airtableRecordId r) recordId)
                              (responses w)), w)).

Definition Response_findById (id : nat) : M (option Response) :=
  io (fun w => (Ok (List.find (fun r => Nat.eqb (resp_id r) id) (responses w)), w)).

(** [new Response({...})]: the document receives a fresh [_id]. *)
Definition newResponse (formId userId : nat) (recordId : string) (st : Status)
    (ans : list Answer) (sync : SyncStatus) : M Response :=
  fun w =>
    (Ok {| resp_id := nextObjectId w; r_formId := formId; r_userId := userId;
           airtableRecordId := recordId; status := st; answers := ans;
           syncStatus := sync |},
     setNextObjectId (S (nextObjectId w)) w).

Definition isStored (r : Response) (rs : list Response) : bool :=
  existsb (fun x => Nat.eqb (resp_id x) (resp_id r)) rs.

Definition replaceById (r : Response) (rs : list Response) : list Response :=
  map (fun x => if Nat.eqb (resp_id x) (resp_id r) then r else x) rs.

(** The unique index on [airtableRecordId]: another document already holds the
    id. *)
Definition duplicatesRecordId (r : Response) (rs : list Response) : bool :=
  existsb (fun x => String.eqb (airtableRecordId x) (airtableRecordId r)
                    && negb (Nat.eqb (resp_id x) (resp_id r))) rs.

(** The validators of the Response schema that a document of this model can
    fail: [airtableRecordId], and [questionKey] in every answer, are
    [required], which a string meets when it is not empty. *)
Definition validResponse (r : Response) : bool :=
  negb (String.eqb (airtableRecordId r) "")
  && forallb (fun a => negb (String.eqb (a_questionKey a) "")) (answers r).

(** [response.save()]: validation runs first, without a call to the store. *)
Definition Response_save (r : Response) : M unit :=
  if validResponse r
  then io (fun w =>
             if duplicatesRecordId r (responses w)
             then (Throw "E11000 duplicate key error", w)
             else if isStored r (responses w)
             then (Ok tt, setResponses (replaceById r (responses w)) w)
             else (Ok tt, setResponses (responses w ++ [r]) w))
  else throw "ValidationError: Response validation failed".

Definition withStatus (st : Status) (sync : SyncStatus) (r : Response) : Response :=
  {| resp_id := resp_id r; r_formId := r_formId r; r_userId := r_userId r;
     airtableRecordId := airtableRecordId r; status := st; answers := answers r;
     syncStatus := sync |}.

Definition withAnswers (ans : list Answer) (r : Response) : Response :=
  {| resp_id := resp_id r; r_formId := r_formId r; r_userId := r_userId r;
     airtableRecordId := airtableRecordId r; status := status r; answers := ans;
     syncStatus := syncStatus r |}.

Definition withRecordId (recordId : string) (r : Response) : Response :=
  {| resp_id := resp_id r; r_formId := r_formId r; r_userId := r_userId r;
     airtableRecordId := recordId; status := status r; answers := answers r;
     syncStatus := syncStatus r |}.

(** [Response.markAsDeleted(recordId)]: [findOneAndUpdate] on the first
    document with that record id. *)
Definition Response_markAsDeleted (recordId : string) : M (option Response) :=
  io (fun w =>
        match List.find (fun r => String.eqb (airtableRecordId r) recordId) (responses w) with
        | Some r =>
            let r' := withStatus Deleted
                        {| lastSyncedAt := Some (now w);
                           syncAttempts := syncAttempts (syncStatus r);
                           syncError := syncError (syncStatus r) |} r in
            (Ok (Some r'), setResponses (replaceById r' (responses w)) w)
        | None => (Ok None, w)
        end).

(** Run [m] and hand its exception, if any, to the caller as a value. *)
Definition attempt {A} (m : M A) : M (A + string) :=
  tryCatch (a <- m ;; ret (inl a)) (fun msg => ret (inr msg)).

Definition outOfFuel {A} : M A := fun w => (OutOfFuel, w).

(** [form.getQuestion(questionKey)] *)
Definition getQuestion (form : Form) (key : string) : option Question :=
  List.find (fun q => String.eqb (questionKey q) key) (questions form).

(** The callback of [form.questions.forEach] in [syncSingleRecord]: the answer
    read at time [t] for one question, none when the field is absent
    ([fieldValue !== undefined]). *)
Definition fieldAnswer (t : nat) (fields : list (string * jsval)) (question : Question)
    : option Answer :=
  match obj_get fields (airtableFieldId question) with
  | Some JUndefined | None => None
  | Some fieldValue =>
      Some {| a_questionKey := questionKey question;
              a_value := fieldValue;
              a_submittedAt := t |}
  end.

Definition fieldAnswers (t : nat) (qs : list Question) (fields : list (string * jsval))
    : list Answer :=
  omap (fieldAnswer t fields) qs.

Section Services.
Variable env : Env.

(** *** AirtableService (the calls used by the sync engine) *)

Definition AirtableService_getRecord (token baseId tableId recordId : string)
    : M (option AirtableRecord) :=
  modify (logRequest (ReqGetRecord baseId tableId recordId)) ;;
  io (fromRemote (getRecordReply env token baseId tableId recordId)).

Definition AirtableService_createRecord (token baseId tableId : string)
    (recordData : list (string * jsval)) : M AirtableRecord :=
  modify (logRequest (ReqCreateRecord baseId tableId)) ;;
  io (w <- getWorld ;;
      record <- fromRemote (createRecordReply env (created w) token baseId tableId recordData) ;;
      modify (fun w => setCreated (S (created w)) w) ;;
      ret record).

Definition AirtableService_updateRecord (token baseId tableId recordId : string)
    (recordData : list (string * jsval)) : M AirtableRecord :=
  modify (logRequest (ReqUpdateRecord baseId tableId recordId)) ;;
  io (fromRemote (updateRecordReply env token baseId tableId recordId recordData)).

(** [axios.get(url, { headers, params })] of [syncAllRecordsForForm]. *)
Definition listRecords (token baseId tableId : string) (offset : option string)
    : M RecordPage :=
  modify (logRequest (ReqListRecords baseId tableId offset)) ;;
  io (fromRemote (listRecordsReply env token baseId tableId offset)).

(** The field object built from the answers of a response. *)
Definition answersToFields (form : Form) (ans : list Answer) : list (string * jsval) :=
  fold_left (fun fields answer =>
               match getQuestion form (a_questionKey answer) with
               | Some question => obj_set fields (airtableFieldId question) (a_value answer)
               | None => fields
               end) ans [].

(** The mutation made by [response.updateSyncStatus(success, error)] at time
    [t], and the method itself, which saves the mutated document. *)
Definition markSynced (t : nat) (r : Response) : Response :=
  withStatus Synced {| lastSyncedAt := Some t;
                       syncAttempts := syncAttempts (syncStatus r) + 1;
                       syncError := None |} r.

Definition markFailed (t : nat) (error : string) (r : Response) : Response :=
  withStatus Failed {| lastSyncedAt := Some t;
                       syncAttempts := syncAttempts (syncStatus r) + 1;
                       syncError := Some error |} r.

Definition updateSyncStatus_failed (error : string) (r : Response) : M unit :=
  t <- newDate ;; Response_save (markFailed t error r).

(** [AirtableService.syncResponseToAirtable(responseId)]; the second query is
    the [populate('formId')] of the first. The response object
    is mutated in place by [updateSyncStatus(true)] before it is saved
    ([response2] below), so when that save raises, the [updateSyncStatus(false,
    ...)] of the [catch] block starts from the mutated object. *)
Definition syncResponseToAirtable (responseId : nat) : M AirtableRecord :=
  found <- Response_findById responseId ;;
  populated <- match found with
               | Some response => Form_findById (r_formId response)
               | None => ret None
               end ;;
  match found with
  | None => throw "Response not found or deleted"
  | Some response =>
      if decide (status response = Deleted) then throw "Response not found or deleted"
      else
        match populated with
        | None => throw "TypeError: Cannot read properties of null (reading 'userId')"
        | Some form =>
            user <- User_findById (form_userId form) ;;
            expired <- match user with Some u => isTokenExpired u | None => ret true end ;;
            match user, expired with
            | Some u, false =>
                let airtableFields := answersToFields form (answers response) in
                written <- attempt
                  (if decide (status response = Submitted \/ status response = Failed)
                   then
                     record <- AirtableService_createRecord (accessToken u)
                                 (airtableBaseId form) (airtableTableId form) airtableFields ;;
                     ret (record, withRecordId (rec_id record) response)
                   else
                     record <- AirtableService_updateRecord (accessToken u)
                                 (airtableBaseId form) (airtableTableId form)
                                 (airtableRecordId response) airtableFields ;;
                     ret (record, response)) ;;
                match written with
                | inr error =>
                    updateSyncStatus_failed error response ;;
                    throw error
                | inl (record, response1) =>
                    t <- newDate ;;
                    let response2 := markSynced t response1 in
                    saved <- attempt (Response_save response2) ;;
                    match saved with
                    | inl _ => ret record
                    | inr error =>
                        updateSyncStatus_failed error response2 ;;
                        throw error
                    end
                end
            | _, _ => throw "User token expired or not found"
            end
        end
  end.

(** *** WebhookSyncService *)

Definition batchSize : nat := 10.
Definition maxRetries : nat := 3.

(** The answers read from an Airtable record, one per question whose field is
    present. Reading a field of a record without [fields] raises a TypeError. *)
Definition recordAnswers (form : Form) (record : AirtableRecord) : M (list Answer) :=
  match questions form, rec_fields record with
  | [], _ => ret []
  | _ :: _, None => throw "TypeError: Cannot read properties of undefined"
  | qs, Some fields => t <- newDate ;; ret (fieldAnswers t qs fields)
  end.

(** The [try] block of [syncSingleRecord]. *)
Definition syncSingleRecord_try (baseId tableId recordId : string) : M unit :=
  found <- Form_findOne baseId tableId ;;
  match found with
  | None => ret tt
  | Some form =>
      user <- User_findById (form_userId form) ;;
      expired <- match user with Some u => isTokenExpired u | None => ret true end ;;
      match user, expired with
      | Some u, false =>
          fetched <- AirtableService_getRecord (accessToken u) baseId tableId recordId ;;
          match fetched with
          | None => ret tt
          | Some airtableRecord =>
              ans <- recordAnswers form airtableRecord ;;
              existing <- Response_findOne recordId ;;
              response <- match existing with
                          | Some response =>
                              t <- newDate ;;
                              ret (withStatus Synced
                                     {| lastSyncedAt := Some t;
                                        syncAttempts := syncAttempts (syncStatus response) + 1;
                                        syncError := syncError (syncStatus response) |}
                                     (withAnswers ans response))
                          | None =>
                              t <- newDate ;;
                              newResponse (form_id form) (form_userId form) recordId Synced ans
                                {| lastSyncedAt := Some t; syncAttempts := 1;
                                   syncError := None |}
                          end ;;
              Response_save response
          end
      | _, _ => ret tt
      end
  end.

(** The [catch (error)] block of [syncSingleRecord], with its inner
    [try ... catch (dbError)]. *)
Definition syncSingleRecord_catch (recordId : string) (error : string) : M unit :=
  tryCatch
    (existing <- Response_findOne recordId ;;
     match existing with
     | Some response =>
         Response_save
           (withStatus Failed
              {| lastSyncedAt := lastSyncedAt (syncStatus response);
                 syncAttempts := syncAttempts (syncStatus response) + 1;
                 syncError := Some error |} response)
     | None => ret tt
     end)
    (fun dbError => ret tt).

Definition syncSingleRecord (baseId tableId recordId : string) : M unit :=
  tryCatch (syncSingleRecord_try baseId tableId recordId)
           (syncSingleRecord_catch recordId).

(** The webhook body: [{ base: {id}, webhook: {action, tableId, recordIds} }];
    [recordIds = None] is a missing or non-array value. *)
Record WebhookEvent := {
  action : string;
  tableId : option string;
  recordIds : option (list string)
}.

Record WebhookBody := {
  base : option string;
  webhook : option WebhookEvent
}.

Definition truthyString (s : option string) : bool :=
  match s with
  | Some s => negb (String.eqb s "")
  | None => false
  end.

(** [recordIds.slice(i, i + batchSize)] for [i = 0, batchSize, ...]. *)
Fixpoint batches (fuel : nat) (ids : list string) : list (list string) :=
  match fuel, ids with
  | _, [] => []
  | O, _ => []
  | S fuel', _ => take batchSize ids :: batches fuel' (drop batchSize ids)
  end.

(** Within a batch the records are synchronised by [Promise.all]; the model
    runs them one after the other, in order. *)
Definition handleUpdatedRecords (baseId : string) (event : WebhookEvent) : M unit :=
  match tableId event, recordIds event with
  | Some table, Some ids =>
      if String.eqb table "" then throw "Invalid updated records payload"
      else
        found <- Form_find baseId table ;;
        match found with
        | [] => ret tt
        | _ =>
            forEach (fun batch =>
                       forEach (syncSingleRecord baseId table) batch ;;
                       sleep 100)
                    (batches (length ids) ids)
        end
  | _, _ => throw "Invalid updated records payload"
  end.

Definition handleCreatedRecords (baseId : string) (event : WebhookEvent) : M unit :=
  handleUpdatedRecords baseId event.

Definition handleDeletedRecords (baseId : string) (event : WebhookEvent) : M unit :=
  match tableId event, recordIds event with
  | Some table, Some ids =>
      if String.eqb table "" then throw "Invalid deleted records payload"
      else
        forEach (fun recordId =>
                   tryCatch (Response_markAsDeleted recordId ;; ret tt)
                            (fun error => ret tt))
                ids
  | _, _ => throw "Invalid deleted records payload"
  end.

Record ProcessResult := { processed : bool }.

Definition processWebhook (payload : WebhookBody) : M ProcessResult :=
  tryCatch
    (match base payload, webhook payload with
     | Some baseId, Some event =>
         (if String.eqb (action event) "updatedRecords" then handleUpdatedRecords baseId event
          else if String.eqb (action event) "createdRecords" then handleCreatedRecords baseId event
          else if String.eqb (action event) "deletedRecords" then handleDeletedRecords baseId event
          else ret tt) ;;
         ret {| processed := true |}
     | _, _ => throw "Invalid webhook payload"
     end)
    (fun error => throw error).

Record SyncReport := {
  reportSuccess : bool;
  syncedCount : nat;
  errorCount : nat
}.

(** The record loop of a page: [syncedCount++] after each call that returns,
    [errorCount++] in the [catch]. *)
Fixpoint syncRecords (baseId tableId : string) (records : list AirtableRecord)
    (counts : nat * nat) : M (nat * nat) :=
  match records with
  | [] => ret counts
  | record :: rest =>
      counts' <- tryCatch
                   (syncSingleRecord baseId tableId (rec_id record) ;;
                    ret (S (fst counts), snd counts))
                   (fun recordError => ret (fst counts, S (snd counts))) ;;
      syncRecords baseId tableId rest counts'
  end.

(** The [do ... while (offset)] loop. Inside the outer [try] only the page
    request can raise, before any counter is touched; the [catch] counts one
    error and leaves the loop. *)
Fixpoint syncPages (fuel : nat) (token baseId tableId : string) (offset : option string)
    (counts : nat * nat) : M (nat * nat) :=
  match fuel with
  | O => outOfFuel
  | S fuel' =>
      fetched <- attempt (listRecords token baseId tableId
                            (if truthyString offset then offset else None)) ;;
      match fetched with
      | inr batchError => ret (fst counts, S (snd counts))
      | inl page =>
          counts' <- syncRecords baseId tableId (page_records page) counts ;;
          sleep 200 ;;
          if truthyString (page_offset page)
          then syncPages fuel' token baseId tableId (page_offset page) counts'
          else ret counts'
      end
  end.

Definition syncAllRecordsForForm (fuel : nat) (formId : nat) : M SyncReport :=
  tryCatch
    (found <- Form_findById formId ;;
     match found with
     | None => throw "Form not found"
     | Some form =>
         user <- User_findById (form_userId form) ;;
         expired <- match user with Some u => isTokenExpired u | None => ret true end ;;
         match user, expired with
         | Some u, false =>
             counts <- syncPages fuel (accessToken u) (airtableBaseId form)
                         (airtableTableId form) None (0, 0) ;;
             ret {| reportSuccess := true; syncedCount := fst counts;
                    errorCount := snd counts |}
         | _, _ => throw "User token expired"
         end
     end)
    (fun error => throw error).

(** [Response.find({ status: 'failed', 'syncStatus.syncAttempts': { $lt:
    maxRetries } }).limit(limit)]. For the document store a limit of 0 means
    no limit. *)
Definition retryCandidate (r : Response) : bool :=
  bool_decide (status r = Failed) && (syncAttempts (syncStatus r) <? maxRetries)%nat.

Definition applyLimit {A} (limit : nat) (l : list A) : list A :=
  match limit with
  | O => l
  | _ => take limit l
  end.

Definition failedResponses (limit : nat) (rs : list Response) : list Response :=
  applyLimit limit (List.filter retryCandidate rs).

Definition Response_findFailed (limit : nat) : M (list Response) :=
  io (fun w => (Ok (failedResponses limit (responses w)), w)).

Record RetryResults := {
  retrySuccess : nat;
  retryFailed : nat
}.

(** One iteration of the retry loop; [continue] also skips the delay. *)
Definition retryOne (results : RetryResults) (response : Response) : M RetryResults :=
  outcome <- attempt
    (found <- Form_findById (r_formId response) ;;
     match found with
     | None => ret None
     | Some form =>
         user <- User_findById (form_userId form) ;;
         expired <- match user with Some u => isTokenExpired u | None => ret true end ;;
         match user, expired with
         | Some u, false =>
             syncResponseToAirtable (resp_id response) ;;
             ret (Some {| retrySuccess := S (retrySuccess results);
                          retryFailed := retryFailed results |})
         | _, _ => ret None
         end
     end) ;;
  match outcome with
  | inl None => ret results
  | inl (Some results') => sleep 50 ;; ret results'
  | inr error =>
      sleep 50 ;;
      ret {| retrySuccess := retrySuccess results; retryFailed := S (retryFailed results) |}
  end.

Fixpoint retryEach (responses : list Response) (results : RetryResults) : M RetryResults :=
  match responses with
  | [] => ret results
  | response :: rest => results' <- retryOne results response ;; retryEach rest results'
  end.

Definition retryFailedSyncs (limit : nat) : M RetryResults :=
  tryCatch
    (selected <- Response_findFailed limit ;;
     retryEach selected {| retrySuccess := 0; retryFailed := 0 |})
    (fun error => throw error).

End Services.

(** Vocabulary of the statements about the store. *)
Definition linkedResponse (w : World) (recordId : string) : option Response :=
  List.find (fun r => String.eqb (airtableRecordId r) recordId) (responses w).

(** The indexes of the Response collection: [_id] and [airtableRecordId] are
    unique. *)
Definition storeOk (w : World) : Prop :=
  NoDup (map resp_id (responses w)) /\ NoDup (map airtableRecordId (responses w)).

(** The stored documents meet the [required] validators of their schemas:
    the Responses as [save] checks them, the questions of the Forms by their
    [questionKey]. *)
Definition validForm (f : Form) : bool :=
  forallb (fun q => negb (String.eqb (questionKey q) "")) (questions f).

Definition schemaOk (w : World) : Prop :=
  Forall (fun r => validResponse r = true) (responses w)
  /\ Forall (fun f => validForm f = true) (forms w).

(** The active form bound to a table, and a user by id, as the queries of the
    services find them. *)
Definition boundForm (w : World) (baseId tableId : string) : option Form :=
  List.find (fun f => String.eqb (airtableBaseId f) baseId
                      && String.eqb (airtableTableId f) tableId
                      && isActive f) (forms w).

Definition formById (w : World) (id : nat) : option Form :=
  List.find (fun f => Nat.eqb (form_id f) id) (forms w).

Definition userById (w : World) (id : nat) : option User :=
  List.find (fun u => Nat.eqb (user_id u) id) (users w).

(** The response as the update branch of [syncSingleRecord] rewrites it. *)
Definition resynced (t : nat) (ans : list Answer) (r : Response) : Response :=
  withStatus Synced
    {| lastSyncedAt := Some t;
       syncAttempts := syncAttempts (syncStatus r) + 1;
       syncError := syncError (syncStatus r) |}
    (withAnswers ans r).

(** The response as the [catch] block of [syncSingleRecord] rewrites it. *)
Definition failedWith (error : string) (r : Response) : Response :=
  withStatus Failed
    {| lastSyncedAt := lastSyncedAt (syncStatus r);
       syncAttempts := syncAttempts (syncStatus r) + 1;
       syncError := Some error |} r.

Definition answerContent (a : Answer) : string * jsval := (a_questionKey a, a_value a).

(** Time passing between two calls. *)
Definition later (d : nat) (w : World) : World := setNow (now w + d) w.

Definition isListRequest (r : Request) : bool :=
  match r with ReqListRecords _ _ _ => true | _ => false end.

Definition pageFetches (w : World) : nat :=
  length (List.filter isListRequest (requests w)).

(** Example worlds. *)
Definition planForm : Form :=
  {| form_id := 1; form_userId := 7; airtableBaseId := "appBase"; airtableTableId := "tblPlans";
     isActive := true;
     questions := [dependsOnKeys "name" []; dependsOnKeys "plan" []] |}.

Definition owner (expiresAt : nat) : User :=
  {| user_id := 7; accessToken := "tok"; tokenExpiresAt := expiresAt |}.

Definition recA : AirtableRecord :=
  {| rec_id := "recA";
     rec_fields := Some [("fld_name", JStr "A"); ("fld_plan", JStr "basic")] |}.

Definition linkedA : Response :=
  {| resp_id := 0; r_formId := 1; r_userId := 7; airtableRecordId := "recA";
     status := Submitted; answers := [];
     syncStatus := {| lastSyncedAt := None; syncAttempts := 0; syncError := None |} |}.

Definition worldWith (expiresAt : nat) (rs : list Response) : World :=
  {| forms := [planForm]; users := [owner expiresAt]; responses := rs;
     nextObjectId := 100; now := 1000; created := 0; faults := []; requests := [] |}.

(** An API holding the given records; list requests are answered [pageSize]
    records at a time, with the position of the next page as continuation
    token (a string of that length). *)
Fixpoint tokenOf (position : nat) : string :=
  match position with
  | O => ""
  | S n => String "x" (tokenOf n)
  end.

Definition pagedEnv (records : list AirtableRecord) (pageSize : nat) : Env :=
  {| getRecordReply := fun _ _ _ recordId =>
       match List.find (fun r => String.eqb (rec_id r) recordId) records with
       | Some r => Replied (Some r)
       | None => Refused "Resource not found in Airtable."
       end;
     listRecordsReply := fun _ _ _ offset =>
       let position := match offset with Some t => String.length t | None => 0 end in
       Replied {| page_records := take pageSize (drop position records);
                  page_offset := if (position + pageSize <? length records)%nat
                                 then Some (tokenOf (position + pageSize)) else None |};
     createRecordReply := fun n _ _ _ fields =>
       Replied {| rec_id := tokenOf (S n); rec_fields := Some fields |};
     updateRecordReply := fun _ _ _ recordId fields =>
       Replied {| rec_id := recordId; rec_fields := Some fields |} |}.

(** A table of [n] records. *)
Definition recordsN (n : nat) : list AirtableRecord :=
  map (fun i => {| rec_id := String.append "rec" (tokenOf i);
                   rec_fields := Some [("fld_name", JStr "A")] |}) (seq 0 n).

(** Responses for the retry scan. *)
Definition failedResponse (id attempts : nat) : Response :=
  {| resp_id := id; r_formId := 1; r_userId := 7;
     airtableRecordId := String.append "local_" (tokenOf id);
     status := Failed; answers := [];
     syncStatus := {| lastSyncedAt := None; syncAttempts := attempts;
                      syncError := Some "Rate limit exceeded. Please try again later." |} |}.

(** *** Webhook ingress: WebhookSyncService.verifySignature and
    WebhookController.handleWebhook *)

(** Library functions of the platform: [crypto.createHmac('sha256',
    secret).update(payload).digest('hex')] and [JSON.stringify]. *)
Class Platform := {
  hmacSha256Hex : string -> string -> string;
  jsonStringify : WebhookBody -> string
}.

(** The secret is read twice from the environment: by the service when it is
    constructed ([this.webhookSecret]) and by the controller on each request
    ([process.env.WEBHOOK_SECRET]). *)
Record WebhookConfig := {
  serviceSecret : option string;
  envSecret : option string
}.

Record WebhookRequest := {
  signatureHeader : option string;
  requestBody : WebhookBody
}.

Record WebhookReply := {
  replyStatus : nat;
  success : bool;
  replyText : string
}.

Section Webhook.
Context `{Platform}.
Variable env : Env.

(** [crypto.timingSafeEqual(Buffer.from(signature), Buffer.from(expected))]:
    [Buffer.from(undefined)] raises a TypeError, buffers of different byte
    lengths raise a RangeError. *)
Definition timingSafeEqual (signature : option string) (expected : string) : Outcome bool :=
  match signature with
  | None => Throw "TypeError [ERR_INVALID_ARG_TYPE]: The first argument must be of type string"
  | Some s =>
      if Nat.eqb (String.length s) (String.length expected)
      then Ok (String.eqb s expected)
      else Throw "RangeError [ERR_CRYPTO_TIMING_SAFE_EQUAL_LENGTH]: Input buffers must have the same byte length"
  end.

Definition verifySignature (webhookSecret : option string) (payload : string)
    (signature : option string) : Outcome bool :=
  match webhookSecret with
  | Some secret =>
      if String.eqb secret "" then Ok true
      else timingSafeEqual signature (hmacSha256Hex secret payload)
  | None => Ok true
  end.

Definition liftOutcome {A} (o : Outcome A) : M A := fun w => (o, w).

Definition handleWebhook (config : WebhookConfig) (req : WebhookRequest) : M WebhookReply :=
  tryCatch
    (let signature := signatureHeader req in
     let payload := jsonStringify (requestBody req) in
     isValid <- (if truthyString (envSecret config)
                 then liftOutcome (verifySignature (serviceSecret config) payload signature)
                 else ret true) ;;
     if negb isValid
     then ret {| replyStatus := 401; success := false; replyText := "Invalid signature" |}
     else
       processWebhook env (requestBody req) ;;
       ret {| replyStatus := 200; success := true;
              replyText := "Webhook processed successfully" |})
    (fun error => ret {| replyStatus := 200; success := false; replyText := error |}).

End Webhook.

(** A reference platform for closed examples: the digest is the secret
    followed by the payload, and every body serialises to its action name. *)
Definition refPlatform : Platform := {|
  hmacSha256Hex := fun secret payload => String.append secret payload;
  jsonStringify := fun body => match webhook body with
                               | Some event => action event
                               | None => ""
                               end
|}.

Definition deleteEvent (ids : list string) : WebhookBody :=
  {| base := Some "appBase";
     webhook := Some {| action := "deletedRecords"; tableId := Some "tblPlans";
                        recordIds := Some ids |} |}.

Definition secretConfig : WebhookConfig :=
  {| serviceSecret := Some "s3cret"; envSecret := Some "s3cret" |}.

Definition noSecretConfig : WebhookConfig :=
  {| serviceSecret := None; envSecret := None |}.

(** *** Vocabulary for reasoning about the services *)

(** [m] keeps the invariant [I]; [m] always terminates within its fuel; [m]
    always returns normally. *)
Definition preserves {A} (I : World -> Prop) (m : M A) : Prop :=
  forall w, I w -> I (snd (m w)).

Definition total {A} (m : M A) : Prop :=
  forall w, fst (m w) <> OutOfFuel.

Definition neverThrows {A} (m : M A) : Prop :=
  forall w, exists a, fst (m w) = Ok a.

(** [I] holds after [m] unless [m] returned normally. *)
Definition keepsUnlessOk {A} (I : World -> Prop) (m : M A) : Prop :=
  forall w, I w -> match fst (m w) with Ok _ => True | _ => I (snd (m w)) end.

(** [m] keeps [I], and a value it returns satisfies [Q]. *)
Definition returning {A} (I : World -> Prop) (Q : A -> Prop) (m : M A) : Prop :=
  forall w, I w -> I (snd (m w)) /\ forall a, fst (m w) = Ok a -> Q a.

(** Invariants of the world.

    [Frame I]: no call other than a write to the Response collection breaks
    [I]. [Stable I]: the writes keep it as well. *)

Record Frame (I : World -> Prop) : Prop := {
  frame_faults : forall w o rest, I w -> faults w = o :: rest -> I (setFaults rest w);
  frame_now : forall w t, I w -> I (setNow t w);
  frame_nextObjectId : forall w n, I w -> I (setNextObjectId n w);
  frame_created : forall w n, I w -> I (setCreated n w);
  frame_log : forall w r, isListRequest r = false -> I w -> I (logRequest r w)
}.

Record Stable (I : World -> Prop) : Prop := {
  stable_frame : Frame I;
  stable_save : forall w r, I w -> validResponse r = true ->
    duplicatesRecordId r (responses w) = false ->
    I (setResponses (if isStored r (responses w) then replaceById r (responses w)
                     else responses w ++ [r]) w);
  stable_markAsDeleted : forall w r sync,
    I w -> In r (responses w) ->
    I (setResponses (replaceById (withStatus Deleted sync r) (responses w)) w)
}.


(** *** ConditionalLogicEngine: visibility, rule validation, dependents *)

Section ConditionalLogicMore.
Context `{JsBuiltins}.

(** [getVisibleQuestions(questions, answers)] *)
Definition getVisibleQuestions (questions : list Question) (answers : gmap string jsval)
    : list Question :=
  List.filter (fun question => shouldShowQuestion (conditionalRules question) answers)
              questions.

(** The names every plain object inherits from [Object.prototype]: a lookup
    [this.operators[name]] finds a member for them as well. *)
Definition objectPrototypeNames : list string :=
  ["constructor"; "__defineGetter__"; "__defineSetter__"; "hasOwnProperty";
   "__lookupGetter__"; "__lookupSetter__"; "isPrototypeOf"; "propertyIsEnumerable";
   "toString"; "valueOf"; "__proto__"; "toLocaleString"].

(** The property key a value is converted to when it indexes an object. *)
Definition propertyKey (v : jsval) : string :=
  match v with
  | JStr s => s
  | _ => toString v
  end.

(** [this.operators[operator]] is truthy. *)
Definition hasOperatorEntry (operator : jsval) : bool :=
  match operators (propertyKey operator) with
  | Some _ => true
  | None => bool_decide (propertyKey operator ∈ objectPrototypeNames)
  end.

(** A rule as it arrives in a request body; [rd_conditions = None] is a value
    that is not an array. *)
Record ConditionDraft := {
  cd_questionKey : jsval;
  cd_operator : jsval;
  cd_value : jsval
}.

Record RulesDraft := {
  rd_logic : jsval;
  rd_conditions : option (list ConditionDraft)
}.

(** The messages of [validateRules], without their text. *)
Inductive RuleError :=
| ErrLogicOperator
| ErrConditionsRequired
| ErrConditionKeyRequired (index : nat)
| ErrConditionKeyNotFound (index : nat)
| ErrConditionOperatorRequired (index : nat)
| ErrConditionOperatorInvalid (index : nat)
| ErrConditionValueRequired (index : nat).

Record RulesValidation := {
  rulesValid : bool;
  rulesErrors : option (list RuleError)
}.

(** The body of [rules.conditions.forEach((condition, index) => ...)]. *)
Definition validateCondition (availableQuestions : list jsval) (index : nat)
    (condition : ConditionDraft) : list RuleError :=
  (if negb (truthy (cd_questionKey condition)) then [ErrConditionKeyRequired index]
   else if negb (arrayIncludes availableQuestions (cd_questionKey condition))
   then [ErrConditionKeyNotFound index] else [])
  ++ (if negb (truthy (cd_operator condition)) then [ErrConditionOperatorRequired index]
      else if negb (hasOperatorEntry (cd_operator condition))
      then [ErrConditionOperatorInvalid index] else [])
  ++ (match cd_value condition with
      | JUndefined | JNull => [ErrConditionValueRequired index]
      | _ => []
      end).

Definition validateRules (rules : option RulesDraft) (availableQuestions : list jsval)
    : RulesValidation :=
  match rules with
  | None => {| rulesValid := true; rulesErrors := None |}
  | Some rules =>
      let errors :=
        if negb (arrayIncludes [JStr "AND"; JStr "OR"] (rd_logic rules))
        then [ErrLogicOperator] else [] in
      match rd_conditions rules with
      | None | Some [] =>
          {| rulesValid := false; rulesErrors := Some (errors ++ [ErrConditionsRequired]) |}
      | Some conditions =>
          let errors := errors ++ concat (imap (validateCondition availableQuestions)
                                               conditions) in
          {| rulesValid := (length errors =? 0)%nat;
             rulesErrors := if (0 <? length errors)%nat then Some errors else None |}
      end
  end.

End ConditionalLogicMore.

Definition hasNoConditions (question : Question) : bool :=
  match conditionsOf question with
  | [] => true
  | _ :: _ => false
  end.

(** [new Set()] with [add]: insertion order, no duplicates. *)
Definition setAdd (x : string) (set : list string) : list string :=
  if decide (x ∈ set) then set else set ++ [x].

(** [getDependentQuestions(targetQuestionKey, allQuestions)] *)
Definition getDependentQuestions (targetQuestionKey : string) (allQuestions : list Question)
    : list string :=
  fold_left
    (fun dependentQuestions question =>
       fold_left (fun set condition =>
                    if String.eqb (c_questionKey condition) targetQuestionKey
                    then setAdd (questionKey question) set else set)
                 (conditionsOf question) dependentQuestions)
    allQuestions [].

(** [graph[key].dependsOn], empty for a key without a node. *)
Definition dependsOnOf (graph : list (string * GraphNode)) (key : string) : list string :=
  match obj_get graph key with
  | Some n => dependsOn n
  | None => []
  end.

(** *** FormValidator: supported fields *)

(** [isSupportedAirtableType(airtableType)]:
    [Object.keys(this.airtableTypeMap).includes(airtableType)] *)
Definition isSupportedAirtableType (airtableType : string) : bool :=
  existsb (fun key => String.eqb key airtableType) (objectKeys airtableTypeMap).

(** [getSupportedFields(airtableFields)] *)
Definition getSupportedFields (airtableFields : list MappedField) : list MappedField :=
  List.filter (fun field => isSupportedAirtableType (airtableType field)) airtableFields.

(** A question with its own key, field and type, for the named field. *)
Definition questionFor (key : string) (field : MappedField) (type : string) : QuestionDraft :=
  {| d_questionKey := JStr key; d_airtableFieldId := JStr (field_id field);
     d_label := JStr key; d_type := JStr type; d_required := JBool false;
     d_options := None; d_validationRules := None |}.

(** *** Vocabulary for the other paths of the sync engine *)

(** The response as [Response.markAsDeleted] rewrites it at time [t]. *)
Definition markedDeleted (t : nat) (r : Response) : Response :=
  withStatus Deleted
    {| lastSyncedAt := Some t;
       syncAttempts := syncAttempts (syncStatus r);
       syncError := syncError (syncStatus r) |} r.

(** The collection after the responses linked to one of [ids] were marked. *)
Definition deleteListed (t : nat) (ids : list string) (rs : list Response) : list Response :=
  map (fun r => if bool_decide (airtableRecordId r ∈ ids) then markedDeleted t r else r) rs.

(** Everything but the Response collection is as before. *)
Definition onlyResponsesChanged (w w' : World) : Prop :=
  forms w' = forms w /\ users w' = users w /\ now w' = now w
  /\ requests w' = requests w /\ nextObjectId w' = nextObjectId w
  /\ created w' = created w /\ faults w' = faults w.

(** The [_id]s handed out so far are below the next one. *)
Definition freshIds (w : World) : Prop :=
  Forall (fun r => resp_id r < nextObjectId w) (responses w).

Definition deletedPayload (table : option string) (ids : option (list string))
    : WebhookEvent :=
  {| action := "deletedRecords"; tableId := table; recordIds := ids |}.

Definition updatedPayload (table : option string) (ids : option (list string))
    : WebhookEvent :=
  {| action := "updatedRecords"; tableId := table; recordIds := ids |}.

(** The Response that the creation branch of [syncSingleRecord] stores. *)
Definition createdResponse (id : nat) (form : Form) (recordId : string) (t : nat)
    (fields : list (string * jsval)) : Response :=
  {| resp_id := id; r_formId := form_id form; r_userId := form_userId form;
     airtableRecordId := recordId; status := Synced;
     answers := fieldAnswers t (questions form) fields;
     syncStatus := {| lastSyncedAt := Some t; syncAttempts := 1; syncError := None |} |}.

(** The API requests of a run, in order. *)
Definition requestsSince (w w' : World) (sent : list Request) : Prop :=
  requests w' = requests w ++ sent.

(** A response found by [_id]. *)
Definition responseById (w : World) (id : nat) : option Response :=
  List.find (fun r => Nat.eqb (resp_id r) id) (responses w).

(** No other Response holds the record id. *)
Definition recordIdFree (w : World) (id : nat) (recordId : string) : Prop :=
  forall r, r ∈ responses w -> airtableRecordId r = recordId -> resp_id r = id.

(** The answer that decides a field of the pushed object: the last one whose
    question is bound to the field. *)
Definition answersField (form : Form) (fieldId : string) (answer : Answer) : bool :=
  match getQuestion form (a_questionKey answer) with
  | Some question => String.eqb (airtableFieldId question) fieldId
  | None => false
  end.

(** A field value as [syncSingleRecord] reads it: [undefined] reads as absent. *)
Definition definedField (fields : list (string * jsval)) (fieldId : string) : option jsval :=
  match obj_get fields fieldId with
  | Some JUndefined | None => None
  | Some value => Some value
  end.

(** The number of page requests for [n] records served [p] at a time: an empty
    table still takes one. *)
Definition pagesNeeded (n p : nat) : nat := Nat.max 1 ((n + p - 1) / p).

(** The continuation token of the model API for a position in the table. *)
Definition offsetAt (position : nat) : option string :=
  match position with
  | O => None
  | S _ => Some (tokenOf position)
  end.

(** *** FormController: the checks of createForm and updateForm on the questions *)

Section FormGuards.
Context `{JsBuiltins}.

(** A question of the request body: the members read by [validateQuestions],
    and [conditionalRules], [None] when the member is falsy. *)
Record FormQuestionDraft := {
  fq_question : QuestionDraft;
  fq_conditionalRules : option RulesDraft
}.

(** [questions.map(q => q.questionKey)] *)
Definition availableKeys (questions : list FormQuestionDraft) : list jsval :=
  map (fun q => d_questionKey (fq_question q)) questions.

(** The indexes pushed to [conditionalErrors]. *)
Definition conditionalErrors (questions : list FormQuestionDraft) : list nat :=
  concat (imap (fun index question =>
                  match fq_conditionalRules question with
                  | Some rules =>
                      let validation :=
                        validateRules (Some rules) (availableKeys questions) in
                      if negb (rulesValid validation) then [index] else []
                  | None => []
                  end)
               questions).

(** The question as [createDependencyGraph] reads it. The graph is built only
    after both validations have passed: the keys are then strings, and the
    conditions of every rule are an array. *)
Definition conditionOf (condition : ConditionDraft) : Condition :=
  {| c_questionKey := propertyKey (cd_questionKey condition);
     c_operator := propertyKey (cd_operator condition);
     c_value := cd_value condition |}.

Definition rulesOf (rules : RulesDraft) : ConditionalRules :=
  {| logic := propertyKey (rd_logic rules);
     conditions := option_map (map conditionOf) (rd_conditions rules) |}.

Definition questionOf (question : FormQuestionDraft) : Question :=
  {| questionKey := propertyKey (d_questionKey (fq_question question));
     airtableFieldId := propertyKey (d_airtableFieldId (fq_question question));
     conditionalRules := option_map rulesOf (fq_conditionalRules question) |}.

(** The three checks between the lookup of the table and the creation of the
    form: [Some None] lets the request through, [Some (Some reply)] answers
    it, [None] is a traversal that ran out of fuel. *)
Definition formGuards (questions : list FormQuestionDraft) (tableFields : list MappedField)
    : option (option HttpReply) :=
  match questionsGate (map fq_question questions) tableFields with
  | Some reply => Some (Some reply)
  | None =>
      if (0 <? length (conditionalErrors questions))%nat
      then Some (Some {| statusCode := 400; replySuccess := false;
                         replyError := "Invalid conditional logic" |})
      else
        circularCheck ← detectCircularDependencies (map questionOf questions);
        Some (if hasCycles circularCheck
              then Some {| statusCode := 400; replySuccess := false;
                           replyError := "Circular dependency detected in conditional logic" |}
              else None)
  end.

End FormGuards.

(** A question without a rule, and one shown when [other] equals yes. *)
Definition plainQuestion (key : string) (field : MappedField) : FormQuestionDraft :=
  {| fq_question := questionFor key field "shortText"; fq_conditionalRules := None |}.

Definition questionAfter (key other : string) (field : MappedField) : FormQuestionDraft :=
  {| fq_question := questionFor key field "shortText";
     fq_conditionalRules :=
       Some {| rd_logic := JStr "AND";
               rd_conditions :=
                 Some [{| cd_questionKey := JStr other; cd_operator := JStr "equals";
                          cd_value := JStr "yes" |}] |} |}.

Definition textField (id : string) : MappedField :=
  mapAirtableField {| af_id := id; af_name := id; af_description := JUndefined;
                      af_type := "singleLineText"; af_options := None |}.

(** *** Form.validateAnswer and the answer checks of submitResponse *)

(** The members of a stored question that the answer checks read. [sq_options]
    holds the [value]s of the options; the rules hold the two length limits,
    [None] when unset. *)
Record ValidationRules := {
  rule_minLength : option float;
  rule_maxLength : option float
}.

Record StoredQuestion := {
  sq_question : Question;
  sq_required : bool;
  sq_type : string;
  sq_options : list string;
  sq_validationRules : option ValidationRules
}.

(** The messages of [validateAnswer] and [submitResponse], without their text. *)
Inductive AnswerError :=
| ErrQuestionNotFound
| ErrFieldRequired
| ErrInvalidSelection
| ErrInvalidSelections
| ErrMustBeText
| ErrMinimumLength (limit : float)
| ErrMaximumLength (limit : float).

Record AnswerChecks := {
  validationErrors : list (string * AnswerError);
  processedAnswers : list (string * jsval)
}.

Section SubmitChecks.
Context `{JsBuiltins}.

(** [s.length] as a Number; the count of UTF-16 units is the engine's. *)
Variable stringLength : string -> float.

Definition storedQuestion (questions : list StoredQuestion) (key : string)
    : option StoredQuestion :=
  List.find (fun q => String.eqb (questionKey (sq_question q)) key) questions.

(** [question.options.some(opt => opt.value === answer)] *)
Definition isOption (question : StoredQuestion) (answer : jsval) : bool :=
  existsb (fun value => strictEqString value answer) (sq_options question).

(** [limit && compare(answer.length, limit)], reached with a string or a falsy
    answer: the limit when the comparison holds. The [length] of a boolean or
    a number is [undefined], which compares false, and reading it from
    [undefined] or [null] raises. *)
Definition lengthBeyond (limit : option float) (compare : float -> float -> bool)
    (answer : jsval) : Outcome (option float) :=
  match limit with
  | Some limit =>
      if truthy (JNum limit) then
        match answer with
        | JUndefined =>
            Throw "TypeError: Cannot read properties of undefined (reading 'length')"
        | JNull => Throw "TypeError: Cannot read properties of null (reading 'length')"
        | JStr s => Ok (if compare (stringLength s) limit then Some limit else None)
        | _ => Ok None
        end
      else Ok None
  | None => Ok None
  end.

(** The [shortText] / [longText] case. *)
Definition validateText (question : StoredQuestion) (answer : jsval)
    : Outcome (option AnswerError) :=
  if truthy answer && negb (isStringValue answer) then Ok (Some ErrMustBeText)
  else
    match sq_validationRules question with
    | Some rules =>
        match lengthBeyond (rule_minLength rules) PrimFloat.ltb answer with
        | Ok (Some limit) => Ok (Some (ErrMinimumLength limit))
        | Ok None =>
            match lengthBeyond (rule_maxLength rules)
                               (fun length limit => PrimFloat.ltb limit length) answer with
            | Ok (Some limit) => Ok (Some (ErrMaximumLength limit))
            | Ok None => Ok None
            | Throw error => Throw error
            | OutOfFuel => OutOfFuel
            end
        | Throw error => Throw error
        | OutOfFuel => OutOfFuel
        end
    | None => Ok None
    end.

(** [form.validateAnswer(questionKey, answer)]; [Ok None] is [{isValid: true}]. *)
Definition Form_validateAnswer (questions : list StoredQuestion) (key : string)
    (answer : jsval) : Outcome (option AnswerError) :=
  match storedQuestion questions key with
  | None => Ok (Some ErrQuestionNotFound)
  | Some question =>
      if sq_required question && isMissing answer then Ok (Some ErrFieldRequired)
      else if String.eqb (sq_type question) "singleSelect" then
        if truthy answer && negb (isOption question answer)
        then Ok (Some ErrInvalidSelection) else Ok None
      else if String.eqb (sq_type question) "multiSelect" then
        if truthy answer
           && match answer with
              | JArr items => existsb (fun val => negb (isOption question val)) items
              | _ => true
              end
        then Ok (Some ErrInvalidSelections) else Ok None
      else if String.eqb (sq_type question) "shortText"
              || String.eqb (sq_type question) "longText"
      then validateText question answer
      else Ok None
  end.

(** The first loop of [submitResponse]: the required questions without an
    answer. [answers] holds the own properties of the answers object. *)
Definition requiredErrors (questions : list StoredQuestion) (answers : gmap string jsval)
    : list (string * AnswerError) :=
  flat_map (fun question =>
              if sq_required question
                 && isMissing (answerOf answers (questionKey (sq_question question)))
              then [(questionKey (sq_question question), ErrFieldRequired)]
              else [])
           questions.

(** The second loop, over [Object.entries(answers)]. *)
Fixpoint checkEntries (questions : list StoredQuestion) (answers : gmap string jsval)
    (entries : list (string * jsval)) (checks : AnswerChecks) : Outcome AnswerChecks :=
  match entries with
  | [] => Ok checks
  | (key, value) :: rest =>
      match storedQuestion questions key with
      | None =>
          checkEntries questions answers rest
            {| validationErrors := validationErrors checks ++ [(key, ErrQuestionNotFound)];
               processedAnswers := processedAnswers checks |}
      | Some question =>
          match Form_validateAnswer questions key value with
          | Ok (Some error) =>
              checkEntries questions answers rest
                {| validationErrors := validationErrors checks ++ [(key, error)];
                   processedAnswers := processedAnswers checks |}
          | Ok None =>
              let hidden :=
                match conditionalRules (sq_question question) with
                | Some rules => negb (shouldShowQuestion (Some rules) answers)
                | None => false
                end in
              if hidden then checkEntries questions answers rest checks
              else
                checkEntries questions answers rest
                  {| validationErrors := validationErrors checks;
                     processedAnswers := processedAnswers checks ++ [(key, value)] |}
          | Throw error => Throw error
          | OutOfFuel => OutOfFuel
          end
      end
  end.

(** The answer checks of [submitResponse] for the answers object with the
    given entries: the required questions, then every entry. *)
Definition answerChecks (questions : list StoredQuestion) (entries : list (string * jsval))
    : Outcome AnswerChecks :=
  let answers : gmap string jsval := list_to_map entries in
  checkEntries questions answers entries
    {| validationErrors := requiredErrors questions answers; processedAnswers := [] |}.

(** The reply that follows the checks: 400 for a validation error, 500 when a
    check raised, none when the submission goes on. *)
Definition answersGate (questions : list StoredQuestion) (entries : list (string * jsval))
    : option HttpReply :=
  match answerChecks questions entries with
  | Ok checks =>
      if (0 <? length (validationErrors checks))%nat
      then Some {| statusCode := 400; replySuccess := false;
                   replyError := "Validation failed" |}
      else None
  | _ => Some {| statusCode := 500; replySuccess := false;
                 replyError := "Failed to submit response" |}
  end.

(** The question is shown under the answers. *)
Definition shownUnder (questions : list StoredQuestion) (answers : gmap string jsval)
    (key : string) : bool :=
  match storedQuestion questions key with
  | Some question => shouldShowQuestion (conditionalRules (sq_question question)) answers
  | None => false
  end.

End SubmitChecks.

(** An optional text question of at least three characters, and a required
    one shown only when [plan] is pro. *)
Definition commentQuestion : StoredQuestion :=
  {| sq_question := dependsOnKeys "comment" [];
     sq_required := false; sq_type := "shortText"; sq_options := [];
     sq_validationRules := Some {| rule_minLength := Some 3%float;
                                   rule_maxLength := None |} |}.

Definition seatsQuestion : StoredQuestion :=
  {| sq_question :=
       {| questionKey := "seats"; airtableFieldId := "fldSeats";
          conditionalRules := Some {| logic := "AND"; conditions := Some [cond_plan_pro] |} |};
     sq_required := true; sq_type := "shortText"; sq_options := [];
     sq_validationRules := None |}.

(** The length of a string of the reference platform, as a Number. *)
Fixpoint numberOfNat (n : nat) : float :=
  match n with
  | O => 0%float
  | S n' => (numberOfNat n' + 1)%float
  end.

Definition byteLength (s : string) : float := numberOfNat (String.length s).
(** ** Part II. Properties *)

Section ConditionalLogicProps.
Context `{JsBuiltins}.

Lemma existsb_results (answers : gmap string jsval) (conds : list Condition) :
  existsb (fun result => Bool.eqb result true) (map (evaluateCondition answers) conds) = true
  <-> exists c, In c conds /\ evaluateCondition answers c = true.
Proof.
  rewrite existsb_exists. split.
  - intros (b & Hin & Hb). apply in_map_iff in Hin as (c & <- & Hc).
    exists c. split; [done|]. by destruct (evaluateCondition answers c).
  - intros (c & Hc & Hev). exists true. split; [|done].
    apply in_map_iff. by exists c.
Qed.

Lemma forallb_results (answers : gmap string jsval) (conds : list Condition) :
  forallb (fun result => Bool.eqb result true) (map (evaluateCondition answers) conds) = true
  <-> forall c, In c conds -> evaluateCondition answers c = true.
Proof.
  rewrite forallb_forall. split.
  - intros Hall c Hc.
    assert (Hin : In (evaluateCondition answers c) (map (evaluateCondition answers) conds))
      by (apply in_map_iff; by exists c).
    apply Hall in Hin. by destruct (evaluateCondition answers c).
  - intros Hall b Hin. apply in_map_iff in Hin as (c & <- & Hc).
    by rewrite (Hall c Hc).
Qed.

(** C3. [shouldShowQuestion] shows the question when the rule is absent or has
    no conditions; with logic AND it answers true exactly when every condition
    is individually true, with logic OR exactly when at least one is. (Any
    logic other than OR is read as AND.) *)
Theorem shouldShowQuestion_combines (answers : gmap string jsval) :
  shouldShowQuestion None answers = true
  /\ (forall lg, shouldShowQuestion (Some {| logic := lg; conditions := None |}) answers = true)
  /\ (forall lg, shouldShowQuestion (Some {| logic := lg; conditions := Some [] |}) answers = true)
  /\ (forall conds,
        shouldShowQuestion (Some {| logic := "AND"; conditions := Some conds |}) answers = true
        <-> forall c, In c conds -> evaluateCondition answers c = true)
  /\ (forall conds, conds <> [] ->
        (shouldShowQuestion (Some {| logic := "OR"; conditions := Some conds |}) answers = true
         <-> exists c, In c conds /\ evaluateCondition answers c = true))
  /\ (forall lg conds, lg <> "OR" ->
        shouldShowQuestion (Some {| logic := lg; conditions := Some conds |}) answers
        = shouldShowQuestion (Some {| logic := "AND"; conditions := Some conds |}) answers).
Proof.
  split_and!; try done.
  - intros conds. destruct conds as [|c0 conds]; [done|]. split.
    + intros Hshow. by apply forallb_results.
    + intros Hall. by apply forallb_results.
  - intros conds Hne. destruct conds as [|c0 conds]; [done|]. split.
    + intros Hshow. by apply existsb_results.
    + intros Hex. by apply existsb_results.
  - intros lg conds Hlg. destruct conds as [|c0 conds]; [done|].
    apply String.eqb_neq in Hlg. unfold shouldShowQuestion. simpl conditions. simpl logic.
    by rewrite Hlg.
Qed.


End ConditionalLogicProps.

Example shouldShow_and_basic :
  @shouldShowQuestion refBuiltins
    (Some {| logic := "AND"; conditions := Some [cond_plan_pro; cond_name_lacks_x] |})
    {[ "plan" := JStr "basic"; "name" := JStr "A" ]} = false.
Proof. vm_compute. reflexivity. Qed.

Example shouldShow_or_basic :
  @shouldShowQuestion refBuiltins
    (Some {| logic := "OR"; conditions := Some [cond_plan_pro; cond_name_lacks_x] |})
    {[ "plan" := JStr "basic"; "name" := JStr "A" ]} = true.
Proof. vm_compute. reflexivity. Qed.

Lemma shouldShowQuestion_combines_witness :
  [cond_plan_pro; cond_name_lacks_x] <> []
  /\ (@shouldShowQuestion refBuiltins
        (Some {| logic := "OR"; conditions := Some [cond_plan_pro; cond_name_lacks_x] |})
        {[ "name" := JStr "A" ]} = true
      <-> exists c, In c [cond_plan_pro; cond_name_lacks_x]
                    /\ @evaluateCondition refBuiltins {[ "name" := JStr "A" ]} c = true).
Proof.
  split; [discriminate|].
  apply (proj1 (proj2 (proj2 (proj2 (proj2
    (@shouldShowQuestion_combines refBuiltins {[ "name" := JStr "A" ]})))))).
  discriminate.
Defined.


(** *** Ordered dictionaries *)

Section ObjectLemmas.
Context {V : Type}.
Implicit Types (o : list (string * V)) (k : string) (v : V).

Lemma obj_get_set o k v k' :
  obj_get (obj_set o k v) k' = if decide (k = k') then Some v else obj_get o k'.
Proof.
  unfold obj_get. induction o as [|[k0 v0] o IH]; simpl.
  - destruct (String.eqb_spec k k'); by case_decide.
  - destruct (String.eqb_spec k0 k) as [->|Hne]; simpl.
    + destruct (String.eqb_spec k k'); by case_decide.
    + destruct (String.eqb_spec k0 k'); [|done].
      case_decide; [congruence|done].
Qed.

Lemma obj_get_alter (f : V -> V) o k k' :
  obj_get (obj_alter f k o) k' = if decide (k = k') then f <$> obj_get o k' else obj_get o k'.
Proof.
  unfold obj_get. induction o as [|[k0 v0] o IH]; simpl.
  - by case_decide.
  - destruct (String.eqb_spec k0 k) as [->|Hne]; simpl.
    + destruct (String.eqb_spec k k'); by case_decide.
    + destruct (String.eqb_spec k0 k'); [|done].
      case_decide; [congruence|done].
Qed.

Lemma obj_keys_alter (f : V -> V) o k : map fst (obj_alter f k o) = map fst o.
Proof.
  induction o as [|[k0 v0] o IH]; simpl; [done|].
  destruct (String.eqb_spec k0 k); simpl; congruence.
Qed.

Lemma obj_get_is_Some o k : is_Some (obj_get o k) <-> k ∈ map fst o.
Proof.
  unfold obj_get. induction o as [|[k0 v0] o IH]; simpl.
  - split; [by intros [? ?]|by intros ?%elem_of_nil].
  - destruct (String.eqb_spec k0 k) as [->|Hne]; simpl.
    + split; [intros _; left|by eexists].
    + rewrite IH, elem_of_cons. split; [tauto|]. intros [?|?]; [congruence|done].
Qed.

Lemma obj_get_None o k : obj_get o k = None <-> k ∉ map fst o.
Proof. rewrite <- obj_get_is_Some, eq_None_not_Some. done. Qed.

Lemma obj_keys_set_elem o k v x :
  x ∈ map fst (obj_set o k v) <-> x = k \/ x ∈ map fst o.
Proof.
  induction o as [|[k0 v0] o IH]; simpl.
  - rewrite list_elem_of_singleton. rewrite elem_of_nil. naive_solver.
  - destruct (String.eqb_spec k0 k) as [->|Hne]; simpl;
      rewrite !elem_of_cons; [naive_solver|]. rewrite IH. naive_solver.
Qed.

Lemma obj_keys_set_NoDup o k v :
  NoDup (map fst o) -> NoDup (map fst (obj_set o k v)).
Proof.
  induction o as [|[k0 v0] o IH]; simpl.
  - intros _. apply NoDup_singleton.
  - rewrite NoDup_cons. intros [Hk0 Hnd].
    destruct (String.eqb_spec k0 k) as [->|Hne]; simpl.
    + by apply NoDup_cons.
    + apply NoDup_cons. split; [|by apply IH].
      rewrite obj_keys_set_elem. naive_solver.
Qed.

End ObjectLemmas.

(** [Object.keys] enumerates exactly the own keys, each once. *)
Lemma objectKeys_Permutation {V} (o : list (string * V)) :
  objectKeys o ≡ₚ map fst o.
Proof.
  unfold objectKeys. generalize (map fst o) as keys. clear o.
  intros keys. rewrite merge_sort_Permutation.
  induction keys as [|k keys IH]; simpl; [done|].
  unfold indexedKey at 1. destruct (arrayIndex k) as [n|]; simpl.
  - by rewrite IH.
  - rewrite <- Permutation_middle. by rewrite IH.
Qed.

(** *** The dependency graph of a question list *)

Lemma dependencies_alter_dependsOn graph x d k :
  dependencies (obj_alter (pushDependsOn x) d graph) k = dependencies graph k.
Proof.
  unfold dependencies. rewrite obj_get_alter.
  case_decide; [|done]. by destruct (obj_get graph k).
Qed.

Lemma dependencies_alter_dependentBy graph d ck k :
  dependencies (obj_alter (pushDependentBy d) ck graph) k
  = dependencies graph k ++ (if decide (ck = k /\ k ∈ map fst graph) then [d] else []).
Proof.
  unfold dependencies. rewrite obj_get_alter.
  destruct (obj_get graph k) as [n|] eqn:Hget.
  - assert (k ∈ map fst graph) by (apply obj_get_is_Some; eauto).
    repeat case_decide; simpl; try naive_solver. by rewrite app_nil_r.
  - apply obj_get_None in Hget.
    repeat case_decide; simpl; naive_solver.
Qed.

Lemma addDependency_keys d graph c :
  map fst (addDependency d graph c) = map fst graph.
Proof.
  unfold addDependency. destruct (obj_get graph (c_questionKey c)); [|done].
  by rewrite !obj_keys_alter.
Qed.

Lemma addDependency_dependencies d graph c k :
  k ∈ map fst graph ->
  dependencies (addDependency d graph c) k
  = dependencies graph k ++ (if decide (c_questionKey c = k) then [d] else []).
Proof.
  intros Hk. unfold addDependency.
  destruct (obj_get graph (c_questionKey c)) as [n|] eqn:Hget.
  - rewrite dependencies_alter_dependsOn, dependencies_alter_dependentBy.
    repeat case_decide; naive_solver.
  - apply obj_get_None in Hget.
    case_decide; [naive_solver|]. by rewrite app_nil_r.
Qed.

Lemma addDependencies_keys d cs graph :
  map fst (fold_left (addDependency d) cs graph) = map fst graph.
Proof.
  revert graph. induction cs as [|c cs IH]; intros graph; simpl; [done|].
  by rewrite IH, addDependency_keys.
Qed.

Lemma addDependencies_dependencies d cs graph k :
  k ∈ map fst graph ->
  dependencies (fold_left (addDependency d) cs graph) k
  = dependencies graph k ++ map (fun _ => d) (filter (fun c => c_questionKey c = k) cs).
Proof.
  revert graph. induction cs as [|c cs IH]; intros graph Hk; simpl.
  - by rewrite app_nil_r.
  - rewrite IH by (by rewrite addDependency_keys).
    rewrite addDependency_dependencies by done.
    rewrite filter_cons. rewrite <- app_assoc. f_equal.
    by case_decide.
Qed.

Lemma addQuestions_keys qs graph :
  map fst (fold_left (fun graph question =>
                        fold_left (addDependency (questionKey question))
                                  (conditionsOf question) graph) qs graph)
  = map fst graph.
Proof.
  revert graph. induction qs as [|q qs IH]; intros graph; simpl; [done|].
  by rewrite IH, addDependencies_keys.
Qed.

Lemma addQuestions_dependencies qs graph k :
  k ∈ map fst graph ->
  dependencies (fold_left (fun graph question =>
                             fold_left (addDependency (questionKey question))
                                       (conditionsOf question) graph) qs graph) k
  = dependencies graph k ++ dependentsOf qs k.
Proof.
  revert graph. induction qs as [|q qs IH]; intros graph Hk; simpl.
  - by rewrite app_nil_r.
  - rewrite IH by (by rewrite addDependencies_keys).
    rewrite addDependencies_dependencies by done.
    by rewrite <- app_assoc.
Qed.

Lemma initGraph_spec qs graph :
  let graph0 := fold_left (fun graph question =>
                  obj_set graph (questionKey question) {| dependsOn := []; dependentBy := [] |})
                  qs graph in
  (NoDup (map fst graph) -> NoDup (map fst graph0))
  /\ (forall k, k ∈ map fst graph0 <-> k ∈ map fst graph \/ k ∈ map questionKey qs)
  /\ (forall k, k ∈ map questionKey qs -> dependencies graph0 k = []).
Proof.
  revert graph. induction qs as [|q qs IH]; intros graph; simpl.
  - split; [done|]. split; [|by intros k ?%elem_of_nil].
    intros k. rewrite elem_of_nil. naive_solver.
  - destruct (IH (obj_set graph (questionKey q) {| dependsOn := []; dependentBy := [] |}))
      as (Hnd & Hkeys & Hdeps).
    split; [|split].
    + intros Hg. by apply Hnd, obj_keys_set_NoDup.
    + intros k. rewrite Hkeys, obj_keys_set_elem, elem_of_cons. naive_solver.
    + intros k Hk. destruct (decide (k ∈ map questionKey qs)) as [Hin|Hnin];
        [by apply Hdeps|].
      apply elem_of_cons in Hk as [->|Hk]; [|done].
      clear -Hnin. generalize (obj_get_set graph (questionKey q)
        {| dependsOn := []; dependentBy := [] |} (questionKey q)).
      generalize (obj_set graph (questionKey q) {| dependsOn := []; dependentBy := [] |}).
      intros g Hg. rewrite decide_True in Hg by done.
      revert g Hg. induction qs as [|q' qs IH]; intros g Hg; simpl.
      * unfold dependencies. by rewrite Hg.
      * apply not_elem_of_cons in Hnin as [Hne Hnin].
        apply IH; [done|]. rewrite obj_get_set. by rewrite decide_False.
Qed.

Lemma createDependencyGraph_keys qs k :
  k ∈ map fst (createDependencyGraph qs) <-> k ∈ map questionKey qs.
Proof.
  unfold createDependencyGraph. rewrite addQuestions_keys.
  destruct (initGraph_spec qs []) as (_ & Hkeys & _). simpl in Hkeys.
  rewrite Hkeys. rewrite elem_of_nil. naive_solver.
Qed.

Lemma createDependencyGraph_NoDup qs : NoDup (map fst (createDependencyGraph qs)).
Proof.
  unfold createDependencyGraph. rewrite addQuestions_keys.
  destruct (initGraph_spec qs []) as (Hnd & _ & _). apply Hnd. constructor.
Qed.

Lemma createDependencyGraph_dependencies qs k :
  dependencies (createDependencyGraph qs) k
  = if decide (k ∈ map questionKey qs) then dependentsOf qs k else [].
Proof.
  case_decide as Hk.
  - unfold createDependencyGraph.
    destruct (initGraph_spec qs []) as (_ & Hkeys & Hdeps). simpl in *.
    rewrite addQuestions_dependencies by (apply Hkeys; by right).
    by rewrite Hdeps.
  - rewrite <- createDependencyGraph_keys in Hk. apply obj_get_None in Hk.
    unfold dependencies. by rewrite Hk.
Qed.

Lemma elem_of_dependentsOf qs k d :
  d ∈ dependentsOf qs k
  <-> exists q, q ∈ qs /\ questionKey q = d
                /\ exists c, c ∈ conditionsOf q /\ c_questionKey c = k.
Proof.
  unfold dependentsOf. rewrite list_elem_of_In, in_flat_map. split.
  - intros (q & Hq & Hin). apply list_elem_of_In in Hq.
    apply list_elem_of_In, list_elem_of_fmap in Hin as (c & -> & Hc).
    apply list_elem_of_filter in Hc as [Hck Hc]. naive_solver.
  - intros (q & Hq & <- & c & Hc & Hck). exists q.
    split; [by apply list_elem_of_In|].
    apply list_elem_of_In, list_elem_of_fmap. exists c. split; [done|].
    by apply list_elem_of_filter.
Qed.

(** *** The traversal: frame properties *)

Section Traversal.
Variable graph : list (string * GraphNode).

Lemma dfs_frame :
  (forall node path st st', Dfs graph node path st st' ->
     recursionStack st ⊆ visited st ->
     visited st ∪ {[node]} ⊆ visited st'
     /\ recursionStack st' = recursionStack st ∖ {[node]}
     /\ recursionStack st' ⊆ visited st'
     /\ exists new, cycles st' = cycles st ++ new)
  /\ (forall path deps st st', DfsEach graph path deps st st' ->
     recursionStack st ⊆ visited st ->
     visited st ⊆ visited st'
     /\ (forall d, d ∈ deps -> d ∈ visited st')
     /\ recursionStack st' = recursionStack st
     /\ exists new, cycles st' = cycles st ++ new).
Proof.
  apply Dfs_DfsEach_min.
  - intros node path st st1 Hnew _ IH Hsub.
    destruct IH as (Hv & _ & Hs & new & Hc); [simpl; set_solver|].
    simpl in *. rewrite Hs. repeat split; [set_solver..|by exists new].
  - intros node path st Hseen Hsub. simpl.
    repeat split; [set_solver..|exists []; by rewrite app_nil_r].
  - intros path st Hsub. repeat split; [set_solver..|exists []; by rewrite app_nil_r].
  - intros path dep deps st st1 st2 Hnew _ IH1 _ IH2 Hsub.
    destruct (IH1 Hsub) as (Hv1 & Hs1 & Hsub1 & new1 & Hc1).
    destruct (IH2 Hsub1) as (Hv2 & Hd2 & Hs2 & new2 & Hc2).
    repeat split.
    + set_solver.
    + intros d [->|Hd]%elem_of_cons; [set_solver|by apply Hd2].
    + rewrite Hs2, Hs1. set_solver.
    + exists (new1 ++ new2). by rewrite Hc2, Hc1, app_assoc.
  - intros path dep deps st st2 Hseen Hstack _ IH Hsub.
    destruct (IH Hsub) as (Hv & Hd & Hs & new & Hc). simpl in *.
    repeat split; [done| |done|].
    + intros d [->|Hin]%elem_of_cons; [set_solver|by apply Hd].
    + exists ((path ++ [dep]) :: new). by rewrite Hc, <- app_assoc.
  - intros path dep deps st st2 Hseen Hstack _ IH Hsub.
    destruct (IH Hsub) as (Hv & Hd & Hs & new & Hc).
    repeat split; [done| |done|by exists new].
    intros d [->|Hin]%elem_of_cons; [set_solver|by apply Hd].
Qed.

End Traversal.

(** *** The fuelled function and the big-step relation agree *)

Section Adequacy.
Variable graph : list (string * GraphNode).

Lemma forEachM_DfsEach (recur : string -> list string -> DfsState -> option DfsState) path :
  (forall node path st st', recur node path st = Some st' -> Dfs graph node path st st') ->
  forall deps st st',
    forEachM (dfsVisitDep recur path) deps st = Some st' -> DfsEach graph path deps st st'.
Proof.
  intros Hrec. induction deps as [|dep deps IH]; intros st st' Hrun; simpl in Hrun.
  - inversion Hrun. constructor.
  - unfold dfsVisitDep at 1 in Hrun.
    destruct (decide (dep ∈ visited st)) as [Hseen|Hnew].
    + destruct (decide (dep ∈ recursionStack st)) as [Hstack|Hoff].
      * apply Each_cycle; [done..|]. by apply IH.
      * apply Each_skip; [done..|]. by apply IH.
    + destruct (recur dep (path ++ [dep]) st) as [st1|] eqn:Hcall; [|done].
      eapply Each_descend; [done| |by apply IH]. by apply Hrec.
Qed.

Lemma dfs_Dfs fuel :
  forall node path st st',
    dfs fuel graph node path st = Some st' -> Dfs graph node path st st'.
Proof.
  induction fuel as [|fuel IH]; intros node path st st' Hrun; simpl in Hrun; [done|].
  destruct (decide (node ∈ visited st)) as [Hseen|Hnew]; simpl in Hrun.
  - inversion Hrun. by constructor.
  - destruct (forEachM _ _ _) as [st1|] eqn:Hloop; simpl in Hrun; [|done].
    inversion Hrun. constructor; [done|].
    by eapply forEachM_DfsEach.
Qed.

Lemma dfs_within_keys :
  closedGraph graph ->
  (forall node path st st', Dfs graph node path st st' ->
     node ∈ keySet graph -> visited st ⊆ keySet graph -> visited st' ⊆ keySet graph)
  /\ (forall path deps st st', DfsEach graph path deps st st' ->
     (forall d, d ∈ deps -> d ∈ keySet graph) ->
     visited st ⊆ keySet graph -> visited st' ⊆ keySet graph).
Proof.
  intros Hclosed. apply Dfs_DfsEach_min.
  - intros node path st st1 Hnew _ IH Hnode Hsub. simpl. apply IH.
    + intros d Hd. by eapply Hclosed.
    + simpl. set_solver.
  - done.
  - done.
  - intros path dep deps st st1 st2 Hnew _ IH1 _ IH2 Hdeps Hsub.
    apply IH2; [intros d Hd; apply Hdeps; by right|].
    apply IH1; [apply Hdeps; by left|done].
  - intros path dep deps st st2 _ _ _ IH Hdeps Hsub.
    apply IH; [intros d Hd; apply Hdeps; by right|done].
  - intros path dep deps st st2 _ _ _ IH Hdeps Hsub.
    apply IH; [intros d Hd; apply Hdeps; by right|done].
Qed.

(** Enough fuel: one unit per key not yet visited, plus one. *)
Lemma dfs_total (Hclosed : closedGraph graph) fuel :
  forall node path st,
    node ∈ keySet graph ->
    recursionStack st ⊆ visited st ->
    size (keySet graph ∖ visited st) < fuel ->
    is_Some (dfs fuel graph node path st).
Proof.
  induction fuel as [|fuel IH]; intros node path st Hnode Hsub Hfuel; [lia|].
  simpl. destruct (decide (node ∈ visited st)) as [Hseen|Hnew]; simpl; [by eexists|].
  assert (Hloop : forall deps st0,
    (forall d, d ∈ deps -> d ∈ keySet graph) ->
    recursionStack st0 ⊆ visited st0 ->
    size (keySet graph ∖ visited st0) < fuel ->
    is_Some (forEachM (dfsVisitDep (dfs fuel graph) (path)) deps st0)).
  { clear -IH. induction deps as [|dep deps IHdeps]; intros st0 Hdeps Hsub Hfuel; simpl.
    - by eexists.
    - unfold dfsVisitDep at 1.
      destruct (decide (dep ∈ visited st0)) as [Hseen|Hnew].
      + destruct (decide (dep ∈ recursionStack st0));
          (apply IHdeps; [intros d Hd; apply Hdeps; by right|done..]).
      + destruct (IH dep (path ++ [dep]) st0) as [st1 Hcall];
          [apply Hdeps; by left|done..|].
        rewrite Hcall. apply dfs_Dfs in Hcall.
        destruct (proj1 (dfs_frame graph) _ _ _ _ Hcall Hsub) as (Hv & _ & Hsub1 & _).
        apply IHdeps; [intros d Hd; apply Hdeps; by right|done|].
        eapply Nat.le_lt_trans; [|exact Hfuel].
        apply subseteq_size. set_solver. }
  destruct (Hloop (dependencies graph node) (enterNode node st)) as [st1 Hst1].
  - intros d Hd. by eapply Hclosed.
  - simpl. set_solver.
  - simpl. assert (size (keySet graph ∖ ({[node]} ∪ visited st))
                   < size (keySet graph ∖ visited st)); [|lia].
    apply subset_size. set_solver.
  - rewrite Hst1. by eexists.
Qed.

End Adequacy.

(** *** What the traversal records *)

Section Recorded.
Variable graph : list (string * GraphNode).

Local Abbreviation finished st n := (n ∈ visited st /\ n ∉ recursionStack st).

(** Every entry pushed to [cycles] closes a cycle: the nodes on the recursion
    stack lie on the current path and reach the current node. *)
Lemma dfs_sound :
  (forall node path st st', Dfs graph node path st st' ->
     node ∉ visited st ->
     recursionStack st ⊆ visited st ->
     (forall s, s ∈ recursionStack st -> s ∈ path /\ rtc (edge graph) s node) ->
     node ∈ path ->
     Forall (closesCycle graph) (cycles st) -> Forall (closesCycle graph) (cycles st'))
  /\ (forall path deps st st', DfsEach graph path deps st st' ->
     forall node,
     (forall d, d ∈ deps -> edge graph node d) ->
     recursionStack st ⊆ visited st ->
     (forall s, s ∈ recursionStack st -> s ∈ path /\ rtc (edge graph) s node) ->
     Forall (closesCycle graph) (cycles st) -> Forall (closesCycle graph) (cycles st')).
Proof.
  apply Dfs_DfsEach_min.
  - intros node path st st1 Hnew _ IH _ Hsub Hstack Hpath Hgood. simpl.
    apply (IH node); simpl; [done|set_solver| |done].
    intros s [->%elem_of_singleton|Hs]%elem_of_union; [done|by apply Hstack].
  - intros node path st Hseen Hnew. done.
  - done.
  - intros path dep deps st st1 st2 Hnew Hcall IH1 _ IH2 node Hdeps Hsub Hstack Hgood.
    destruct (proj1 (dfs_frame graph) _ _ _ _ Hcall Hsub) as (Hv & Hs & Hsub1 & _).
    apply (IH2 node); [intros d Hd; apply Hdeps; by right|done| |].
    + intros s Hs1. rewrite Hs in Hs1. apply Hstack. set_solver.
    + apply IH1; [done..| |set_solver|done].
      intros s Hs0. destruct (Hstack s Hs0) as [Hin Hreach]. split; [set_solver|].
      eapply rtc_r; [done|]. apply Hdeps. by left.
  - intros path dep deps st st2 Hseen Hon _ IH node Hdeps Hsub Hstack Hgood.
    apply (IH node); [intros d Hd; apply Hdeps; by right|done..|].
    simpl. apply Forall_app. split; [done|]. apply Forall_singleton.
    destruct (Hstack dep Hon) as [Hin Hreach].
    exists path, dep. split; [done|]. split; [done|].
    eapply tc_rtc_l; [done|]. apply tc_once, Hdeps. by left.
  - intros path dep deps st st2 Hseen Hoff _ IH node Hdeps Hsub Hstack Hgood.
    apply (IH node); [intros d Hd; apply Hdeps; by right|done..].
Qed.

Lemma finished_closed_tc (st : DfsState) :
  (forall n d, finished st n -> edge graph n d -> finished st d) ->
  forall n m, tc (edge graph) n m -> finished st n -> finished st m.
Proof.
  intros Hclosed n m Htc. induction Htc as [n m Hnm|n d m Hnd _ IH]; intros Hn.
  - by eapply Hclosed.
  - apply IH. by eapply Hclosed.
Qed.

Lemma dfs_complete :
  (forall node path st st', Dfs graph node path st st' ->
     node ∉ visited st ->
     recursionStack st ⊆ visited st ->
     noCycleSoFar graph st -> noCycleSoFar graph st')
  /\ (forall path deps st st', DfsEach graph path deps st st' ->
     recursionStack st ⊆ visited st ->
     noCycleSoFar graph st ->
     noCycleSoFar graph st'
     /\ (cycles st' = [] -> forall d, d ∈ deps -> finished st' d)).
Proof.
  apply Dfs_DfsEach_min.
  - intros node path st st1 Hnew Hloop IH _ Hsub Hinv.
    assert (Hsub0 : recursionStack (enterNode node st) ⊆ visited (enterNode node st))
      by (simpl; set_solver).
    destruct (proj2 (dfs_frame graph) _ _ _ _ Hloop Hsub0) as (Hv & _ & Hs & new & Hc).
    destruct IH as [Hinv1 Hdeps]; [done| |].
    { intros Hnil. destruct (Hinv Hnil) as [Hcl Hac]. simpl. split.
      - intros n d [Hn Hns] Hnd.
        assert (finished st n) as Hfin by set_solver.
        destruct (Hcl n d Hfin Hnd). set_solver.
      - intros n [Hn Hns]. apply Hac. set_solver. }
    intros Hnil. simpl in Hnil. destruct (Hinv1 Hnil) as [Hcl Hac].
    specialize (Hdeps Hnil). simpl in *.
    assert (Hfin : forall n, finished (leaveNode node st1) n -> n = node \/ finished st1 n).
    { intros n [Hn Hns]. simpl in *. destruct (decide (n = node)); [by left|right].
      split; [done|]. set_solver. }
    assert (Hmono : forall n, finished st1 n -> finished (leaveNode node st1) n).
    { intros n [Hn Hns]. simpl. split; [done|]. set_solver. }
    assert (Hnode : ~ finished st1 node).
    { intros [_ Hns]. apply Hns. rewrite Hs. set_solver. }
    split.
    + intros n d Hn Hnd. apply Hmono.
      destruct (Hfin n Hn) as [->|Hn1]; [by apply Hdeps|by eapply Hcl].
    + intros n Hn Hcyc. destruct (Hfin n Hn) as [->|Hn1]; [|by eapply Hac].
      inversion Hcyc as [? ? Hstep|? d ? Hstep Hrest]; subst.
      * apply Hnode. by apply Hdeps.
      * apply Hnode. eapply finished_closed_tc; [exact Hcl|exact Hrest|].
        by apply Hdeps.
  - intros node path st Hseen Hnew. done.
  - intros path st Hsub Hinv. split; [done|]. by intros _ d ?%elem_of_nil.
  - intros path dep deps st st1 st2 Hnew Hcall IH1 Hloop IH2 Hsub Hinv.
    destruct (proj1 (dfs_frame graph) _ _ _ _ Hcall Hsub) as (Hv1 & Hs1 & Hsub1 & _).
    destruct (proj2 (dfs_frame graph) _ _ _ _ Hloop Hsub1) as (Hv2 & _ & Hs2 & _).
    destruct (IH2 Hsub1 (IH1 Hnew Hsub Hinv)) as [Hinv2 Hdeps].
    split; [done|]. intros Hnil d [->|Hd]%elem_of_cons; [|by apply Hdeps].
    split; [set_solver|]. rewrite Hs2, Hs1. set_solver.
  - intros path dep deps st st2 Hseen Hon Hloop IH Hsub Hinv.
    assert (Hsub0 : recursionStack (pushCycle (path ++ [dep]) st)
                    ⊆ visited (pushCycle (path ++ [dep]) st)) by done.
    destruct (proj2 (dfs_frame graph) _ _ _ _ Hloop Hsub0) as (_ & _ & _ & new & Hc).
    assert (Hne : cycles st2 <> []).
    { rewrite Hc. simpl. intros Heq. apply app_eq_nil in Heq as [Heq _].
      by apply app_eq_nil in Heq as [_ ?]. }
    split; [by intros ?|by intros ?].
  - intros path dep deps st st2 Hseen Hoff Hloop IH Hsub Hinv.
    destruct (proj2 (dfs_frame graph) _ _ _ _ Hloop Hsub) as (Hv2 & _ & Hs2 & _).
    destruct (IH Hsub Hinv) as [Hinv2 Hdeps].
    split; [done|]. intros Hnil d [->|Hd]%elem_of_cons; [|by apply Hdeps].
    split; [set_solver|]. by rewrite Hs2.
Qed.

End Recorded.

(** *** Mutual dependencies and the visit log *)

Section Pairs.
Variable graph : list (string * GraphNode).

Local Abbreviation finished st n := (n ∈ visited st /\ n ∉ recursionStack st).

Lemma recordedWith_mono st st' a b :
  (exists new, cycles st' = cycles st ++ new) ->
  recordedWith st a b -> recordedWith st' a b.
Proof.
  intros [new Hc] (entry & Hin & Ha & Hb). exists entry. rewrite Hc. set_solver.
Qed.

(** An edge from a node visited during a call back to a node on the stack is
    recorded, in an entry holding both ends. *)
Lemma dfs_back_edges :
  (forall node path st st', Dfs graph node path st st' ->
     node ∉ visited st ->
     recursionStack st ⊆ visited st ->
     last path = Some node ->
     forall n d, n ∈ visited st' -> n ∉ visited st -> edge graph n d ->
       d ∈ recursionStack st \/ d = node -> recordedWith st' n d)
  /\ (forall path deps st st', DfsEach graph path deps st st' ->
     recursionStack st ⊆ visited st ->
     forall node, last path = Some node ->
     (forall d, d ∈ deps -> d ∈ recursionStack st -> recordedWith st' node d)
     /\ (forall n d, n ∈ visited st' -> n ∉ visited st -> edge graph n d ->
           d ∈ recursionStack st -> recordedWith st' n d)).
Proof.
  apply Dfs_DfsEach_min.
  - intros node path st st1 Hnew Hloop IH _ Hsub Hlast n d Hn Hnn Hnd Hd.
    assert (Hsub0 : recursionStack (enterNode node st) ⊆ visited (enterNode node st))
      by (simpl; set_solver).
    destruct (IH Hsub0 node Hlast) as [Hdeps Hnested]. simpl in *.
    assert (Hd' : d ∈ {[node]} ∪ recursionStack st) by set_solver.
    destruct (decide (n = node)) as [->|Hne].
    + destruct (Hdeps d Hnd Hd') as (entry & ? & ? & ?). by exists entry.
    + destruct (Hnested n d) as (entry & ? & ? & ?); [done|set_solver|done..|].
      by exists entry.
  - intros node path st Hseen Hnew. done.
  - intros path st Hsub node Hlast. split; [by intros d ?%elem_of_nil|done].
  - intros path dep deps st st1 st2 Hnew Hcall IH1 Hloop IH2 Hsub node Hlast.
    destruct (proj1 (dfs_frame graph) _ _ _ _ Hcall Hsub) as (Hv1 & Hs1 & Hsub1 & Hc1).
    destruct (proj2 (dfs_frame graph) _ _ _ _ Hloop Hsub1) as (Hv2 & _ & Hs2 & Hc2).
    assert (Hstack : recursionStack st1 = recursionStack st) by (rewrite Hs1; set_solver).
    destruct (IH2 Hsub1 node Hlast) as [Hdeps Hnested].
    rewrite Hstack in Hdeps, Hnested. split.
    + intros d [->|Hd]%elem_of_cons Hon; [set_solver|by apply Hdeps].
    + intros n d Hn Hnn Hnd Hon.
      destruct (decide (n ∈ visited st1)) as [Hn1|Hn1]; [|by apply Hnested].
      eapply recordedWith_mono; [exact Hc2|].
      apply (IH1 Hnew Hsub (last_snoc _ _) n d); [done..|by left].
  - intros path dep deps st st2 Hseen Hon Hloop IH Hsub node Hlast.
    assert (Hsub0 : recursionStack (pushCycle (path ++ [dep]) st)
                    ⊆ visited (pushCycle (path ++ [dep]) st)) by done.
    destruct (proj2 (dfs_frame graph) _ _ _ _ Hloop Hsub0) as (_ & _ & _ & new & Hc).
    destruct (IH Hsub0 node Hlast) as [Hdeps Hnested]. simpl in *. split; [|done].
    intros d [->|Hd]%elem_of_cons Hond; [|by apply Hdeps].
    exists (path ++ [dep]). rewrite Hc. split; [set_solver|].
    split; [|set_solver]. apply elem_of_app. left.
    apply last_Some in Hlast as [pre ->]. set_solver.
  - intros path dep deps st st2 Hseen Hoff Hloop IH Hsub node Hlast.
    destruct (IH Hsub node Hlast) as [Hdeps Hnested]. split; [|done].
    intros d [->|Hd]%elem_of_cons Hond; [done|by apply Hdeps].
Qed.

Lemma dfs_pairs :
  (forall node path st st', Dfs graph node path st st' ->
     node ∉ visited st ->
     recursionStack st ⊆ visited st ->
     last path = Some node ->
     pairsRecorded graph st -> pairsRecorded graph st')
  /\ (forall path deps st st', DfsEach graph path deps st st' ->
     recursionStack st ⊆ visited st ->
     forall node, last path = Some node ->
     pairsRecorded graph st -> pairsRecorded graph st').
Proof.
  apply Dfs_DfsEach_min.
  - intros node path st st1 Hnew Hloop IH Hnew' Hsub Hlast Hinv.
    assert (Hcall : Dfs graph node path st (leaveNode node st1)) by by constructor.
    pose proof (proj1 dfs_back_edges _ _ _ _ Hcall Hnew Hsub Hlast) as Hback.
    assert (Hsub0 : recursionStack (enterNode node st) ⊆ visited (enterNode node st))
      by (simpl; set_solver).
    destruct (proj2 (dfs_frame graph) _ _ _ _ Hloop Hsub0) as (Hv & Hdeps & Hs & Hc).
    destruct (IH Hsub0 node Hlast) as [Hcl1 Hpair1].
    { destruct Hinv as [Hcl Hpair]. split.
      - intros n d [Hn Hns] Hnd. simpl in *.
        assert (d ∈ visited st); [|set_solver]. apply (Hcl n); [set_solver|done].
      - intros a b [Ha Has] [Hb Hbs] Hab Hba. simpl in *.
        destruct (Hpair a b) as (entry & ? & ? & ?); [set_solver..|done|done|].
        by exists entry. }
    simpl in *.
    assert (Hfin : forall n, finished (leaveNode node st1) n -> n = node \/ finished st1 n).
    { intros n [Hn Hns]. simpl in *. destruct (decide (n = node)); [by left|right].
      split; [done|]. set_solver. }
    assert (Hold : forall b, finished st1 b -> edge graph b node -> b ∉ visited st).
    { intros b [Hb Hbs] Hbn Hbv. destruct Hinv as [Hcl _].
      apply Hnew, (Hcl b); [|done]. split; [done|]. set_solver. }
    split.
    + intros n d Hn Hnd. simpl.
      destruct (Hfin n Hn) as [->|Hn1]; [by apply Hdeps|by eapply Hcl1].
    + intros a b Ha Hb Hab Hba.
      destruct (Hfin a Ha) as [->|Ha1], (Hfin b Hb) as [->|Hb1].
      * apply Hback; [simpl; set_solver|done|done|by right].
      * destruct (Hback b node) as (entry & ? & ? & ?);
          [by destruct Hb1|by apply Hold|done|by right|]. by exists entry.
      * apply Hback; [by destruct Ha1|by apply Hold|done|by right].
      * destruct (Hpair1 a b) as (entry & ? & ? & ?); [done..|]. by exists entry.
  - intros node path st Hseen Hnew. done.
  - done.
  - intros path dep deps st st1 st2 Hnew Hcall IH1 Hloop IH2 Hsub node Hlast Hinv.
    destruct (proj1 (dfs_frame graph) _ _ _ _ Hcall Hsub) as (_ & _ & Hsub1 & _).
    apply (IH2 Hsub1 node Hlast). apply IH1; [done..|apply last_snoc|done].
  - intros path dep deps st st2 Hseen Hon Hloop IH Hsub node Hlast Hinv.
    apply (IH Hsub node Hlast). destruct Hinv as [Hcl Hpair]. split; [done|].
    intros a b Ha Hb Hab Hba. destruct (Hpair a b) as (entry & ? & ? & ?); [done..|].
    exists entry. simpl. set_solver.
  - intros path dep deps st st2 Hseen Hoff Hloop IH Hsub node Hlast Hinv.
    by apply (IH Hsub node Hlast).
Qed.

Lemma dfs_log :
  (forall node path st st', Dfs graph node path st st' ->
     node ∉ visited st -> logExact st -> logExact st')
  /\ (forall path deps st st', DfsEach graph path deps st st' ->
     logExact st -> logExact st').
Proof.
  apply Dfs_DfsEach_min; try done.
  - intros node path st st1 Hnew _ IH _ [Hnd Hlog]. apply IH. simpl. split.
    + apply NoDup_app. split; [done|]. split; [|apply NoDup_singleton].
      intros x Hx ->%list_elem_of_singleton. by apply Hnew, Hlog.
    + intros n. simpl. rewrite elem_of_app, list_elem_of_singleton, Hlog. set_solver.
  - intros path dep deps st st1 st2 Hnew _ IH1 _ IH2 Hinv. by apply IH2, IH1.
Qed.

End Pairs.

(** *** The top-level loop over [Object.keys(graph)] *)

Lemma tc_flip {A} (R : relation A) x y : tc R x y -> tc (flip R) y x.
Proof.
  induction 1 as [x y Hxy|x y z Hxy _ IH]; [by apply tc_once|].
  eapply tc_r; [exact IH|done].
Qed.

Lemma tc_iff {A} (R R' : relation A) x y :
  (forall a b, R a b -> R' a b) -> tc R x y -> tc R' x y.
Proof.
  intros Hsub. induction 1 as [x y Hxy|x y z Hxy _ IH]; [by apply tc_once, Hsub|].
  eapply tc_l; [by apply Hsub|done].
Qed.

Section Roots.
Variable graph : list (string * GraphNode).
Hypothesis Hclosed : closedGraph graph.

Lemma rootsInv_init : rootsInv graph dfsInit.
Proof.
  split; simpl; try done.
  - intros _. split; intros n; [intros d [Hn _]|intros [Hn _]]; set_solver.
  - split; [intros n d [Hn _]|intros a b [Ha _]]; set_solver.
  - split; [constructor|]. intros n. simpl. set_solver.
Qed.

Lemma rootsInv_step node st st' :
  Dfs graph node [node] st st' ->
  node ∈ keySet graph -> node ∉ visited st ->
  rootsInv graph st -> rootsInv graph st' /\ visited st ∪ {[node]} ⊆ visited st'.
Proof.
  intros Hcall Hkey Hnew [Hs Hk Hsd Hcp Hpr Hlg].
  assert (Hsub : recursionStack st ⊆ visited st) by (rewrite Hs; set_solver).
  destruct (proj1 (dfs_frame graph) _ _ _ _ Hcall Hsub) as (Hv & Hs' & _ & _).
  split; [|done]. split.
  - rewrite Hs', Hs. set_solver.
  - by apply (proj1 (dfs_within_keys graph Hclosed) _ _ _ _ Hcall).
  - apply (proj1 (dfs_sound graph) _ _ _ _ Hcall); [done..| |set_solver|done].
    intros s. rewrite Hs. set_solver.
  - by apply (proj1 (dfs_complete graph) _ _ _ _ Hcall).
  - by apply (proj1 (dfs_pairs graph) _ _ _ _ Hcall).
  - by apply (proj1 (dfs_log graph) _ _ _ _ Hcall).
Qed.

Lemma dfsRoots_spec fuel roots :
  size (keySet graph) < fuel ->
  forall st, (forall r, r ∈ roots -> r ∈ keySet graph) -> rootsInv graph st ->
  exists st', dfsRoots fuel graph roots st = Some st'
              /\ rootsInv graph st'
              /\ visited st ⊆ visited st'
              /\ (forall r, r ∈ roots -> r ∈ visited st').
Proof.
  intros Hfuel. unfold dfsRoots.
  induction roots as [|root roots IH]; intros st Hroots Hinv; simpl.
  - exists st. split_and!; [done..|]. by intros r ?%elem_of_nil.
  - destruct (decide (root ∈ visited st)) as [Hseen|Hnew].
    + destruct (IH st) as (st' & Hrun & Hinv' & Hv & Hr);
        [intros r Hr; apply Hroots; by right|done|].
      exists st'. split_and!; [done..|].
      intros r [->|Hin]%elem_of_cons; [set_solver|by apply Hr].
    + assert (Hkey : root ∈ keySet graph) by (apply Hroots; by left).
      destruct (dfs_total graph Hclosed fuel root [root] st) as [st1 Hcall]; [done|..].
      * rewrite (inv_stack _ _ Hinv). set_solver.
      * eapply Nat.le_lt_trans; [|exact Hfuel]. apply subseteq_size. set_solver.
      * rewrite Hcall.
        destruct (rootsInv_step root st st1) as [Hinv1 Hv1];
          [by apply (dfs_Dfs graph fuel)|done..|].
        destruct (IH st1) as (st' & Hrun & Hinv' & Hv & Hr);
          [intros r Hr; apply Hroots; by right|done|].
        exists st'. split_and!; [done..|set_solver|].
        intros r [->|Hin]%elem_of_cons; [set_solver|by apply Hr].
Qed.

End Roots.

Lemma createDependencyGraph_closed qs : closedGraph (createDependencyGraph qs).
Proof.
  intros n d. rewrite createDependencyGraph_dependencies.
  case_decide; [|by intros ?%elem_of_nil].
  intros (q & Hq & <- & _)%elem_of_dependentsOf.
  apply elem_of_list_to_set, createDependencyGraph_keys.
  apply list_elem_of_fmap. by exists q.
Qed.

Lemma edge_dependsOnQuestion qs a b :
  edge (createDependencyGraph qs) b a <-> dependsOnQuestion qs a b.
Proof.
  unfold edge, dependsOnQuestion. rewrite createDependencyGraph_dependencies.
  case_decide as Hb.
  - rewrite elem_of_dependentsOf. naive_solver.
  - rewrite elem_of_nil. naive_solver.
Qed.

Lemma cycle_edge_dependsOn qs k :
  tc (edge (createDependencyGraph qs)) k k <-> tc (dependsOnQuestion qs) k k.
Proof.
  split; intros Htc; apply tc_flip in Htc; revert Htc; apply tc_iff;
    intros a b; unfold flip; apply edge_dependsOnQuestion.
Qed.

(** The traversal of a question list runs to completion, and its final state
    satisfies every invariant above. *)
Lemma detectState_spec qs :
  exists st, detectState qs = Some st
             /\ rootsInv (createDependencyGraph qs) st
             /\ visited st = keySet (createDependencyGraph qs).
Proof.
  unfold detectState. set (graph := createDependencyGraph qs).
  destruct (dfsRoots_spec graph (createDependencyGraph_closed qs)
              (S (length graph)) (objectKeys graph)) with (st := dfsInit)
    as (st & Hrun & Hinv & _ & Hroots).
  - unfold keySet. rewrite size_list_to_set by apply createDependencyGraph_NoDup.
    rewrite length_map. lia.
  - intros r Hr. apply elem_of_list_to_set. by rewrite <- objectKeys_Permutation.
  - apply rootsInv_init; apply createDependencyGraph_closed.
  - exists st. split; [done|]. split; [done|].
    apply set_eq. intros k. split; [apply (inv_keys _ _ Hinv)|].
    intros Hk%elem_of_list_to_set. apply Hroots. by rewrite objectKeys_Permutation.
Qed.

(** *** Cycle detection *)

Example detect_mutual :
  detectCircularDependencies mutualForm
  = Some {| hasCycles := true; reportedCycles := [["Q1"; "Q2"; "Q1"]] |}.
Proof. vm_compute. reflexivity. Qed.

Example detect_chain :
  detectCircularDependencies chainForm
  = Some {| hasCycles := false; reportedCycles := [] |}.
Proof. vm_compute. reflexivity. Qed.

Example detect_diamond :
  detectCircularDependencies diamondForm
  = Some {| hasCycles := true; reportedCycles := [["A"; "B"; "D"; "A"]] |}.
Proof. vm_compute. reflexivity. Qed.

Lemma dependsOn_is_key qs a b : dependsOnQuestion qs a b -> a ∈ map questionKey qs.
Proof. intros (_ & q & Hq & <- & _). apply list_elem_of_fmap. by exists q. Qed.

Lemma tc_dependsOn_is_key qs a b : tc (dependsOnQuestion qs) a b -> a ∈ map questionKey qs.
Proof. intros [? ? Hab|? d ? Had _]; by eapply dependsOn_is_key. Qed.


Lemma mutualForm_depends :
  dependsOnQuestion mutualForm "Q1" "Q2" /\ dependsOnQuestion mutualForm "Q2" "Q1".
Proof.
  split.
  - split; [set_solver|]. exists (dependsOnKeys "Q1" ["Q2"]).
    split; [set_solver|]. split; [done|]. eexists. split; [apply list_elem_of_singleton|]; done.
  - split; [set_solver|]. exists (dependsOnKeys "Q2" ["Q1"]).
    split; [set_solver|]. split; [done|]. eexists. split; [apply list_elem_of_singleton|]; done.
Qed.


Lemma diamondForm_cycle : elementaryCycle diamondForm ["A"; "D"; "C"].
Proof.
  split.
  - apply (bool_decide_unpack _). vm_compute. reflexivity.
  - exists "A", ["D"; "C"]. split; [done|]. simpl. split_and!; [| | |done].
    + split; [set_solver|]. exists (dependsOnKeys "A" ["D"]).
      split; [set_solver|]. split; [done|]. eexists.
      split; [apply list_elem_of_singleton|]; done.
    + split; [set_solver|]. exists (dependsOnKeys "D" ["B"; "C"]).
      split; [set_solver|]. split; [done|].
      exists {| c_questionKey := "C"; c_operator := "equals"; c_value := JStr "yes" |}.
      split; [|done]. simpl. set_solver.
    + split; [set_solver|]. exists (dependsOnKeys "C" ["A"]).
      split; [set_solver|]. split; [done|]. eexists.
      split; [apply list_elem_of_singleton|]; done.
Qed.


(** *** Field mapping *)

Example checkbox_rejected :
  questionsGate [doneQuestion] [mapAirtableField checkboxColumn]
  = Some {| statusCode := 400; replySuccess := false;
            replyError := "Invalid questions configuration" |}.
Proof. vm_compute. reflexivity. Qed.

Lemma mappedTypeOf_outside (t : string) : t ∉ tableTypes -> mappedTypeOf t = None.
Proof.
  intros Hout. unfold mappedTypeOf, tableTypes in *.
  repeat match goal with
  | |- context [String.eqb t ?s] =>
      destruct (String.eqb_spec t s) as [->|?]; [exfalso; apply Hout; set_solver|]
  end.
  done.
Qed.

Lemma mappedTypeOf_inside (t : string) : t ∈ tableTypes -> is_Some (mappedTypeOf t).
Proof.
  unfold tableTypes. rewrite !elem_of_cons, elem_of_nil.
  intros H; repeat destruct H as [->|H]; try done; by eexists.
Qed.

(** The validator's table and the mapper's [switch] are the same function. *)
Lemma airtableTypeMap_mappedTypeOf (t : string) :
  obj_get airtableTypeMap t = mappedTypeOf t.
Proof.
  destruct (decide (t ∈ tableTypes)) as [Hin|Hout].
  - unfold tableTypes in Hin. rewrite !elem_of_cons, elem_of_nil in Hin.
    repeat destruct Hin as [->|Hin]; try reflexivity. done.
  - rewrite mappedTypeOf_outside by done. apply obj_get_None. exact Hout.
Qed.

Lemma validateEach_extends fields qs :
  forall index used errs,
    exists more, validateEach fields index qs used errs = errs ++ more.
Proof.
  induction qs as [|q qs IH]; intros index used errs; simpl.
  - exists []. by rewrite app_nil_r.
  - destruct (validateQuestion fields q used) as [es used'].
    destruct (IH (S index) used' (errs ++ map (fun e => (index, e)) es)) as [more ->].
    eexists. by rewrite <- app_assoc.
Qed.

Lemma validateEach_rejects fields qs q :
  q ∈ qs ->
  (forall used, fst (validateQuestion fields q used) <> []) ->
  forall index used errs, validateEach fields index qs used errs <> [].
Proof.
  intros Hq Hbad. induction qs as [|q' qs IH]; intros index used errs; simpl.
  - by apply elem_of_nil in Hq.
  - apply elem_of_cons in Hq as [<-|Hq].
    + specialize (Hbad used). destruct (validateQuestion fields q used) as [es used'].
      simpl in Hbad.
      destruct (validateEach_extends fields qs (S index) used'
                  (errs ++ map (fun e => (index, e)) es)) as [more ->].
      destruct es as [|e es]; [done|]. intros Heq.
      apply app_eq_nil in Heq as [Heq _]. apply app_eq_nil in Heq as [_ Heq]. done.
    + destruct (validateQuestion fields q' used) as [es used']. by apply IH.
Qed.

Lemma unsupported_field_error fields q f :
  findField fields q = Some f ->
  field_type f = None ->
  mappedTypeOf (airtableType f) = None ->
  forall used, fst (validateQuestion fields q used) <> [].
Proof.
  intros Hfind Htype Hmap used. unfold validateQuestion.
  destruct (checkQuestionKey q used) as [e1 used1].
  destruct (checkFieldId q used1) as [e2 used2]. simpl. intros Heq.
  apply app_eq_nil in Heq as [_ Heq]. apply app_eq_nil in Heq as [_ Heq].
  apply app_eq_nil in Heq as [_ Heq]. apply app_eq_nil in Heq as [Hty Heq].
  apply app_eq_nil in Heq as [_ Heq]. apply app_eq_nil in Heq as [Hfld _].
  unfold checkAgainstField in Hfld.
  rewrite Hfind, Htype, airtableTypeMap_mappedTypeOf, Hmap in Hfld.
  unfold checkType in Hty. by destruct (d_type q).
Qed.

(** C9. The mapper assigns the internal type of the fixed table to the eight
    listed external types and the [null] marker to every other type; the
    validator's own table is the same function; and a question list that uses a
    field of any other type is invalid, so that form creation answers 400. *)
Theorem field_type_mapping :
  (forall raw, field_type (mapAirtableField raw) = mappedTypeOf (af_type raw)
               /\ airtableType (mapAirtableField raw) = af_type raw)
  /\ (mappedTypeOf "singleLineText" = Some "shortText"
      /\ mappedTypeOf "email" = Some "shortText"
      /\ mappedTypeOf "url" = Some "shortText"
      /\ mappedTypeOf "multilineText" = Some "longText"
      /\ mappedTypeOf "richText" = Some "longText"
      /\ mappedTypeOf "singleSelect" = Some "singleSelect"
      /\ mappedTypeOf "multipleSelects" = Some "multiSelect"
      /\ mappedTypeOf "multipleAttachments" = Some "attachment")
  /\ (forall t, t ∉ tableTypes -> mappedTypeOf t = None)
  /\ (forall t, obj_get airtableTypeMap t = mappedTypeOf t)
  /\ (forall questions rawFields q raw,
        q ∈ questions ->
        findField (map mapAirtableField rawFields) q = Some (mapAirtableField raw) ->
        af_type raw ∉ tableTypes ->
        valid (validateQuestions questions (map mapAirtableField rawFields)) = false
        /\ exists reply,
             questionsGate questions (map mapAirtableField rawFields) = Some reply
             /\ statusCode reply = 400).
Proof.
  split_and!; try done.
  - apply mappedTypeOf_outside.
  - apply airtableTypeMap_mappedTypeOf.
  - intros questions rawFields q raw Hq Hfind Hout.
    assert (Hinvalid : valid (validateQuestions questions (map mapAirtableField rawFields))
                       = false).
    { unfold validateQuestions. simpl. apply Nat.eqb_neq. intros Hlen.
      apply nil_length_inv in Hlen. revert Hlen.
      apply (validateEach_rejects _ _ q Hq).
      apply (unsupported_field_error _ _ _ Hfind); simpl; by apply mappedTypeOf_outside. }
    split; [done|]. unfold questionsGate. rewrite Hinvalid. simpl. by eexists.
Qed.

Lemma field_type_mapping_witness :
  valid (validateQuestions [doneQuestion] (map mapAirtableField [checkboxColumn])) = false
  /\ exists reply,
       questionsGate [doneQuestion] (map mapAirtableField [checkboxColumn]) = Some reply
       /\ statusCode reply = 400.
Proof.
  apply (proj2 (proj2 (proj2 (proj2 field_type_mapping)))
           [doneQuestion] [checkboxColumn] doneQuestion checkboxColumn).
  - apply list_elem_of_singleton. reflexivity.
  - reflexivity.
  - apply (bool_decide_unpack _). vm_compute. reflexivity.
Defined.

(** *** Reasoning about the monad *)

Section MonadRules.
Context {A B : Type}.
Variable I : World -> Prop.

Lemma preserves_ret (a : A) : preserves I (ret a).
Proof. by intros w Hw. Qed.

Lemma preserves_throw msg : preserves I (@throw A msg).
Proof. by intros w Hw. Qed.

Lemma preserves_bind (m : M A) (k : A -> M B) :
  preserves I m -> (forall a, preserves I (k a)) -> preserves I (bind m k).
Proof.
  intros Hm Hk w Hw. unfold bind. specialize (Hm w Hw).
  destruct (m w) as [[a|msg|] w']; simpl in *; [by apply Hk|done..].
Qed.

Lemma preserves_tryCatch (m : M A) (h : string -> M A) :
  preserves I m -> (forall msg, preserves I (h msg)) -> preserves I (tryCatch m h).
Proof.
  intros Hm Hh w Hw. unfold tryCatch. specialize (Hm w Hw).
  destruct (m w) as [[a|msg|] w']; simpl in *; [done|by apply Hh|done].
Qed.

Lemma preserves_io (op : M A) :
  (forall w o rest, I w -> faults w = o :: rest -> I (setFaults rest w)) ->
  preserves I op -> preserves I (io op).
Proof.
  intros Hf Hop w Hw. unfold io.
  destruct (faults w) as [|[msg|] rest] eqn:Hfaults; [by apply Hop| |].
  - simpl. by eapply Hf.
  - apply Hop. by eapply Hf.
Qed.

Lemma preserves_fromRemote (reply : Remote A) : preserves I (fromRemote reply).
Proof. destruct reply; by intros w Hw. Qed.

Lemma total_ret (a : A) : total (ret a).
Proof. by intros w. Qed.

Lemma total_throw msg : total (@throw A msg).
Proof. by intros w. Qed.

Lemma total_bind (m : M A) (k : A -> M B) :
  total m -> (forall a, total (k a)) -> total (bind m k).
Proof.
  intros Hm Hk w. unfold bind. specialize (Hm w).
  destruct (m w) as [[a|msg|] w']; simpl in *; [by apply Hk|done..].
Qed.

Lemma total_tryCatch (m : M A) (h : string -> M A) :
  total m -> (forall msg, total (h msg)) -> total (tryCatch m h).
Proof.
  intros Hm Hh w. unfold tryCatch. specialize (Hm w).
  destruct (m w) as [[a|msg|] w']; simpl in *; [done|by apply Hh|done].
Qed.

Lemma total_io (op : M A) : total op -> total (io op).
Proof.
  intros Hop w. unfold io. destruct (faults w) as [|[msg|] rest]; [apply Hop|done|apply Hop].
Qed.

Lemma total_fromRemote (reply : Remote A) : total (fromRemote reply).
Proof. destruct reply; by intros w. Qed.

End MonadRules.

Lemma preserves_attempt {A} I (m : M A) : preserves I m -> preserves I (attempt m).
Proof.
  intros Hm. apply preserves_tryCatch.
  - apply preserves_bind; [done|]. intros a. apply preserves_ret.
  - intros msg. apply preserves_ret.
Qed.

Lemma total_attempt {A} (m : M A) : total m -> total (attempt m).
Proof.
  intros Hm. apply total_tryCatch.
  - apply total_bind; [done|]. intros a. apply total_ret.
  - intros msg. apply total_ret.
Qed.

Lemma preserves_forEach {A} I (body : A -> M unit) l :
  (forall x, preserves I (body x)) -> preserves I (forEach body l).
Proof.
  intros Hbody. induction l as [|x l IH]; simpl; [apply preserves_ret|].
  apply preserves_bind; [done|]. by intros _.
Qed.

Lemma total_forEach {A} (body : A -> M unit) l :
  (forall x, total (body x)) -> total (forEach body l).
Proof.
  intros Hbody. induction l as [|x l IH]; simpl; [apply total_ret|].
  apply total_bind; [done|]. by intros _.
Qed.

Lemma neverThrows_forEach {A} (body : A -> M unit) l :
  (forall x, neverThrows (body x)) -> neverThrows (forEach body l).
Proof.
  intros Hbody. induction l as [|x l IH]; intros w; simpl; [by exists tt|].
  unfold bind. destruct (Hbody x w) as [[] Hx].
  destruct (body x w) as [o w']. simpl in Hx. subst o. apply IH.
Qed.

(** A [try] whose handler always returns normally returns normally, provided
    the body terminates. *)
Lemma neverThrows_tryCatch {A} (m : M A) (h : string -> M A) :
  total m -> (forall msg, neverThrows (h msg)) -> neverThrows (tryCatch m h).
Proof.
  intros Hm Hh w. unfold tryCatch. specialize (Hm w).
  destruct (m w) as [[a|msg|] w']; simpl in *; [by exists a|apply Hh|done].
Qed.

Section FrameRules.
Variable I : World -> Prop.
Hypothesis HI : Frame I.

Lemma preserves_read {A} (f : World -> A) : preserves I (io (fun w => (Ok (f w), w))).
Proof. apply preserves_io; [apply HI|]. by intros w Hw. Qed.

Lemma preserves_Form_findOne b t : preserves I (Form_findOne b t).
Proof. apply (preserves_read (fun w => List.find _ (forms w))). Qed.

Lemma preserves_Form_find b t : preserves I (Form_find b t).
Proof. apply (preserves_read (fun w => List.filter _ (forms w))). Qed.

Lemma preserves_Form_findById id : preserves I (Form_findById id).
Proof. apply (preserves_read (fun w => List.find _ (forms w))). Qed.

Lemma preserves_User_findById id : preserves I (User_findById id).
Proof. apply (preserves_read (fun w => List.find _ (users w))). Qed.

Lemma preserves_Response_findOne rid : preserves I (Response_findOne rid).
Proof. apply (preserves_read (fun w => List.find _ (responses w))). Qed.

Lemma preserves_Response_findById id : preserves I (Response_findById id).
Proof. apply (preserves_read (fun w => List.find _ (responses w))). Qed.

Lemma preserves_newDate : preserves I newDate.
Proof. by intros w Hw. Qed.

Lemma preserves_isTokenExpired u : preserves I (isTokenExpired u).
Proof. by intros w Hw. Qed.

Lemma preserves_sleep ms : preserves I (sleep ms).
Proof. intros w Hw. by apply HI. Qed.

Lemma preserves_newResponse f u rid st ans sync :
  preserves I (newResponse f u rid st ans sync).
Proof. intros w Hw. by apply HI. Qed.

Lemma preserves_getRecord env token b t rid :
  preserves I (AirtableService_getRecord env token b t rid).
Proof.
  apply preserves_bind.
  - intros w Hw. by apply HI.
  - intros _. apply preserves_io; [apply HI|apply preserves_fromRemote].
Qed.

Lemma preserves_recordAnswers form record : preserves I (recordAnswers form record).
Proof.
  unfold recordAnswers. destruct (questions form); [apply preserves_ret|].
  destruct (rec_fields record); [|apply preserves_throw].
  apply preserves_bind; [apply preserves_newDate|]. intros t. apply preserves_ret.
Qed.

Lemma preserves_expired (user : option User) :
  preserves I (match user with Some u => isTokenExpired u | None => ret true end).
Proof. destruct user; [apply preserves_isTokenExpired|apply preserves_ret]. Qed.

End FrameRules.

Section StableRules.
Variable I : World -> Prop.
Hypothesis HI : Stable I.

Lemma preserves_Response_save r : preserves I (Response_save r).
Proof.
  unfold Response_save. destruct (validResponse r) eqn:Hvalid; [|apply preserves_throw].
  apply preserves_io; [apply HI|]. intros w Hw.
  destruct (duplicatesRecordId r (responses w)) eqn:Hdup; [done|].
  pose proof (stable_save I HI w r Hw Hvalid Hdup) as Hsave.
  by destruct (isStored r (responses w)).
Qed.

Lemma preserves_Response_markAsDeleted rid : preserves I (Response_markAsDeleted rid).
Proof.
  apply preserves_io; [apply HI|]. intros w Hw.
  destruct (List.find _ (responses w)) as [r|] eqn:Hfind; [|done].
  simpl. apply HI; [done|]. by apply find_some in Hfind as [? _].
Qed.

Lemma preserves_syncSingleRecord_try env b t rid :
  preserves I (syncSingleRecord_try env b t rid).
Proof.
  pose proof (stable_frame I HI) as HF.
  unfold syncSingleRecord_try.
  apply preserves_bind; [by apply preserves_Form_findOne|].
  intros [form|]; [|apply preserves_ret].
  apply preserves_bind; [by apply preserves_User_findById|]. intros user.
  apply preserves_bind; [by apply preserves_expired|]. intros expired.
  destruct user as [u|]; [|apply preserves_ret].
  destruct expired; [apply preserves_ret|].
  apply preserves_bind; [by apply preserves_getRecord|].
  intros [record|]; [|apply preserves_ret].
  apply preserves_bind; [by apply preserves_recordAnswers|]. intros ans.
  apply preserves_bind; [by apply preserves_Response_findOne|]. intros existing.
  apply preserves_bind; [|intros r; apply preserves_Response_save].
  destruct existing.
  - apply preserves_bind; [by apply preserves_newDate|]. intros ?. apply preserves_ret.
  - apply preserves_bind; [by apply preserves_newDate|]. intros ?.
    by apply preserves_newResponse.
Qed.

Lemma preserves_syncSingleRecord_catch rid error :
  preserves I (syncSingleRecord_catch rid error).
Proof.
  pose proof (stable_frame I HI) as HF.
  apply preserves_tryCatch; [|intros ?; apply preserves_ret].
  apply preserves_bind; [by apply preserves_Response_findOne|].
  intros [r|]; [apply preserves_Response_save|apply preserves_ret].
Qed.

Lemma preserves_syncSingleRecord env b t rid :
  preserves I (syncSingleRecord env b t rid).
Proof.
  apply preserves_tryCatch;
    [apply preserves_syncSingleRecord_try|apply preserves_syncSingleRecord_catch].
Qed.

End StableRules.

(** Every service keeps a stable invariant. *)

Ltac solve_preserves HF HS :=
  repeat first
    [ match goal with Hknown : forall _, _ |- preserves _ _ => apply Hknown end
    | apply preserves_ret | apply preserves_throw | apply preserves_fromRemote
    | apply (preserves_Response_save _ HS)
    | apply (preserves_Response_markAsDeleted _ HS)
    | apply (preserves_syncSingleRecord _ HS)
    | apply (preserves_Form_findOne _ HF) | apply (preserves_Form_find _ HF)
    | apply (preserves_Form_findById _ HF) | apply (preserves_User_findById _ HF)
    | apply (preserves_Response_findOne _ HF) | apply (preserves_Response_findById _ HF)
    | apply (preserves_newDate) | apply (preserves_isTokenExpired)
    | apply (preserves_sleep _ HF) | apply (preserves_expired)
    | apply preserves_attempt
    | apply preserves_bind; [|intros ?]
    | apply preserves_tryCatch; [|intros ?]
    | apply preserves_forEach; intros ?
    | apply preserves_io; [apply HF|]
    | match goal with |- preserves _ (match ?x with _ => _ end) => destruct x end
    | match goal with |- preserves _ (if ?x then _ else _) => destruct x end
    | by intros ? ?
    | by (intros ? ?; apply HF)
    | by (intros ? ?; simpl; eauto) ].

Section ServicesPreserve.
Variable I : World -> Prop.
Hypothesis HS : Stable I.
Hypothesis Hlog : forall w r, I w -> I (logRequest r w).

Lemma preserves_processWebhook env body : preserves I (processWebhook env body).
Proof.
  pose proof (stable_frame I HS) as HF.
  unfold processWebhook, handleCreatedRecords, handleUpdatedRecords, handleDeletedRecords.
  solve_preserves HF HS.
Qed.

Lemma preserves_listRecords env token b t offset :
  preserves I (listRecords env token b t offset).
Proof.
  pose proof (stable_frame I HS) as HF.
  unfold listRecords, modify. solve_preserves HF HS.
Qed.

Lemma preserves_syncRecords env b t records counts :
  preserves I (syncRecords env b t records counts).
Proof.
  pose proof (stable_frame I HS) as HF.
  revert counts. induction records as [|record records IH]; intros counts; simpl;
    solve_preserves HF HS.
Qed.

Lemma preserves_syncPages env fuel token b t offset counts :
  preserves I (syncPages env fuel token b t offset counts).
Proof.
  pose proof (stable_frame I HS) as HF.
  revert offset counts. induction fuel as [|fuel IH]; intros offset counts; simpl;
    [by intros w Hw|].
  pose proof preserves_listRecords as Hlist. pose proof preserves_syncRecords as Hrecs.
  solve_preserves HF HS.
Qed.

Lemma preserves_syncAllRecordsForForm env fuel formId :
  preserves I (syncAllRecordsForForm env fuel formId).
Proof.
  pose proof (stable_frame I HS) as HF. pose proof preserves_syncPages as Hpages.
  unfold syncAllRecordsForForm. solve_preserves HF HS.
Qed.

Lemma preserves_createRecord env token b t fields :
  preserves I (AirtableService_createRecord env token b t fields).
Proof.
  pose proof (stable_frame I HS) as HF.
  unfold AirtableService_createRecord, modify, getWorld. solve_preserves HF HS.
Qed.

Lemma preserves_updateRecord env token b t rid fields :
  preserves I (AirtableService_updateRecord env token b t rid fields).
Proof.
  pose proof (stable_frame I HS) as HF.
  unfold AirtableService_updateRecord, modify. solve_preserves HF HS.
Qed.

Lemma preserves_syncResponseToAirtable env id :
  preserves I (syncResponseToAirtable env id).
Proof.
  pose proof (stable_frame I HS) as HF.
  pose proof preserves_createRecord as Hcreate. pose proof preserves_updateRecord as Hupdate.
  unfold syncResponseToAirtable, updateSyncStatus_failed. solve_preserves HF HS.
Qed.

Lemma preserves_retryFailedSyncs env limit : preserves I (retryFailedSyncs env limit).
Proof.
  pose proof (stable_frame I HS) as HF.
  pose proof preserves_syncResponseToAirtable as Hsync.
  assert (Heach : forall rs results, preserves I (retryEach env rs results)).
  { induction rs as [|r rs IH]; intros results; simpl; unfold retryOne;
      solve_preserves HF HS. }
  unfold retryFailedSyncs, Response_findFailed. solve_preserves HF HS.
Qed.

End ServicesPreserve.

(** Termination and normal return of [syncSingleRecord]. *)

Ltac solve_total :=
  repeat first
    [ match goal with Hknown : forall _, _ |- total _ => apply Hknown end
    | apply total_ret | apply total_throw | apply total_fromRemote
    | apply total_io | apply total_attempt
    | apply total_bind; [|intros ?]
    | apply total_tryCatch; [|intros ?]
    | apply total_forEach; intros ?
    | match goal with |- total (match ?x with _ => _ end) => destruct x end
    | match goal with |- total (if ?x then _ else _) => destruct x end
    | by intros ?
    | by (intros ?; simpl; repeat case_match) ].

Lemma total_syncSingleRecord_try env b t rid : total (syncSingleRecord_try env b t rid).
Proof.
  unfold syncSingleRecord_try, Form_findOne, User_findById, isTokenExpired,
    AirtableService_getRecord, recordAnswers, Response_findOne, Response_save.
  solve_total.
Qed.

Lemma neverThrows_syncSingleRecord_catch rid error :
  neverThrows (syncSingleRecord_catch rid error).
Proof.
  apply neverThrows_tryCatch; [|intros msg w; by exists tt].
  unfold Response_findOne, Response_save. solve_total.
Qed.

Lemma neverThrows_syncSingleRecord env b t rid :
  neverThrows (syncSingleRecord env b t rid).
Proof.
  apply neverThrows_tryCatch;
    [apply total_syncSingleRecord_try|apply neverThrows_syncSingleRecord_catch].
Qed.

Lemma syncSingleRecord_returns env b t rid w :
  exists w', syncSingleRecord env b t rid w = (Ok tt, w').
Proof.
  destruct (neverThrows_syncSingleRecord env b t rid w) as [[] Hok].
  destruct (syncSingleRecord env b t rid w) as [o w']. simpl in Hok. subst o. by exists w'.
Qed.

(** *** The Response collection and its indexes *)

Lemma replaceById_ids r rs : map resp_id (replaceById r rs) = map resp_id rs.
Proof.
  unfold replaceById. induction rs as [|x rs IH]; simpl; [done|].
  rewrite IH. f_equal. destruct (Nat.eqb_spec (resp_id x) (resp_id r)); congruence.
Qed.

Lemma replaceById_length r rs : length (replaceById r rs) = length rs.
Proof. unfold replaceById. apply length_map. Qed.

Lemma replaceById_absent r rs :
  resp_id r ∉ map resp_id rs -> replaceById r rs = rs.
Proof.
  unfold replaceById. induction rs as [|x rs IH]; simpl; [done|].
  intros [Hx Hrs]%not_elem_of_cons. rewrite IH by done.
  destruct (Nat.eqb_spec (resp_id x) (resp_id r)); congruence.
Qed.

Lemma duplicatesRecordId_false r rs :
  duplicatesRecordId r rs = false <->
  forall x, x ∈ rs -> airtableRecordId x = airtableRecordId r -> resp_id x = resp_id r.
Proof.
  unfold duplicatesRecordId. rewrite <- not_true_iff_false, existsb_exists. split.
  - intros Hno x Hx Hrid. destruct (decide (resp_id x = resp_id r)) as [|Hne]; [done|].
    destruct Hno. exists x. split; [by apply list_elem_of_In|].
    apply andb_true_iff. split; [by apply String.eqb_eq|].
    by apply negb_true_iff, Nat.eqb_neq.
  - intros Hall (x & Hx & Hdup). apply andb_true_iff in Hdup as [Hrid Hid].
    apply String.eqb_eq in Hrid. apply negb_true_iff, Nat.eqb_neq in Hid.
    apply Hid, Hall; [by apply list_elem_of_In|done].
Qed.

Lemma isStored_true r rs : isStored r rs = true <-> resp_id r ∈ map resp_id rs.
Proof.
  unfold isStored. rewrite existsb_exists, list_elem_of_fmap. split.
  - intros (x & Hx & Hid%Nat.eqb_eq). exists x. by rewrite list_elem_of_In.
  - intros (x & Hid & Hx). exists x. rewrite <- list_elem_of_In, Nat.eqb_eq. done.
Qed.

Lemma replaceById_recordIds r rs :
  NoDup (map resp_id rs) -> NoDup (map airtableRecordId rs) ->
  duplicatesRecordId r rs = false ->
  NoDup (map airtableRecordId (replaceById r rs)).
Proof.
  rewrite duplicatesRecordId_false.
  induction rs as [|x rs IH]; simpl; [constructor|].
  intros [Hid Hids]%NoDup_cons [Hrid Hrids]%NoDup_cons Hdup.
  destruct (Nat.eqb_spec (resp_id x) (resp_id r)) as [Heq|Hne].
  - rewrite replaceById_absent by (by rewrite <- Heq). apply NoDup_cons. split; [|done].
    intros (y & Hy & Hin)%list_elem_of_fmap. apply Hid. rewrite Heq.
    apply list_elem_of_fmap. exists y. split; [|done].
    symmetry. apply Hdup; [by right|done].
  - apply NoDup_cons. split; [|apply IH; [done..|]; intros y Hy; apply Hdup; by right].
    intros (y & Hy & Hin)%list_elem_of_fmap.
    unfold replaceById in Hin. apply list_elem_of_fmap in Hin as (z & -> & Hz).
    destruct (Nat.eqb_spec (resp_id z) (resp_id r)).
    + apply Hne. apply Hdup; [by left|done].
    + apply Hrid. apply list_elem_of_fmap. by exists z.
Qed.

Lemma storeOk_save w r :
  storeOk w -> duplicatesRecordId r (responses w) = false ->
  storeOk (setResponses (if isStored r (responses w) then replaceById r (responses w)
                         else responses w ++ [r]) w).
Proof.
  intros [Hids Hrids] Hdup. unfold storeOk. simpl.
  destruct (isStored r (responses w)) eqn:Hstored.
  - rewrite replaceById_ids. split; [done|]. by apply replaceById_recordIds.
  - apply not_true_iff_false in Hstored. rewrite isStored_true in Hstored.
    rewrite !map_app. simpl. split.
    + apply NoDup_app. split; [done|]. split; [|apply NoDup_singleton].
      by intros x Hx ->%list_elem_of_singleton.
    + apply NoDup_app. split; [done|]. split; [|apply NoDup_singleton].
      intros x (y & -> & Hy)%list_elem_of_fmap Heq%list_elem_of_singleton.
      apply Hstored. apply list_elem_of_fmap. exists y. split; [|done].
      symmetry. by eapply duplicatesRecordId_false.
Qed.

Lemma storeOk_unique w x y :
  storeOk w -> x ∈ responses w -> y ∈ responses w ->
  airtableRecordId x = airtableRecordId y -> x = y.
Proof.
  intros [_ Hrids] Hx Hy Heq.
  apply list_elem_of_lookup in Hx as [i Hi]. apply list_elem_of_lookup in Hy as [j Hj].
  assert (i = j) as ->; [|congruence].
  eapply NoDup_lookup; [exact Hrids|..]; rewrite list_lookup_fmap.
  - by rewrite Hi.
  - rewrite Hj. simpl. by rewrite Heq.
Qed.

Lemma linkedResponse_Some w rid r :
  linkedResponse w rid = Some r -> r ∈ responses w /\ airtableRecordId r = rid.
Proof.
  unfold linkedResponse. intros [Hin Heq]%find_some.
  split; [by apply list_elem_of_In|by apply String.eqb_eq].
Qed.

(** A rewritten copy of the linked response never trips the unique index. *)
Lemma linked_no_duplicate w rid r r' :
  storeOk w -> linkedResponse w rid = Some r ->
  resp_id r' = resp_id r -> airtableRecordId r' = rid ->
  duplicatesRecordId r' (responses w) = false /\ isStored r' (responses w) = true.
Proof.
  intros Hok [Hr Hrid]%linkedResponse_Some Hid' Hrid'. split.
  - apply duplicatesRecordId_false. intros x Hx Hxr.
    rewrite (storeOk_unique w x r); [done..|congruence].
  - apply isStored_true. rewrite Hid'. by apply list_elem_of_fmap_2.
Qed.

Lemma find_replaceById r r' rs :
  NoDup (map resp_id rs) ->
  List.find (fun x => String.eqb (airtableRecordId x) (airtableRecordId r)) rs = Some r ->
  resp_id r' = resp_id r -> airtableRecordId r' = airtableRecordId r ->
  List.find (fun x => String.eqb (airtableRecordId x) (airtableRecordId r)) (replaceById r' rs)
  = Some r'.
Proof.
  intros Hids Hfind Hid Hrid. induction rs as [|x rs IH]; simpl in *; [done|].
  apply NoDup_cons in Hids as [Hx Hids].
  destruct (String.eqb_spec (airtableRecordId x) (airtableRecordId r)) as [Heq|Hne].
  - inversion Hfind; subst x. rewrite Hid, Nat.eqb_refl. simpl.
    by rewrite Hrid, String.eqb_refl.
  - assert (Hin : r ∈ rs) by (apply find_some in Hfind as [? _]; by apply list_elem_of_In).
    destruct (Nat.eqb_spec (resp_id x) (resp_id r')) as [Heq'|Hne'].
    + destruct Hx. rewrite Heq', Hid. by apply list_elem_of_fmap_2.
    + simpl. destruct (String.eqb_spec (airtableRecordId x) (airtableRecordId r)); [done|].
      by apply IH.
Qed.

Lemma storeOk_Stable : Stable storeOk.
Proof.
  split; [by split| |].
  - intros w r Hok _. by apply storeOk_save.
  - intros w r sync Hok Hr.
    assert (Hlink : duplicatesRecordId (withStatus Deleted sync r) (responses w) = false
                    /\ isStored (withStatus Deleted sync r) (responses w) = true).
    { split.
      - apply duplicatesRecordId_false. intros x Hx Hxr. simpl in *.
        assert (x = r) as ->; [|done].
        apply (storeOk_unique w); [done..|by apply list_elem_of_In|done].
      - apply isStored_true. simpl. by apply list_elem_of_fmap_2, list_elem_of_In. }
    destruct Hlink as [Hdup Hstored].
    pose proof (storeOk_save w _ Hok Hdup) as Hsave. by rewrite Hstored in Hsave.
Qed.

Lemma noFaults_Stable : Stable (fun w => faults w = []).
Proof. split; [split|..]; try done. intros w o rest Hw Hf. congruence. Qed.

Lemma pageFetches_Stable k : Stable (fun w => pageFetches w = k).
Proof.
  split; [split|..]; try done.
  intros w r Hr Hw. unfold pageFetches in *. simpl.
  rewrite List.filter_app, length_app. simpl. rewrite Hr. simpl. lia.
Qed.

Lemma Stable_and I J : Stable I -> Stable J -> Stable (fun w => I w /\ J w).
Proof.
  intros [[] ? ?] [[] ? ?]. split; [split|..]; intros; naive_solver.
Qed.

(** The writes store validated documents only, and [markAsDeleted] touches
    neither the record id nor the answers. *)
Lemma schemaOk_Stable : Stable schemaOk.
Proof.
  split; [by split| |].
  - intros w r [Hrs Hfs] Hvalid _. split; [|done]. simpl.
    destruct (isStored r (responses w)).
    + unfold replaceById. apply Forall_fmap. eapply Forall_impl; [exact Hrs|].
      intros x Hx. simpl. by destruct (resp_id x =? resp_id r)%nat.
    + apply Forall_app. split; [done|]. by apply Forall_singleton.
  - intros w r sync [Hrs Hfs] Hr. split; [|done]. simpl.
    assert (Hvalid : validResponse r = true).
    { rewrite Forall_forall in Hrs. by apply Hrs, list_elem_of_In. }
    unfold replaceById. apply Forall_fmap. eapply Forall_impl; [exact Hrs|].
    intros x Hx. simpl. by destruct (resp_id x =? resp_id r)%nat.
Qed.

Lemma schemaOk_linked w rid r :
  schemaOk w -> linkedResponse w rid = Some r -> validResponse r = true.
Proof.
  intros [Hrs _] [Hr _]%linkedResponse_Some. rewrite Forall_forall in Hrs. by apply Hrs.
Qed.

Lemma schemaOk_boundForm w b t form :
  schemaOk w -> boundForm w b t = Some form -> validForm form = true.
Proof.
  intros [_ Hfs] [Hin _]%find_some. rewrite Forall_forall in Hfs.
  by apply Hfs, list_elem_of_In.
Qed.

Lemma fieldAnswers_valid t qs fields :
  forallb (fun q => negb (String.eqb (questionKey q) "")) qs = true ->
  forallb (fun a => negb (String.eqb (a_questionKey a) "")) (fieldAnswers t qs fields) = true.
Proof.
  unfold fieldAnswers. induction qs as [|q qs IH]; [done|].
  simpl forallb at 1. intros [Hq Hqs]%andb_true_iff.
  change (omap ?f (q :: qs)) with (match f q with Some y => y :: omap f qs | None => omap f qs end).
  destruct (fieldAnswer t fields q) as [a|] eqn:Ha; [|by apply IH].
  simpl. rewrite IH by done.
  unfold fieldAnswer in Ha. repeat case_match; simplify_eq; simpl; by rewrite Hq.
Qed.

Lemma validResponse_resynced w b t rid form r ts fields :
  schemaOk w -> boundForm w b t = Some form -> linkedResponse w rid = Some r ->
  validResponse (resynced ts (fieldAnswers ts (questions form) fields) r) = true.
Proof.
  intros Hschema Hform Hlinked.
  pose proof (schemaOk_linked _ _ _ Hschema Hlinked) as [Hrid _]%andb_true_iff.
  pose proof (schemaOk_boundForm _ _ _ _ Hschema Hform) as Hkeys.
  unfold validResponse. simpl. rewrite Hrid. simpl. by apply fieldAnswers_valid.
Qed.

(** *** Running [syncSingleRecord] *)

Lemma io_run {A} (op : M A) w : faults w = [] -> io op w = op w.
Proof. intros Hf. unfold io. by rewrite Hf. Qed.

Lemma recordAnswers_run form record fields w :
  rec_fields record = Some fields ->
  recordAnswers form record w = (Ok (fieldAnswers (now w) (questions form) fields), w).
Proof.
  intros Hfields. unfold recordAnswers. rewrite Hfields.
  by destruct (questions form).
Qed.

Lemma fieldAnswer_content t t' fields q :
  answerContent <$> fieldAnswer t fields q = answerContent <$> fieldAnswer t' fields q.
Proof. unfold fieldAnswer. by destruct (obj_get fields (airtableFieldId q)) as [[]|]. Qed.

Lemma fieldAnswers_content t t' qs fields :
  map answerContent (fieldAnswers t qs fields) = map answerContent (fieldAnswers t' qs fields).
Proof.
  unfold fieldAnswers. induction qs as [|q qs IH]; [done|].
  change (omap ?f (q :: qs)) with (match f q with Some y => y :: omap f qs | None => omap f qs end).
  pose proof (fieldAnswer_content t t' fields q) as Hq.
  destruct (fieldAnswer t fields q), (fieldAnswer t' fields q); simpl in *;
    inversion Hq; congruence.
Qed.

(** The update branch: the form resolves, its owner's token has not expired,
    the API returns the record, a Response is linked to it and no call fails. *)
Lemma syncSingleRecord_try_update env b t rid w form u record fields r :
  storeOk w -> schemaOk w -> faults w = [] ->
  boundForm w b t = Some form ->
  userById w (form_userId form) = Some u ->
  (tokenExpiresAt u <? now w)%nat = false ->
  getRecordReply env (accessToken u) b t rid = Replied (Some record) ->
  rec_fields record = Some fields ->
  linkedResponse w rid = Some r ->
  syncSingleRecord_try env b t rid w
  = (Ok tt, setResponses
              (replaceById (resynced (now w) (fieldAnswers (now w) (questions form) fields) r)
                           (responses w))
              (logRequest (ReqGetRecord b t rid) w)).
Proof.
  intros Hok Hschema Hf Hform Huser Htoken Hreply Hfields Hlinked.
  pose proof (validResponse_resynced w b t rid form r (now w) fields Hschema Hform Hlinked)
    as Hvalid.
  unfold boundForm, userById, linkedResponse in *.
  unfold syncSingleRecord_try, bind, Form_findOne.
  rewrite io_run by done. rewrite Hform.
  unfold User_findById. rewrite io_run by done. rewrite Huser.
  unfold isTokenExpired, bind, newDate, ret. rewrite Htoken.
  unfold AirtableService_getRecord, bind, modify.
  rewrite io_run by done. rewrite Hreply. simpl.
  rewrite (recordAnswers_run _ _ fields) by done.
  unfold Response_findOne. rewrite io_run by done. simpl. rewrite Hlinked.
  unfold Response_save.
  change (validResponse _)
    with (validResponse (resynced (now w) (fieldAnswers (now w) (questions form) fields) r)).
  rewrite Hvalid. rewrite io_run by done. simpl.
  destruct (linked_no_duplicate w rid r
              (resynced (now w) (fieldAnswers (now w) (questions form) fields) r))
    as [Hdup Hstored]; [done..| |].
  { simpl. by apply linkedResponse_Some in Hlinked as [_ ?]. }
  unfold resynced in *. by rewrite Hdup, Hstored.
Qed.

Lemma syncSingleRecord_of_try env b t rid w w' :
  syncSingleRecord_try env b t rid w = (Ok tt, w') ->
  syncSingleRecord env b t rid w = (Ok tt, w').
Proof. intros Htry. unfold syncSingleRecord, tryCatch. by rewrite Htry. Qed.

Lemma syncSingleRecord_update env b t rid w form u record fields r :
  storeOk w -> schemaOk w -> faults w = [] ->
  boundForm w b t = Some form ->
  userById w (form_userId form) = Some u ->
  (tokenExpiresAt u <? now w)%nat = false ->
  getRecordReply env (accessToken u) b t rid = Replied (Some record) ->
  rec_fields record = Some fields ->
  linkedResponse w rid = Some r ->
  let r' := resynced (now w) (fieldAnswers (now w) (questions form) fields) r in
  let w' := snd (syncSingleRecord env b t rid w) in
  linkedResponse w' rid = Some r'
  /\ responses w' = replaceById r' (responses w)
  /\ forms w' = forms w /\ users w' = users w /\ now w' = now w /\ faults w' = [].
Proof.
  intros Hok Hschema Hf Hform Huser Htoken Hreply Hfields Hlinked r' w'. subst w'.
  rewrite (syncSingleRecord_of_try _ _ _ _ _ _
             (syncSingleRecord_try_update env b t rid w form u record fields r
                Hok Hschema Hf Hform Huser Htoken Hreply Hfields Hlinked)).
  simpl. split_and!; try done.
  destruct (linkedResponse_Some _ _ _ Hlinked) as [_ Hrid].
  unfold linkedResponse in *. simpl. subst rid.
  apply find_replaceById; [apply Hok|done..].
Qed.




(** *** Failures inside [syncSingleRecord] *)

Lemma keeps_ret {A} I (a : A) : keepsUnlessOk I (ret a).
Proof. by intros w Hw. Qed.

Lemma keeps_bind {A B} I (m : M A) (k : A -> M B) :
  preserves I m -> (forall a, keepsUnlessOk I (k a)) -> keepsUnlessOk I (bind m k).
Proof.
  intros Hm Hk w Hw. unfold bind. specialize (Hm w Hw).
  destruct (m w) as [[a|msg|] w']; simpl in *; [by apply Hk|done..].
Qed.

Lemma keeps_save I r : Frame I -> keepsUnlessOk I (Response_save r).
Proof.
  intros HI w Hw. unfold Response_save. destruct (validResponse r); [|done]. unfold io.
  destruct (faults w) as [|[msg|] rest] eqn:Hf; simpl.
  - destruct (duplicatesRecordId r (responses w)); [done|].
    by destruct (isStored r (responses w)).
  - by eapply HI.
  - destruct (duplicatesRecordId r (responses w)); [by eapply HI|].
    by destruct (isStored r (responses w)).
Qed.

Lemma sameResponses_Frame rs : Frame (fun w => responses w = rs).
Proof. by split. Qed.

(** When the [try] block raises, it has not written to the collection. *)
Lemma syncSingleRecord_try_throws env b t rid w error w1 :
  syncSingleRecord_try env b t rid w = (Throw error, w1) -> responses w1 = responses w.
Proof.
  intros Hrun.
  assert (Hkeeps : keepsUnlessOk (fun w' => responses w' = responses w)
                     (syncSingleRecord_try env b t rid)).
  { pose proof (sameResponses_Frame (responses w)) as HF.
    unfold syncSingleRecord_try.
    apply keeps_bind; [by apply preserves_Form_findOne|]. intros [form|]; [|apply keeps_ret].
    apply keeps_bind; [by apply preserves_User_findById|]. intros user.
    apply keeps_bind; [by apply preserves_expired|]. intros expired.
    destruct user as [u|]; [|apply keeps_ret]. destruct expired; [apply keeps_ret|].
    apply keeps_bind; [by apply preserves_getRecord|]. intros [record|]; [|apply keeps_ret].
    apply keeps_bind; [by apply preserves_recordAnswers|]. intros ans.
    apply keeps_bind; [by apply preserves_Response_findOne|]. intros existing.
    apply keeps_bind; [|intros r; by apply keeps_save].
    destruct existing.
    - apply preserves_bind; [by apply preserves_newDate|]. intros ?. apply preserves_ret.
    - apply preserves_bind; [by apply preserves_newDate|]. intros ?.
      by apply preserves_newResponse. }
  specialize (Hkeeps w eq_refl). by rewrite Hrun in Hkeeps.
Qed.

(** The [catch] block, when a Response is linked to the record and its two
    store calls are not themselves failing. *)
Lemma syncSingleRecord_catch_records rid error w r :
  storeOk w -> schemaOk w -> linkedResponse w rid = Some r ->
  Forall (fun o => o = None) (take 2 (faults w)) ->
  exists w', syncSingleRecord_catch rid error w = (Ok tt, w')
             /\ responses w' = replaceById (failedWith error r) (responses w).
Proof.
  intros Hok Hschema Hlinked Hfaults.
  destruct (linked_no_duplicate w rid r (failedWith error r)) as [Hdup Hstored]; [done..| |].
  { simpl. by apply linkedResponse_Some in Hlinked as [_ ?]. }
  assert (Hvalid : validResponse (failedWith error r) = true)
    by apply (schemaOk_linked _ _ _ Hschema Hlinked).
  unfold linkedResponse in Hlinked.
  unfold syncSingleRecord_catch, tryCatch, bind, Response_findOne, Response_save, io.
  unfold failedWith in *.
  destruct (faults w) as [|o1 [|o2 rest]] eqn:Hf; simpl in Hfaults;
    repeat match goal with
           | Hall : Forall _ (_ :: _) |- _ => apply Forall_cons in Hall as [-> Hall]
           end;
    simpl; rewrite ?Hf; simpl; rewrite ?Hlinked; simpl; rewrite Hvalid; simpl;
    rewrite ?Hf; simpl; rewrite ?Hdup, ?Hstored; by eexists.
Qed.




(** *** Full resynchronisation *)

(** The record loop counts every record as synced, since [syncSingleRecord]
    never raises, and keeps every stable invariant. *)
Lemma syncRecords_run env b t records counts w :
  exists w', syncRecords env b t records counts w
             = (Ok (fst counts + length records, snd counts), w')
             /\ forall I, Stable I -> I w -> I w'.
Proof.
  revert counts w. induction records as [|record records IH]; intros counts w; simpl.
  - exists w. split; [|done]. unfold ret. do 2 f_equal. destruct counts. simpl. f_equal. lia.
  - destruct (syncSingleRecord_returns env b t (rec_id record) w) as [w1 Hrun].
    unfold bind, tryCatch. rewrite Hrun. simpl.
    destruct (IH (S (fst counts), snd counts) w1) as (w' & Hrest & Hinv).
    exists w'. rewrite Hrest. simpl. split; [do 3 f_equal; lia|].
    intros I HI Hw. apply Hinv; [done|].
    pose proof (preserves_syncSingleRecord I HI env b t (rec_id record) w Hw) as Hw1.
    by rewrite Hrun in Hw1.
Qed.

Lemma pageFetches_logRequest w r :
  pageFetches (logRequest r w) = pageFetches w + (if isListRequest r then 1 else 0).
Proof.
  unfold pageFetches. simpl. rewrite List.filter_app, length_app. simpl.
  by destruct (isListRequest r).
Qed.

Lemma listRecords_run env token b t offset page w :
  faults w = [] ->
  listRecordsReply env token b t offset = Replied page ->
  listRecords env token b t offset w = (Ok page, logRequest (ReqListRecords b t offset) w).
Proof.
  intros Hf Hreply. unfold listRecords, bind, modify. rewrite io_run by done.
  by rewrite Hreply.
Qed.

(** One turn of the [do ... while] loop when the page request is answered. *)
Lemma syncPages_page env fuel token b t offset counts page w :
  faults w = [] ->
  listRecordsReply env token b t (if truthyString offset then offset else None)
  = Replied page ->
  exists w',
    faults w' = [] /\ pageFetches w' = pageFetches w + 1
    /\ syncPages env (S fuel) token b t offset counts w
       = if truthyString (page_offset page)
         then syncPages env fuel token b t (page_offset page)
                (fst counts + length (page_records page), snd counts) w'
         else (Ok (fst counts + length (page_records page), snd counts), w').
Proof.
  intros Hf Hreply. simpl. unfold bind at 1. unfold attempt, tryCatch, bind at 1.
  rewrite (listRecords_run _ _ _ _ _ page) by done. simpl.
  set (w0 := logRequest _ w).
  destruct (syncRecords_run env b t (page_records page) counts w0) as (w1 & Hrun & Hinv).
  exists (setNow (now w1 + 200) w1).
  assert (Hinv1 : faults w1 = [] /\ pageFetches w1 = pageFetches w + 1).
  { apply (Hinv (fun w' => faults w' = [] /\ pageFetches w' = pageFetches w + 1)).
    - apply Stable_and; [apply noFaults_Stable|apply pageFetches_Stable].
    - split; [done|]. unfold w0. by rewrite pageFetches_logRequest. }
  destruct Hinv1 as [Hf1 Hp1]. split; [done|]. split; [done|].
  unfold bind. rewrite Hrun. simpl. by destruct (truthyString (page_offset page)).
Qed.

(** One turn of the loop when the page request raises: the [catch] counts one
    error and the loop ends; the page was requested once. *)
Lemma syncPages_failure env fuel token b t offset counts w error w1 :
  listRecords env token b t (if truthyString offset then offset else None) w
  = (Throw error, w1) ->
  syncPages env (S fuel) token b t offset counts w = (Ok (fst counts, S (snd counts)), w1)
  /\ pageFetches w1 = pageFetches w + 1.
Proof.
  intros Hrun. split.
  - simpl. unfold bind at 1. unfold attempt, tryCatch, bind at 1. by rewrite Hrun.
  - unfold listRecords, bind, modify in Hrun. simpl in Hrun.
    set (w0 := logRequest _ w) in Hrun.
    assert (Hw0 : pageFetches w0 = pageFetches w + 1)
      by (unfold w0; by rewrite pageFetches_logRequest).
    unfold io in Hrun. destruct (faults w0) as [|[msg|] rest] eqn:Hf.
    + destruct (listRecordsReply env token b t _); inversion Hrun; by subst.
    + inversion Hrun; by subst.
    + destruct (listRecordsReply env token b t _); inversion Hrun; by subst.
Qed.

Lemma syncAllRecordsForForm_run env fuel formId w form u :
  faults w = [] ->
  formById w formId = Some form ->
  userById w (form_userId form) = Some u ->
  (tokenExpiresAt u <? now w)%nat = false ->
  syncAllRecordsForForm env fuel formId w
  = match syncPages env fuel (accessToken u) (airtableBaseId form) (airtableTableId form)
            None (0, 0) w with
    | (Ok counts, w') =>
        (Ok {| reportSuccess := true; syncedCount := fst counts; errorCount := snd counts |},
         w')
    | (Throw error, w') => (Throw error, w')
    | (OutOfFuel, w') => (OutOfFuel, w')
    end.
Proof.
  intros Hf Hform Huser Htoken. unfold formById, userById in *.
  unfold syncAllRecordsForForm, tryCatch, bind, Form_findById.
  rewrite io_run by done. rewrite Hform.
  unfold User_findById. rewrite io_run by done. rewrite Huser.
  unfold isTokenExpired, bind, newDate, ret. rewrite Htoken.
  by destruct (syncPages _ _ _ _ _ _ _ _) as [[counts|error|] w'].
Qed.

Lemma tokenOf_length n : String.length (tokenOf n) = n.
Proof.
  induction n as [|n IH]; simpl; congruence.
Qed.

Lemma syncAllRecordsForForm_shape env fuel formId w report w' :
  syncAllRecordsForForm env fuel formId w = (Ok report, w') -> reportSuccess report = true.
Proof.
  unfold syncAllRecordsForForm, tryCatch, bind, throw, ret. intros Hrun.
  repeat case_match; simplify_eq; done.
Qed.

(** C7. With a form whose owner's token has not expired and no failing call,
    a table of 25 records served 10 at a time takes exactly 3 page requests
    and the report is [syncedCount = 25], [errorCount = 0]. In every run, a
    page request that raises adds one to the error count and ends the loop
    with that single request for the page; and every report returned carries
    [success], [syncedCount] and [errorCount]. *)
Theorem syncAllRecordsForForm_pagination :
  (forall env fuel formId w form u records,
     3 <= fuel ->
     faults w = [] ->
     formById w formId = Some form ->
     userById w (form_userId form) = Some u ->
     (tokenExpiresAt u <? now w)%nat = false ->
     length records = 25 ->
     (forall offset,
        listRecordsReply env (accessToken u) (airtableBaseId form) (airtableTableId form) offset
        = listRecordsReply (pagedEnv records 10) (accessToken u) (airtableBaseId form)
            (airtableTableId form) offset) ->
     exists w',
       syncAllRecordsForForm env fuel formId w
       = (Ok {| reportSuccess := true; syncedCount := 25; errorCount := 0 |}, w')
       /\ pageFetches w' = pageFetches w + 3)
  /\ (forall env fuel token b t offset counts w error w1,
        listRecords env token b t (if truthyString offset then offset else None) w
        = (Throw error, w1) ->
        syncPages env (S fuel) token b t offset counts w
        = (Ok (fst counts, S (snd counts)), w1)
        /\ pageFetches w1 = pageFetches w + 1)
  /\ (forall env fuel formId w report w',
        syncAllRecordsForForm env fuel formId w = (Ok report, w') ->
        reportSuccess report = true
        /\ report = {| reportSuccess := true; syncedCount := syncedCount report;
                       errorCount := errorCount report |}).
Proof.
  split_and!.
  - intros env fuel formId w form u records Hfuel Hf Hform Huser Htoken Hlen Henv.
    rewrite (syncAllRecordsForForm_run env fuel formId w form u) by done.
    destruct fuel as [|[|[|fuel]]]; [lia..|].
    set (token := accessToken u) in *. set (b := airtableBaseId form) in *.
    set (t := airtableTableId form) in *.
    destruct (syncPages_page env (S (S fuel)) token b t None (0, 0)
                {| page_records := take 10 (drop 0 records);
                   page_offset := Some (tokenOf 10) |} w) as (w1 & Hf1 & Hp1 & ->); [done|..].
    { simpl. rewrite Henv. simpl. by rewrite Hlen. }
    destruct (syncPages_page env (S fuel) token b t (Some (tokenOf 10))
                (0 + length (take 10 (drop 0 records)), 0)
                {| page_records := take 10 (drop 10 records);
                   page_offset := Some (tokenOf 20) |} w1) as (w2 & Hf2 & Hp2 & Hrun2);
      [done|..].
    { simpl. rewrite Henv. simpl. by rewrite Hlen. }
    destruct (syncPages_page env fuel token b t (Some (tokenOf 20))
                (0 + length (take 10 (drop 0 records)) + length (take 10 (drop 10 records)), 0)
                {| page_records := take 10 (drop 20 records);
                   page_offset := None |} w2) as (w3 & Hf3 & Hp3 & Hrun3);
      [done|..].
    { simpl. rewrite Henv. simpl. by rewrite Hlen. }
    exists w3. split; [|lia].
    cbn [page_offset page_records fst snd] in *.
    change (truthyString (Some (tokenOf 10))) with true. cbn iota.
    rewrite Hrun2. change (truthyString (Some (tokenOf 20))) with true. cbn iota.
    rewrite Hrun3. change (truthyString None) with false. cbn iota.
    rewrite !length_take, !length_drop, Hlen. reflexivity.
  - apply syncPages_failure.
  - intros env fuel formId w report w' Hrun.
    pose proof (syncAllRecordsForForm_shape _ _ _ _ _ _ Hrun) as Hs.
    split; [done|]. destruct report. simpl in *. by subst.
Qed.

Example full_sync_25 :
  let run := syncAllRecordsForForm (pagedEnv (recordsN 25) 10) 3 1 (worldWith 2000 []) in
  fst run = Ok {| reportSuccess := true; syncedCount := 25; errorCount := 0 |}
  /\ pageFetches (snd run) = 3
  /\ length (responses (snd run)) = 25.
Proof. vm_compute. done. Qed.

Lemma syncAllRecordsForForm_pagination_witness :
  exists w',
    syncAllRecordsForForm (pagedEnv (recordsN 25) 10) 3 1 (worldWith 2000 [])
    = (Ok {| reportSuccess := true; syncedCount := 25; errorCount := 0 |}, w')
    /\ pageFetches w' = pageFetches (worldWith 2000 []) + 3.
Proof.
  apply (proj1 syncAllRecordsForForm_pagination (pagedEnv (recordsN 25) 10) 3 1
           (worldWith 2000 []) planForm (owner 2000) (recordsN 25)).
  - lia.
  - reflexivity.
  - reflexivity.
  - reflexivity.
  - reflexivity.
  - reflexivity.
  - intros offset. reflexivity.
Defined.

(** *** The retry scan *)

Lemma elem_of_applyLimit {A} limit (l : list A) x : x ∈ applyLimit limit l -> x ∈ l.
Proof.
  unfold applyLimit. destruct limit; [done|].
  intros (i & Hi & _)%elem_of_take. by eapply list_elem_of_lookup_2.
Qed.

Lemma retryCandidate_true r :
  retryCandidate r = true <->
  status r = Failed /\ syncAttempts (syncStatus r) < maxRetries.
Proof.
  unfold retryCandidate. rewrite andb_true_iff, bool_decide_eq_true, Nat.ltb_lt. done.
Qed.

(** A retry writes only to the Response it was started for. *)

Lemma returning_preserves {A} I (Q : A -> Prop) (m : M A) :
  returning I Q m -> preserves I m.
Proof. intros Hm w Hw. by apply Hm. Qed.

Lemma preserves_returning {A} I (m : M A) :
  preserves I m -> returning I (fun _ => True) m.
Proof. intros Hm w Hw. split; [by apply Hm|done]. Qed.

Lemma returning_ret {A} I (Q : A -> Prop) a : Q a -> returning I Q (ret a).
Proof. intros Ha w Hw. split; [done|]. intros a' [= <-]. done. Qed.

Lemma returning_bind {A B} I (Q : A -> Prop) (R : B -> Prop) (m : M A) (k : A -> M B) :
  returning I Q m -> (forall a, Q a -> returning I R (k a)) -> returning I R (bind m k).
Proof.
  intros Hm Hk w Hw. unfold bind. destruct (Hm w Hw) as [Hw' Ha].
  destruct (m w) as [[a|msg|] w']; simpl in *; [|done..].
  apply Hk; [by apply Ha|done].
Qed.

Lemma returning_attempt {A} I (Q : A -> Prop) (m : M A) :
  returning I Q m ->
  returning I (fun x => match x with inl a => Q a | inr _ => True end) (attempt m).
Proof.
  intros Hm w Hw. unfold attempt, tryCatch, bind, ret. destruct (Hm w Hw) as [Hw' Ha].
  destruct (m w) as [[a|msg|] w']; simpl in *; (split; [done|]); intros x [= <-]; auto.
Qed.

Lemma returning_Response_findById I id :
  Frame I ->
  returning I (fun found => forall x, found = Some x -> resp_id x = id) (Response_findById id).
Proof.
  intros HF w Hw. split; [by apply preserves_Response_findById|].
  intros found. unfold Response_findById, io.
  destruct (faults w) as [|[msg|] rest]; simpl; intros [= <-] x [_ Hx]%find_some;
    by apply Nat.eqb_eq.
Qed.

Lemma untouched_Frame r : Frame (fun w => r ∈ responses w).
Proof. by split. Qed.

Lemma untouched_save r r' :
  resp_id r' <> resp_id r -> preserves (fun w => r ∈ responses w) (Response_save r').
Proof.
  intros Hid. unfold Response_save. destruct (validResponse r'); [|apply preserves_throw].
  apply preserves_io; [apply untouched_Frame|]. intros w Hw.
  destruct (duplicatesRecordId r' (responses w)); [done|].
  destruct (isStored r' (responses w)); simpl.
  - unfold replaceById. apply list_elem_of_fmap. exists r. split; [|done].
    destruct (Nat.eqb_spec (resp_id r) (resp_id r')); [congruence|done].
  - apply elem_of_app. by left.
Qed.

Lemma untouched_syncResponseToAirtable env id r :
  id <> resp_id r ->
  preserves (fun w => r ∈ responses w) (syncResponseToAirtable env id).
Proof.
  intros Hid. pose proof (untouched_Frame r) as HF.
  set (K := fun w => r ∈ responses w).
  assert (Hlog : forall w q, K w -> K (logRequest q w)) by done.
  assert (Hcreate : forall token b t fields,
            preserves K (AirtableService_createRecord env token b t fields)).
  { intros. unfold AirtableService_createRecord, modify, getWorld.
    apply preserves_bind; [by intros w Hw|]. intros _.
    apply preserves_io; [apply HF|].
    apply preserves_bind; [by intros w Hw|]. intros w0.
    apply preserves_bind; [apply preserves_fromRemote|]. intros record.
    apply preserves_bind; [by intros w Hw|]. intros _. apply preserves_ret. }
  assert (Hupdate : forall token b t rid fields,
            preserves K (AirtableService_updateRecord env token b t rid fields)).
  { intros. unfold AirtableService_updateRecord, modify.
    apply preserves_bind; [by intros w Hw|]. intros _.
    apply preserves_io; [apply HF|apply preserves_fromRemote]. }
  assert (Hfailed : forall error x, resp_id x = id ->
            preserves K (updateSyncStatus_failed error x ;; @throw AirtableRecord error)).
  { intros error x Hx. unfold updateSyncStatus_failed.
    apply preserves_bind; [|intros _; apply preserves_throw].
    apply preserves_bind; [by apply preserves_newDate|]. intros t0.
    apply untouched_save. simpl. congruence. }
  unfold syncResponseToAirtable.
  apply (returning_preserves _ (fun _ => True)).
  eapply returning_bind; [by apply returning_Response_findById|].
  intros found Hfound. apply preserves_returning.
  apply preserves_bind.
  { destruct found; [by apply preserves_Form_findById|apply preserves_ret]. }
  intros populated. destruct found as [response|]; [|apply preserves_throw].
  specialize (Hfound _ eq_refl).
  destruct (decide (status response = Deleted)); [apply preserves_throw|].
  destruct populated as [form|]; [|apply preserves_throw].
  apply preserves_bind; [by apply preserves_User_findById|]. intros user.
  apply preserves_bind; [by apply preserves_expired|]. intros expired.
  destruct user as [u|]; [|apply preserves_throw].
  destruct expired; [apply preserves_throw|].
  apply (returning_preserves _ (fun _ => True)).
  eapply (returning_bind _ (fun written => match written with
                                           | inl a => resp_id (snd a) = id
                                           | inr _ => True
                                           end)).
  - apply (returning_attempt _ (fun a => resp_id (snd a) = id)).
    destruct (decide (status response = Submitted \/ status response = Failed)).
    + eapply returning_bind; [apply preserves_returning, Hcreate|].
      intros record _. by apply returning_ret.
    + eapply returning_bind; [apply preserves_returning, Hupdate|].
      intros record _. by apply returning_ret.
  - intros [[record response1]|error] Hwritten; simpl in Hwritten; apply preserves_returning.
    + apply preserves_bind; [by apply preserves_newDate|]. intros t0.
      apply preserves_bind.
      { apply preserves_attempt, untouched_save. simpl. congruence. }
      intros [?|error]; [apply preserves_ret|]. by apply Hfailed.
    + by apply Hfailed.
Qed.

Lemma untouched_retryFailedSyncs env limit w r :
  storeOk w -> r ∈ responses w -> r ∉ failedResponses limit (responses w) ->
  r ∈ responses (snd (retryFailedSyncs env limit w)).
Proof.
  intros Hok Hr Hout. pose proof (untouched_Frame r) as HF.
  set (K := fun w => r ∈ responses w).
  assert (Heach : forall selected results,
            (forall x, x ∈ selected -> resp_id x <> resp_id r) ->
            preserves K (retryEach env selected results)).
  { induction selected as [|x selected IH]; intros results Hids; simpl;
      [apply preserves_ret|].
    apply preserves_bind; [|intros ?; apply IH; intros y Hy; apply Hids; by right].
    unfold retryOne. apply preserves_bind.
    - apply preserves_attempt.
      apply preserves_bind; [by apply preserves_Form_findById|].
      intros [form|]; [|apply preserves_ret].
      apply preserves_bind; [by apply preserves_User_findById|]. intros user.
      apply preserves_bind; [by apply preserves_expired|]. intros expired.
      destruct user as [u|]; [|apply preserves_ret].
      destruct expired; [apply preserves_ret|].
      apply preserves_bind; [|intros ?; apply preserves_ret].
      apply untouched_syncResponseToAirtable. apply Hids. by left.
    - intros [[results'|]|error].
      + apply preserves_bind; [by apply preserves_sleep|]. intros _. apply preserves_ret.
      + apply preserves_ret.
      + apply preserves_bind; [by apply preserves_sleep|]. intros _. apply preserves_ret. }
  assert (Hids : forall x, x ∈ failedResponses limit (responses w) ->
                           resp_id x <> resp_id r).
  { intros x Hx Hid. apply Hout.
    assert (Hxin : x ∈ responses w).
    { apply elem_of_applyLimit in Hx. apply list_elem_of_In, filter_In in Hx as [Hin _].
      by apply list_elem_of_In. }
    assert (x = r) as ->; [|done].
    destruct Hok as [Hnd _].
    apply list_elem_of_lookup in Hxin as [i Hi]. apply list_elem_of_lookup in Hr as [j Hj].
    assert (i = j) as ->; [|congruence].
    eapply NoDup_lookup; [exact Hnd|..]; rewrite list_lookup_fmap.
    - by rewrite Hi.
    - rewrite Hj. simpl. by rewrite Hid. }
  unfold retryFailedSyncs, tryCatch, bind, Response_findFailed, io.
  destruct (faults w) as [|[msg|] rest] eqn:Hf; simpl.
  - pose proof (Heach _ {| retrySuccess := 0; retryFailed := 0 |} Hids w Hr) as Hrun.
    by destruct (retryEach env _ _ w) as [[?|?|] ?].
  - done.
  - pose proof (Heach _ {| retrySuccess := 0; retryFailed := 0 |} Hids (setFaults rest w) Hr)
      as Hrun.
    by destruct (retryEach env _ _ (setFaults rest w)) as [[?|?|] ?].
Qed.



Example retry_scan :
  map resp_id (failedResponses 100 [failedResponse 1 2; failedResponse 2 3; failedResponse 3 0])
  = [1; 3].
Proof. vm_compute. reflexivity. Qed.

(** *** Webhook ingress *)

Lemma string_length_append (a b : string) :
  String.length (String.append a b) = String.length a + String.length b.
Proof. induction a as [|c a IH]; simpl; [done|]. by rewrite IH. Qed.

Lemma total_of_neverThrows {A} (m : M A) : neverThrows m -> total m.
Proof. intros Hm w. destruct (Hm w) as [a Ha]. by rewrite Ha. Qed.

Lemma total_processWebhook env body : total (processWebhook env body).
Proof.
  unfold processWebhook, handleCreatedRecords, handleUpdatedRecords, handleDeletedRecords,
    Form_find, Response_markAsDeleted, sleep, modify.
  pose proof (fun b t rid => total_of_neverThrows _ (neverThrows_syncSingleRecord env b t rid))
    as Hsync.
  solve_total.
  all: apply total_of_neverThrows, neverThrows_syncSingleRecord.
Qed.

Section WebhookProps.
Context `{Platform}.

Lemma handleWebhook_processing env config req w :
  (truthyString (envSecret config) = false
   \/ verifySignature (serviceSecret config) (jsonStringify (requestBody req))
        (signatureHeader req) = Ok true) ->
  handleWebhook env config req w
  = match processWebhook env (requestBody req) w with
    | (Ok _, w') =>
        (Ok {| replyStatus := 200; success := true;
               replyText := "Webhook processed successfully" |}, w')
    | (Throw error, w') =>
        (Ok {| replyStatus := 200; success := false; replyText := error |}, w')
    | (OutOfFuel, w') => (OutOfFuel, w')
    end.
Proof.
  intros Hpass. unfold handleWebhook, tryCatch, bind, liftOutcome, ret.
  destruct (truthyString (envSecret config)) eqn:Henv.
  - destruct Hpass as [Hoff | ->]; [done|]. simpl.
    by destruct (processWebhook env (requestBody req) w) as [[?|?|] ?].
  - simpl. by destruct (processWebhook env (requestBody req) w) as [[?|?|] ?].
Qed.

(** C10. Without a configured secret [verifySignature] accepts every payload
    and every signature, present or not, and the handler processes the
    request whatever the signature header holds: no check is made. *)
Theorem verification_skipped_without_secret :
  (forall secret payload signature,
     truthyString secret = false -> verifySignature secret payload signature = Ok true)
  /\ (forall env config req w,
        truthyString (envSecret config) = false ->
        handleWebhook env config req w
        = match processWebhook env (requestBody req) w with
          | (Ok _, w') =>
              (Ok {| replyStatus := 200; success := true;
                     replyText := "Webhook processed successfully" |}, w')
          | (Throw error, w') =>
              (Ok {| replyStatus := 200; success := false; replyText := error |}, w')
          | (OutOfFuel, w') => (OutOfFuel, w')
          end)
  /\ (forall env config body signature signature' w,
        truthyString (envSecret config) = false ->
        handleWebhook env config {| signatureHeader := signature; requestBody := body |} w
        = handleWebhook env config {| signatureHeader := signature'; requestBody := body |} w).
Proof.
  split_and!.
  - intros [secret|] payload signature Hs; [|done]. simpl in *.
    apply negb_false_iff in Hs. by rewrite Hs.
  - intros env config req w Hs. apply handleWebhook_processing. by left.
  - intros env config body signature signature' w Hs.
    rewrite !handleWebhook_processing by (by left). done.
Qed.

(** C2 (amended). With a secret configured, a request whose signature header
    has the byte length of the expected digest and differs from it is
    answered 401 and nothing is processed. For every request that passes the
    check, or when no secret is configured, an exception raised by the
    processing is answered 200 with [success = false] and the error text.
    Whatever happens, the handler answers 200 or 401. *)
Theorem handleWebhook_replies :
  (forall env config req w secret signature,
     truthyString (envSecret config) = true ->
     serviceSecret config = Some secret -> secret <> "" ->
     signatureHeader req = Some signature ->
     String.length signature
     = String.length (hmacSha256Hex secret (jsonStringify (requestBody req))) ->
     signature <> hmacSha256Hex secret (jsonStringify (requestBody req)) ->
     handleWebhook env config req w
     = (Ok {| replyStatus := 401; success := false; replyText := "Invalid signature" |}, w))
  /\ (forall env config req w error w',
        (truthyString (envSecret config) = false
         \/ verifySignature (serviceSecret config) (jsonStringify (requestBody req))
              (signatureHeader req) = Ok true) ->
        processWebhook env (requestBody req) w = (Throw error, w') ->
        handleWebhook env config req w
        = (Ok {| replyStatus := 200; success := false; replyText := error |}, w'))
  /\ (forall env config req w,
        exists reply w',
          handleWebhook env config req w = (Ok reply, w')
          /\ (replyStatus reply = 200 \/ replyStatus reply = 401)).
Proof.
  split_and!.
  - intros env config req w secret signature Henv Hsecret Hne Hsig Hlen Hdiff.
    unfold handleWebhook, tryCatch, bind, liftOutcome, verifySignature, timingSafeEqual.
    rewrite Henv, Hsecret, Hsig, Hlen, Nat.eqb_refl.
    apply String.eqb_neq in Hne, Hdiff. by rewrite Hne, Hdiff.
  - intros env config req w error w' Hpass Hrun.
    rewrite handleWebhook_processing by done. by rewrite Hrun.
  - intros env config req w.
    unfold handleWebhook, tryCatch, bind, liftOutcome, ret.
    pose proof (total_processWebhook env (requestBody req)) as Htotal.
    assert (Hproc : forall w0, exists reply w',
              match processWebhook env (requestBody req) w0 with
              | (Ok _, w1) =>
                  (Ok {| replyStatus := 200; success := true;
                         replyText := "Webhook processed successfully" |}, w1)
              | (Throw msg, w1) =>
                  (Ok {| replyStatus := 200; success := false; replyText := msg |}, w1)
              | (OutOfFuel, w1) => (OutOfFuel, w1)
              end = (Ok reply, w') /\ (replyStatus reply = 200 \/ replyStatus reply = 401)).
    { intros w0. specialize (Htotal w0).
      destruct (processWebhook env (requestBody req) w0) as [[?|?|] w1]; [| |done];
        eexists _, _; (split; [reflexivity|by left]). }
    destruct (truthyString (envSecret config)).
    + destruct (verifySignature _ _ _) as [[|]|msg|] eqn:Hv; simpl.
      * destruct (Hproc w) as (reply & w' & Heq & Hst).
        exists reply, w'. split; [|done]. rewrite <- Heq.
        by destruct (processWebhook env (requestBody req) w) as [[?|?|] ?].
      * eexists _, _. split; [reflexivity|by right].
      * eexists _, _. split; [reflexivity|by left].
      * unfold verifySignature, timingSafeEqual in Hv. repeat case_match; simplify_eq.
    + simpl. destruct (Hproc w) as (reply & w' & Heq & Hst).
      exists reply, w'. split; [|done]. rewrite <- Heq.
      by destruct (processWebhook env (requestBody req) w) as [[?|?|] ?].
Qed.

End WebhookProps.

Lemma verification_skipped_without_secret_witness :
  @verifySignature refPlatform None "payload" (Some "forged") = Ok true
  /\ @handleWebhook refPlatform (pagedEnv [] 10) noSecretConfig
       {| signatureHeader := Some "forged"; requestBody := deleteEvent ["recA"] |}
       (worldWith 2000 [linkedA])
     = @handleWebhook refPlatform (pagedEnv [] 10) noSecretConfig
         {| signatureHeader := None; requestBody := deleteEvent ["recA"] |}
         (worldWith 2000 [linkedA]).
Proof.
  split.
  - apply (proj1 (@verification_skipped_without_secret refPlatform)). reflexivity.
  - apply (proj2 (proj2 (@verification_skipped_without_secret refPlatform))). reflexivity.
Defined.

Lemma handleWebhook_replies_witness :
  @handleWebhook refPlatform (pagedEnv [] 10) secretConfig
    {| signatureHeader := Some "s3cretdeletedRecordX"; requestBody := deleteEvent ["recA"] |}
    (worldWith 2000 [linkedA])
  = (Ok {| replyStatus := 401; success := false; replyText := "Invalid signature" |},
     worldWith 2000 [linkedA]).
Proof.
  apply (proj1 (@handleWebhook_replies refPlatform) _ _ _ _ "s3cret" "s3cretdeletedRecordX");
    try reflexivity; discriminate.
Defined.

(** C2 as stated fails when no secret is configured: a request whose signature
    matches the digest of its payload under no secret at all is answered 200,
    and its event is processed (the linked Response is marked deleted). *)
Lemma handleWebhook_unsigned_processed :
  let req := {| signatureHeader := Some "forged"; requestBody := deleteEvent ["recA"] |} in
  let run := @handleWebhook refPlatform (pagedEnv [] 10) noSecretConfig req
               (worldWith 2000 [linkedA]) in
  (forall secret,
     @hmacSha256Hex refPlatform secret (@jsonStringify refPlatform (requestBody req))
     <> "forged")
  /\ fst run = Ok {| replyStatus := 200; success := true;
                     replyText := "Webhook processed successfully" |}
  /\ map status (responses (snd run)) = [Deleted]
  /\ responses (snd run) <> responses (worldWith 2000 [linkedA]).
Proof.
  split_and!.
  - intros secret Heq. apply (f_equal String.length) in Heq.
    simpl in Heq. rewrite string_length_append in Heq. simpl in Heq. lia.
  - vm_compute. reflexivity.
  - vm_compute. reflexivity.
  - vm_compute. discriminate.
Qed.

(** With a secret configured, a signature of another length than the digest
    makes [timingSafeEqual] raise: the handler answers 200 with the error
    text, not 401, and processes nothing. *)
Example handleWebhook_short_signature :
  @handleWebhook refPlatform (pagedEnv [] 10) secretConfig
    {| signatureHeader := Some "forged"; requestBody := deleteEvent ["recA"] |}
    (worldWith 2000 [linkedA])
  = (Ok {| replyStatus := 200; success := false;
           replyText := "RangeError [ERR_CRYPTO_TIMING_SAFE_EQUAL_LENGTH]: Input buffers must have the same byte length" |},
     worldWith 2000 [linkedA]).
Proof. vm_compute. reflexivity. Qed.

(** *** Visibility of questions *)

Section VisibilityProps.
Context `{JsBuiltins}.

Lemma evaluateCondition_missing (answers : gmap string jsval) c :
  isMissing (answerOf answers (c_questionKey c)) = true ->
  evaluateCondition answers c = false.
Proof.
  intros Hmiss. unfold evaluateCondition. rewrite Hmiss.
  by destruct (operators (c_operator c)).
Qed.

Lemma shouldShowQuestion_conditionsOf (answers : gmap string jsval) question :
  shouldShowQuestion (conditionalRules question) answers
  = match conditionsOf question with
    | [] => true
    | conds =>
        match conditionalRules question with
        | Some r =>
            if String.eqb (logic r) "OR"
            then existsb (fun result => Bool.eqb result true)
                         (map (evaluateCondition answers) conds)
            else forallb (fun result => Bool.eqb result true)
                         (map (evaluateCondition answers) conds)
        | None => true
        end
    end.
Proof.
  unfold shouldShowQuestion, conditionsOf.
  destruct (conditionalRules question) as [r|]; [|done].
  by destruct (conditions r) as [[|c conds]|].
Qed.

Lemma shouldShowQuestion_unanswered (answers : gmap string jsval) question :
  (forall c, c ∈ conditionsOf question ->
             isMissing (answerOf answers (c_questionKey c)) = true) ->
  shouldShowQuestion (conditionalRules question) answers = hasNoConditions question.
Proof.
  intros Hmiss. rewrite shouldShowQuestion_conditionsOf. unfold hasNoConditions.
  destruct (conditionsOf question) as [|c conds] eqn:Hconds; [done|].
  assert (Hall : forall c', c' ∈ c :: conds -> evaluateCondition answers c' = false)
    by (intros c' Hc'; by apply evaluateCondition_missing, Hmiss).
  destruct (conditionalRules question) as [r|] eqn:Hrules.
  - destruct (String.eqb (logic r) "OR").
    + apply not_true_iff_false. intros (b & Hin & Hb)%existsb_exists.
      apply in_map_iff in Hin as (c' & <- & Hc'%list_elem_of_In).
      rewrite (Hall c' Hc') in Hb. done.
    + simpl. rewrite (Hall c) by left. done.
  - unfold conditionsOf in Hconds. by rewrite Hrules in Hconds.
Qed.


(** *** Validation of rules *)

Lemma validateCondition_accepts available index condition :
  validateCondition available index condition = []
  <-> truthy (cd_questionKey condition) = true
      /\ arrayIncludes available (cd_questionKey condition) = true
      /\ truthy (cd_operator condition) = true
      /\ hasOperatorEntry (cd_operator condition) = true
      /\ cd_value condition <> JUndefined /\ cd_value condition <> JNull.
Proof.
  unfold validateCondition.
  destruct (truthy (cd_questionKey condition)),
           (arrayIncludes available (cd_questionKey condition)),
           (truthy (cd_operator condition)),
           (hasOperatorEntry (cd_operator condition)),
           (cd_value condition); simpl; naive_solver.
Qed.

Lemma concat_imap_nil {A B} (f : nat -> A -> list B) (l : list A) :
  concat (imap f l) = [] <-> forall i x, l !! i = Some x -> f i x = [].
Proof.
  revert f. induction l as [|x l IH]; intros f; simpl.
  - split; [by intros _ i y ?|done].
  - split.
    + intros [Hx Hl]%app_eq_nil i y Hi. destruct i as [|i]; simpl in Hi.
      * by inversion Hi; subst.
      * by apply (proj1 (IH (f ∘ S)) Hl i y).
    + intros Hall. apply app_nil. split; [by apply (Hall 0)|].
      apply IH. intros i y Hi. by apply (Hall (S i)).
Qed.

(** X2. [validateRules] accepts an absent rule. It accepts a rule exactly
    when its logic is AND or OR, its conditions are a non-empty array, and
    every condition has a truthy question key that is one of the available
    keys, a truthy operator with an entry in the operator table (the six
    operators, or a name inherited from [Object.prototype]) and a value that
    is neither [undefined] nor [null]; and it reports errors exactly when it
    rejects. *)
Theorem validateRules_accepts (available : list jsval) :
  validateRules None available = {| rulesValid := true; rulesErrors := None |}
  /\ (forall rules,
        rulesValid (validateRules (Some rules) available) = true
        <-> (rd_logic rules = JStr "AND" \/ rd_logic rules = JStr "OR")
            /\ exists conditions,
                 rd_conditions rules = Some conditions /\ conditions <> []
                 /\ forall condition, condition ∈ conditions ->
                      truthy (cd_questionKey condition) = true
                      /\ arrayIncludes available (cd_questionKey condition) = true
                      /\ truthy (cd_operator condition) = true
                      /\ hasOperatorEntry (cd_operator condition) = true
                      /\ cd_value condition <> JUndefined
                      /\ cd_value condition <> JNull)
  /\ (forall rules,
        rulesValid (validateRules rules available) = true
        <-> rulesErrors (validateRules rules available) = None).
Proof.
  assert (Hlogic : forall v,
            arrayIncludes [JStr "AND"; JStr "OR"] v = true
            <-> v = JStr "AND" \/ v = JStr "OR").
  { intros v. unfold arrayIncludes. cbn [existsb].
    destruct v; cbn [sameValueZero]; try (cbn; naive_solver).
    rewrite orb_false_r, orb_true_iff, !String.eqb_eq. naive_solver. }
  split_and!; [done| |].
  - intros rules. unfold validateRules.
    destruct (rd_conditions rules) as [[|c conds]|] eqn:Hconds;
      [simpl; naive_solver| |simpl; naive_solver].
    cbv zeta. cbn [rulesValid]. rewrite Nat.eqb_eq, length_zero_iff_nil.
    rewrite app_nil, concat_imap_nil. split.
    + intros [Hl Hall]. split.
      * apply Hlogic. by destruct (arrayIncludes _ (rd_logic rules)).
      * exists (c :: conds). split; [done|]. split; [done|].
        intros condition (i & Hi)%list_elem_of_lookup.
        by apply (validateCondition_accepts available i), (Hall i).
    + intros [Hl (conditions & [= <-] & _ & Hall)]. split.
      * apply Hlogic in Hl. by rewrite Hl.
      * intros i x Hi. apply validateCondition_accepts, Hall.
        by eapply list_elem_of_lookup_2.
  - intros [rules|]; [|done]. unfold validateRules.
    destruct (rd_conditions rules) as [[|c conds]|]; [done| |done].
    cbv zeta. cbn [rulesValid rulesErrors].
    destruct (_ ++ _) as [|e es]; simpl; naive_solver.
Qed.

End VisibilityProps.


Lemma validateRules_accepts_witness :
  rulesValid (@validateRules refBuiltins
                (Some {| rd_logic := JStr "OR";
                         rd_conditions := Some [{| cd_questionKey := JStr "plan";
                                                   cd_operator := JStr "equals";
                                                   cd_value := JStr "pro" |}] |})
                [JStr "name"; JStr "plan"]) = true.
Proof.
  apply (proj1 (proj2 (@validateRules_accepts refBuiltins [JStr "name"; JStr "plan"]))).
  split; [by right|]. eexists. split; [reflexivity|]. split; [discriminate|].
  intros condition ->%list_elem_of_singleton. simpl.
  split_and!; try reflexivity; discriminate.
Defined.

(** *** Dependents of a question *)

Lemma setAdd_spec x set k : k ∈ setAdd x set <-> k ∈ set \/ k = x.
Proof.
  unfold setAdd. case_decide; [naive_solver|].
  rewrite elem_of_app, list_elem_of_singleton. done.
Qed.

Lemma setAdd_NoDup x set : NoDup set -> NoDup (setAdd x set).
Proof.
  intros Hnd. unfold setAdd. case_decide; [done|].
  apply NoDup_app. split; [done|]. split; [|apply NoDup_singleton].
  by intros y Hy ->%list_elem_of_singleton.
Qed.

Lemma dependents_of_conditions target key conds set :
  let set' := fold_left (fun set condition =>
                           if String.eqb (c_questionKey condition) target
                           then setAdd key set else set) conds set in
  (NoDup set -> NoDup set')
  /\ forall k, k ∈ set'
               <-> k ∈ set \/ (k = key /\ exists c, c ∈ conds /\ c_questionKey c = target).
Proof.
  revert set. induction conds as [|c conds IH]; intros set; simpl.
  - split; [done|]. intros k. split; [by left|].
    by intros [?|(_ & c & ?%elem_of_nil & _)].
  - destruct (IH (if String.eqb (c_questionKey c) target then setAdd key set else set))
      as [Hnd Hin].
    split.
    + intros Hset. apply Hnd. destruct (String.eqb _ _); [by apply setAdd_NoDup|done].
    + intros k. rewrite Hin.
      destruct (String.eqb_spec (c_questionKey c) target) as [Heq|Hne].
      * rewrite setAdd_spec. split.
        -- intros [[?| ->]| (-> & c' & Hc' & Ht)]; [by left|right..].
           ++ split; [done|]. exists c. split; [left|done].
           ++ split; [done|]. exists c'. split; [by right|done].
        -- intros [?| (-> & c' & Hc' & Ht)]; [by left; left|]. left. by right.
      * split.
        -- intros [?| (-> & c' & Hc' & Ht)]; [by left|right].
           split; [done|]. exists c'. split; [by right|done].
        -- intros [?| (-> & c' & Hc' & Ht)]; [by left|right].
           split; [done|]. exists c'. split; [|done].
           apply elem_of_cons in Hc' as [->|?]; [done|done].
Qed.

Lemma dependents_of_questions target qs set :
  let set' := fold_left
                (fun dependentQuestions question =>
                   fold_left (fun set condition =>
                                if String.eqb (c_questionKey condition) target
                                then setAdd (questionKey question) set else set)
                             (conditionsOf question) dependentQuestions) qs set in
  (NoDup set -> NoDup set')
  /\ forall k, k ∈ set'
               <-> k ∈ set \/ exists q, q ∈ qs /\ questionKey q = k
                                        /\ exists c, c ∈ conditionsOf q
                                                     /\ c_questionKey c = target.
Proof.
  revert set. induction qs as [|q qs IH]; intros set; simpl.
  - split; [done|]. intros k. split; [by left|].
    by intros [?|(q & ?%elem_of_nil & _)].
  - destruct (dependents_of_conditions target (questionKey q) (conditionsOf q) set)
      as [Hnd1 Hin1].
    match goal with
    | |- context [fold_left _ qs ?s] => destruct (IH s) as [Hnd Hin]
    end.
    split; [by intros ?; apply Hnd, Hnd1|].
    intros k. rewrite Hin, Hin1. split.
    + intros [[?| (-> & c & Hc & Ht)]|(q' & Hq' & Hk & Hc)]; [by left|right..].
      * exists q. split; [left|]. split; [done|]. by exists c.
      * exists q'. split; [by right|done].
    + intros [?|(q' & Hq' & Hk & c & Hc & Ht)]; [by left; left|].
      apply elem_of_cons in Hq' as [->|Hq'].
      * left. right. split; [done|]. by exists c.
      * right. exists q'. split; [done|]. split; [done|]. by exists c.
Qed.



(** *** Both directions of the dependency graph *)

Lemma obj_set_Forall {V} (P : V -> Prop) (o : list (string * V)) k v :
  Forall (fun kv => P (snd kv)) o -> P v -> Forall (fun kv => P (snd kv)) (obj_set o k v).
Proof.
  intros Ho Hv. induction o as [|[k0 v0] o IH]; simpl.
  - by repeat constructor.
  - apply Forall_cons in Ho as [H0 Ho].
    destruct (String.eqb k0 k); constructor; auto.
Qed.

Lemma initGraph_dependsOn qs graph k :
  Forall (fun kv => dependsOn (snd kv) = []) graph ->
  dependsOnOf (fold_left (fun graph question =>
                 obj_set graph (questionKey question) {| dependsOn := []; dependentBy := [] |})
                 qs graph) k = [].
Proof.
  revert graph. induction qs as [|q qs IH]; intros graph Hall; simpl.
  - unfold dependsOnOf, obj_get.
    destruct (List.find _ graph) as [kv|] eqn:Hfind; [|done]. simpl.
    apply find_some in Hfind as [Hin _]. rewrite Forall_forall in Hall.
    by apply Hall, list_elem_of_In.
  - apply IH. by apply (obj_set_Forall (fun n => dependsOn n = [])).
Qed.

Lemma addDependency_dependsOn d graph c a b :
  b ∈ dependsOnOf (addDependency d graph c) a
  <-> b ∈ dependsOnOf graph a
      \/ (a = d /\ b = c_questionKey c /\ b ∈ map fst graph /\ d ∈ map fst graph).
Proof.
  unfold addDependency, dependsOnOf.
  destruct (obj_get graph (c_questionKey c)) as [n|] eqn:Hget.
  - assert (Hkey : c_questionKey c ∈ map fst graph) by (apply obj_get_is_Some; eauto).
    rewrite !obj_get_alter.
    destruct (obj_get graph a) as [na|] eqn:Ha.
    + assert (Hain : a ∈ map fst graph) by (apply obj_get_is_Some; eauto).
      repeat case_decide; subst; simpl; rewrite ?elem_of_app, ?list_elem_of_singleton;
        naive_solver.
    + apply obj_get_None in Ha.
      repeat case_decide; subst; simpl; rewrite ?elem_of_nil; naive_solver.
  - apply obj_get_None in Hget. naive_solver.
Qed.

Lemma addDependencies_dependsOn d cs graph a b :
  b ∈ dependsOnOf (fold_left (addDependency d) cs graph) a
  <-> b ∈ dependsOnOf graph a
      \/ (a = d /\ d ∈ map fst graph /\ b ∈ map fst graph
          /\ exists c, c ∈ cs /\ c_questionKey c = b).
Proof.
  revert graph. induction cs as [|c cs IH]; intros graph; simpl.
  - split; [by left|]. by intros [?|(_ & _ & _ & c & ?%elem_of_nil & _)].
  - rewrite IH, addDependency_dependsOn, addDependency_keys. split.
    + intros [[?| (-> & -> & ? & ?)]| (-> & ? & ? & c' & Hc' & <-)]; [by left|right..].
      * split_and!; try done. exists c. split; [left|done].
      * split_and!; try done. exists c'. split; [by right|done].
    + intros [?| (-> & ? & ? & c' & Hc' & <-)]; [by left; left|].
      apply elem_of_cons in Hc' as [->|Hc'].
      * left. right. done.
      * right. split_and!; try done. by exists c'.
Qed.

Lemma addQuestions_dependsOn qs graph a b :
  b ∈ dependsOnOf (fold_left (fun graph question =>
                     fold_left (addDependency (questionKey question))
                               (conditionsOf question) graph) qs graph) a
  <-> b ∈ dependsOnOf graph a
      \/ (a ∈ map fst graph /\ b ∈ map fst graph
          /\ exists q, q ∈ qs /\ questionKey q = a
                       /\ exists c, c ∈ conditionsOf q /\ c_questionKey c = b).
Proof.
  revert graph. induction qs as [|q qs IH]; intros graph; simpl.
  - split; [by left|]. by intros [?|(_ & _ & q & ?%elem_of_nil & _)].
  - rewrite IH, addDependencies_dependsOn, addDependencies_keys. split.
    + intros [[?| (-> & ? & ? & c & Hc & <-)]|(? & ? & q' & Hq' & <- & c & Hc & <-)];
        [by left|right..].
      * split_and!; try done. exists q. split; [left|]. split; [done|]. by exists c.
      * split_and!; try done. exists q'. split; [by right|]. split; [done|]. by exists c.
    + intros [?|(? & ? & q' & Hq' & <- & c & Hc & <-)]; [by left; left|].
      apply elem_of_cons in Hq' as [->|Hq'].
      * left. right. split_and!; try done. by exists c.
      * right. split_and!; try done. exists q'. split; [done|]. split; [done|].
        by exists c.
Qed.



(** *** Supported fields *)

Lemma isSupportedAirtableType_spec t :
  isSupportedAirtableType t = true <-> t ∈ tableTypes.
Proof.
  unfold isSupportedAirtableType. rewrite existsb_exists. split.
  - intros (k & Hk & ->%String.eqb_eq). apply list_elem_of_In in Hk.
    revert Hk. apply (Forall_forall (fun k => k ∈ tableTypes)).
    apply (bool_decide_unpack _). vm_compute. reflexivity.
  - intros Ht. exists t. split; [|apply String.eqb_refl].
    apply list_elem_of_In. revert Ht. apply (Forall_forall (fun k => k ∈ objectKeys airtableTypeMap)).
    apply (bool_decide_unpack _). vm_compute. reflexivity.
Qed.

Lemma mappedTypeOf_supported t ty : mappedTypeOf t = Some ty -> ty ∈ supportedTypes.
Proof.
  unfold mappedTypeOf, supportedTypes.
  repeat match goal with
  | |- context [String.eqb t ?s] => destruct (String.eqb t s)
  end; simpl; intros [= <-]; set_solver.
Qed.

(** X5. [getSupportedFields] keeps, in order, exactly the mapped fields to
    which [mapAirtableField] gave a type; that type is one of the supported
    question types, and a question of that type for such a field passes the
    field check of [validateQuestions]. *)
Theorem getSupportedFields_mapped (rawFields : list AirtableField) :
  getSupportedFields (map mapAirtableField rawFields)
  = List.filter (fun field => bool_decide (is_Some (field_type field)))
                (map mapAirtableField rawFields)
  /\ (forall field, field ∈ getSupportedFields (map mapAirtableField rawFields) ->
        exists type, field_type field = Some type /\ type ∈ supportedTypes
                     /\ forall key fields,
                          findField fields (questionFor key field type) = Some field ->
                          checkAgainstField (questionFor key field type) fields = []
                          /\ checkType (questionFor key field type) = []).
Proof.
  assert (Hkeep : forall raw,
            isSupportedAirtableType (airtableType (mapAirtableField raw))
            = bool_decide (is_Some (field_type (mapAirtableField raw)))).
  { intros raw. simpl. apply eq_true_iff_eq.
    rewrite isSupportedAirtableType_spec, bool_decide_eq_true. split.
    - apply mappedTypeOf_inside.
    - intros [ty Hty]. destruct (decide (af_type raw ∈ tableTypes)) as [|Hout]; [done|].
      by rewrite mappedTypeOf_outside in Hty. }
  split.
  - unfold getSupportedFields. apply List.filter_ext_in.
    intros field (raw & <- & _)%in_map_iff. apply Hkeep.
  - intros field Hfield. unfold getSupportedFields in Hfield.
    apply list_elem_of_In, filter_In in Hfield as [Hin Hsup].
    apply in_map_iff in Hin as (raw & <- & _).
    rewrite Hkeep in Hsup. apply bool_decide_eq_true in Hsup as [ty Hty].
    exists ty. split; [done|]. simpl in Hty.
    pose proof (mappedTypeOf_supported _ _ Hty) as Hsupported.
    split; [done|]. intros key fields Hfind. split.
    + unfold checkAgainstField. rewrite Hfind. simpl. rewrite Hty. simpl.
      by rewrite String.eqb_refl.
    + unfold checkType, isSupportedType. simpl d_type.
      assert (Hex : existsb (fun t => strictEqString t (JStr ty)) supportedTypes = true).
      { apply existsb_exists. exists ty. split; [by apply list_elem_of_In|].
        simpl. apply String.eqb_refl. }
      rewrite Hex.
      assert (Hne : ty <> "").
      { intros ->. revert Hsupported. apply (bool_decide_unpack _). vm_compute. reflexivity. }
      apply String.eqb_neq in Hne. simpl. by rewrite Hne.
Qed.

Lemma getSupportedFields_mapped_witness :
  exists type,
    field_type (mapAirtableField
                  {| af_id := "fldName"; af_name := "Name"; af_description := JUndefined;
                     af_type := "singleLineText"; af_options := None |}) = Some type
    /\ type ∈ supportedTypes.
Proof.
  destruct (proj2 (getSupportedFields_mapped
                     [checkboxColumn;
                      {| af_id := "fldName"; af_name := "Name"; af_description := JUndefined;
                         af_type := "singleLineText"; af_options := None |}])
              (mapAirtableField
                 {| af_id := "fldName"; af_name := "Name"; af_description := JUndefined;
                    af_type := "singleLineText"; af_options := None |}))
    as (type & Htype & Hsupported & _).
  - apply list_elem_of_In. vm_compute. left. reflexivity.
  - exists type. split; [exact Htype|exact Hsupported].
Defined.

(** *** What an accepted question list guarantees *)

Lemma setHas_snoc s x v : setHas (s ++ [x]) v = setHas s v || sameValueZero x v.
Proof. unfold setHas. rewrite existsb_app. simpl. by rewrite orb_false_r. Qed.

Lemma validateEach_nil_inv fields index q qs used errs :
  validateEach fields index (q :: qs) used errs = [] ->
  errs = [] /\ fst (validateQuestion fields q used) = []
  /\ validateEach fields (S index) qs (snd (validateQuestion fields q used)) [] = [].
Proof.
  simpl. destruct (validateQuestion fields q used) as [es used'] eqn:Hq. simpl.
  destruct (validateEach_extends fields qs (S index) used'
              (errs ++ map (fun e => (index, e)) es)) as [more Hmore].
  intros Hnil. rewrite Hmore in Hnil. apply app_nil in Hnil as [Hpre Hm].
  apply app_nil in Hpre as [-> Hes]. apply fmap_nil_inv in Hes as ->.
  simpl in Hmore. by rewrite Hmore, Hm.
Qed.

Lemma checkQuestionKey_nil q used used' :
  checkQuestionKey q used = ([], used') ->
  exists key, d_questionKey q = JStr key /\ key <> ""
              /\ setHas (usedQuestionKeys used) (JStr key) = false
              /\ used' = {| usedQuestionKeys := usedQuestionKeys used ++ [JStr key];
                            usedAirtableIds := usedAirtableIds used |}.
Proof.
  unfold checkQuestionKey. intros Hnil.
  destruct (isStringValue (d_questionKey q)) eqn:Hstr;
    [|simpl in Hnil; rewrite orb_true_r in Hnil; discriminate].
  destruct (d_questionKey q) as [| |b|x|key|items|props]; try discriminate Hstr.
  simpl in Hnil. rewrite orb_false_r in Hnil.
  destruct (String.eqb_spec key "") as [->|Hne]; [discriminate|]. simpl in Hnil.
  destruct (setHas (usedQuestionKeys used) (JStr key)) eqn:Hhas; [discriminate|].
  injection Hnil as <-. by exists key.
Qed.

Lemma checkFieldId_nil q used used' :
  checkFieldId q used = ([], used') ->
  setHas (usedAirtableIds used) (d_airtableFieldId q) = false
  /\ used' = {| usedQuestionKeys := usedQuestionKeys used;
                usedAirtableIds := usedAirtableIds used ++ [d_airtableFieldId q] |}.
Proof.
  unfold checkFieldId. destruct (truthy (d_airtableFieldId q)); [|discriminate]. simpl.
  destruct (setHas (usedAirtableIds used) (d_airtableFieldId q)); [discriminate|].
  by intros [= <-].
Qed.

Lemma checkType_nil q :
  checkType q = [] -> exists type, d_type q = JStr type /\ type ∈ supportedTypes.
Proof.
  unfold checkType, isSupportedType.
  destruct (existsb _ supportedTypes) eqn:Hex;
    [|by rewrite orb_true_r].
  apply existsb_exists in Hex as (type & Hin & Heq). intros _.
  exists type. split; [|by apply list_elem_of_In].
  destruct (d_type q); try discriminate. simpl in Heq.
  apply String.eqb_eq in Heq. by subst.
Qed.

Lemma checkAgainstField_nil q fields type :
  d_type q = JStr type ->
  checkAgainstField q fields = [] ->
  exists field, findField fields q = Some field
                /\ (field_type field = Some type
                    \/ mappedTypeOf (airtableType field) = Some type).
Proof.
  intros Htype. unfold checkAgainstField.
  destruct (findField fields q) as [field|]; [|discriminate].
  rewrite Htype, airtableTypeMap_mappedTypeOf. intros Hnil. exists field. split; [done|].
  assert (Hmapped : strictEqOptional (mappedTypeOf (airtableType field)) (JStr type) = true
                    -> mappedTypeOf (airtableType field) = Some type).
  { destruct (mappedTypeOf (airtableType field)) as [m|]; simpl; [|discriminate].
    by intros ->%String.eqb_eq. }
  destruct (field_type field) as [t|] eqn:Hft; simpl in Hnil.
  - destruct (String.eqb_spec t type) as [->|Hne]; [by left|]. simpl in Hnil.
    right. apply Hmapped. by destruct (strictEqOptional _ _).
  - right. apply Hmapped. by destruct (strictEqOptional _ _).
Qed.

Lemma findField_id fields q field :
  findField fields q = Some field -> d_airtableFieldId q = JStr (field_id field).
Proof.
  unfold findField. intros [_ Heq]%find_some.
  destruct (d_airtableFieldId q); try discriminate.
  simpl in Heq. apply String.eqb_eq in Heq. by subst.
Qed.

Lemma checkOptions_nil q :
  checkOptions q = [] ->
  d_type q = JStr "singleSelect" \/ d_type q = JStr "multiSelect" ->
  exists options, d_options q = Some options /\ options <> []
    /\ forall option, option ∈ options ->
         (exists value, od_value option = JStr value /\ value <> "")
         /\ (exists label, od_label option = JStr label /\ label <> "").
Proof.
  intros Hnil Hselect. unfold checkOptions in Hnil.
  assert (Hsel : strictEqString "singleSelect" (d_type q)
                 || strictEqString "multiSelect" (d_type q) = true)
    by (destruct Hselect as [-> | ->]; reflexivity).
  rewrite Hsel in Hnil.
  destruct (d_options q) as [[|o options]|]; try discriminate.
  exists (o :: options). split; [done|]. split; [done|].
  intros option (i & Hi)%list_elem_of_lookup.
  assert (Hopt : checkOption i option = [])
    by apply (proj1 (concat_imap_nil checkOption (o :: options)) Hnil i option Hi).
  unfold checkOption in Hopt. apply app_nil in Hopt as [Hv Hl].
  split.
  - destruct (isStringValue (od_value option)) eqn:Hstr;
      [|simpl in Hv; rewrite orb_true_r in Hv; discriminate].
    destruct (od_value option) as [| | | |value| |]; try discriminate Hstr.
    exists value. split; [done|]. intros ->. discriminate.
  - destruct (isStringValue (od_label option)) eqn:Hstr;
      [|simpl in Hl; rewrite orb_true_r in Hl; discriminate].
    destruct (od_label option) as [| | | |label| |]; try discriminate Hstr.
    exists label. split; [done|]. intros ->. discriminate.
Qed.

Lemma validateQuestion_nil fields q used :
  fst (validateQuestion fields q used) = [] ->
  (exists key, d_questionKey q = JStr key /\ key <> ""
               /\ setHas (usedQuestionKeys used) (JStr key) = false)
  /\ setHas (usedAirtableIds used) (d_airtableFieldId q) = false
  /\ snd (validateQuestion fields q used)
     = {| usedQuestionKeys := usedQuestionKeys used ++ [d_questionKey q];
          usedAirtableIds := usedAirtableIds used ++ [d_airtableFieldId q] |}
  /\ checkType q = [] /\ checkAgainstField q fields = [] /\ checkOptions q = [].
Proof.
  unfold validateQuestion.
  destruct (checkQuestionKey q used) as [e1 used1] eqn:H1.
  destruct (checkFieldId q used1) as [e2 used2] eqn:H2. simpl.
  intros Hnil.
  apply app_nil in Hnil as [-> Hnil]. apply app_nil in Hnil as [-> Hnil].
  apply app_nil in Hnil as [_ Hnil]. apply app_nil in Hnil as [Hty Hnil].
  apply app_nil in Hnil as [_ Hnil]. apply app_nil in Hnil as [Hfld Hnil].
  apply app_nil in Hnil as [Hopt _].
  apply checkQuestionKey_nil in H1 as (key & Hkey & Hne & Hhas & ->).
  apply checkFieldId_nil in H2 as [Hid ->]. simpl in *.
  split; [by exists key|]. rewrite Hkey. done.
Qed.

Lemma validateEach_accepts fields qs :
  forall index used,
    validateEach fields index qs used [] = [] ->
    exists keys ids,
      map d_questionKey qs = map JStr keys
      /\ map d_airtableFieldId qs = map JStr ids
      /\ NoDup keys /\ NoDup ids /\ ("" ∉ keys)
      /\ (forall k, k ∈ keys -> setHas (usedQuestionKeys used) (JStr k) = false)
      /\ (forall i, i ∈ ids -> setHas (usedAirtableIds used) (JStr i) = false)
      /\ forall q, q ∈ qs ->
           checkType q = [] /\ checkAgainstField q fields = [] /\ checkOptions q = [].
Proof.
  induction qs as [|q qs IH]; intros index used Hnil.
  - exists [], []. repeat (split; [first [done|constructor|by intros ?%elem_of_nil
                                         |by intros ? ?%elem_of_nil]|]).
    by intros ? ?%elem_of_nil.
  - apply validateEach_nil_inv in Hnil as (_ & Hq & Hrest).
    apply validateQuestion_nil in Hq
      as ((key & Hkey & Hne & Hkhas) & Hihas & Hused & Hty & Hfld & Hopt).
    rewrite Hused in Hrest.
    destruct (IH _ _ Hrest) as (keys & ids & Hkeys & Hids & Hnk & Hni & Hempty & Hku & Hiu & Hall).
    destruct (checkType_nil q Hty) as (type & Htype & _).
    destruct (checkAgainstField_nil q fields type Htype Hfld) as (field & Hfind & _).
    pose proof (findField_id _ _ _ Hfind) as Hid.
    simpl in Hku, Hiu.
    exists (key :: keys), (field_id field :: ids). simpl. rewrite Hkey, Hid, Hkeys, Hids.
    split_and!; try done.
    + apply NoDup_cons. split; [|done]. intros Hin. specialize (Hku key Hin).
      rewrite setHas_snoc, Hkey in Hku. simpl in Hku. by rewrite String.eqb_refl, orb_true_r in Hku.
    + apply NoDup_cons. split; [|done]. intros Hin. specialize (Hiu _ Hin).
      rewrite setHas_snoc, Hid in Hiu. simpl in Hiu. by rewrite String.eqb_refl, orb_true_r in Hiu.
    + intros [Heq|Hin]%elem_of_cons; [by subst|done].
    + intros k [->|Hin]%elem_of_cons; [done|].
      specialize (Hku k Hin). rewrite setHas_snoc in Hku. by apply orb_false_iff in Hku as [? _].
    + intros i [->|Hin]%elem_of_cons; [by rewrite <- Hid|].
      specialize (Hiu i Hin). rewrite setHas_snoc in Hiu. by apply orb_false_iff in Hiu as [? _].
    + intros q' [->|Hin]%elem_of_cons; [done|by apply Hall].
Qed.

(** X6. [validateQuestions] reports errors exactly when it rejects, and accepts
    the empty list. In a list it accepts, the question keys are pairwise
    distinct non-empty strings, the field ids are pairwise distinct strings,
    and every question has a supported type and names a field of the table
    whose type, as mapped or as the type table maps its Airtable type, is the
    question's type; a select question has a non-empty list of options, each
    with a non-empty string value and label. *)
Theorem validateQuestions_accepts (questions : list QuestionDraft)
    (fields : list MappedField) :
  (valid (validateQuestions questions fields) = true
   <-> errors (validateQuestions questions fields) = None)
  /\ valid (validateQuestions [] fields) = true
  /\ (valid (validateQuestions questions fields) = true ->
      (exists keys, map d_questionKey questions = map JStr keys
                    /\ NoDup keys /\ ("" ∉ keys))
      /\ (exists ids, map d_airtableFieldId questions = map JStr ids /\ NoDup ids)
      /\ (forall q, q ∈ questions ->
            exists type field,
              d_type q = JStr type /\ type ∈ supportedTypes
              /\ findField fields q = Some field
              /\ (field_type field = Some type
                  \/ mappedTypeOf (airtableType field) = Some type))
      /\ (forall q, q ∈ questions ->
            d_type q = JStr "singleSelect" \/ d_type q = JStr "multiSelect" ->
            exists options, d_options q = Some options /\ options <> []
              /\ forall option, option ∈ options ->
                   (exists value, od_value option = JStr value /\ value <> "")
                   /\ (exists label, od_label option = JStr label /\ label <> ""))).
Proof.
  split_and!.
  - unfold validateQuestions. simpl. by destruct (validateEach _ _ _ _ _).
  - reflexivity.
  - unfold validateQuestions. simpl. intros Hnil%Nat.eqb_eq%length_zero_iff_nil.
    destruct (validateEach_accepts _ _ _ _ Hnil)
      as (keys & ids & Hkeys & Hids & Hnk & Hni & Hempty & _ & _ & Hall).
    split_and!.
    + by exists keys.
    + by exists ids.
    + intros q Hq. destruct (Hall q Hq) as (Hty & Hfld & _).
      destruct (checkType_nil q Hty) as (type & Htype & Hsup).
      destruct (checkAgainstField_nil q fields type Htype Hfld) as (field & Hfind & Hmatch).
      by exists type, field.
    + intros q Hq Hselect. destruct (Hall q Hq) as (_ & _ & Hopt).
      by apply checkOptions_nil.
Qed.

Lemma validateQuestions_accepts_witness :
  exists keys, map d_questionKey [questionFor "name" (mapAirtableField
                  {| af_id := "fldName"; af_name := "Name"; af_description := JUndefined;
                     af_type := "singleLineText"; af_options := None |}) "shortText"]
               = map JStr keys
               /\ NoDup keys /\ ("" ∉ keys).
Proof.
  apply (proj2 (proj2 (validateQuestions_accepts
           [questionFor "name" (mapAirtableField
              {| af_id := "fldName"; af_name := "Name"; af_description := JUndefined;
                 af_type := "singleLineText"; af_options := None |}) "shortText"]
           [mapAirtableField
              {| af_id := "fldName"; af_name := "Name"; af_description := JUndefined;
                 af_type := "singleLineText"; af_options := None |}]))).
  vm_compute. reflexivity.
Defined.

(** *** Deleted records *)

Lemma markedDeleted_idem t r : markedDeleted t (markedDeleted t r) = markedDeleted t r.
Proof. done. Qed.

Lemma deleteListed_cons t rid ids rs :
  deleteListed t (rid :: ids) rs = deleteListed t ids (deleteListed t [rid] rs).
Proof.
  unfold deleteListed. rewrite map_map. apply map_ext. intros r.
  destruct (decide (airtableRecordId r = rid)) as [Heq|Hne].
  - rewrite (bool_decide_eq_true_2 (airtableRecordId r ∈ rid :: ids)) by (subst; left).
    rewrite (bool_decide_eq_true_2 (airtableRecordId r ∈ [rid])) by (subst; left).
    simpl. by case_bool_decide.
  - rewrite (bool_decide_eq_false_2 (airtableRecordId r ∈ [rid]))
      by (by intros ?%list_elem_of_singleton).
    destruct (decide (airtableRecordId r ∈ ids)) as [Hin|Hout].
    + rewrite !bool_decide_eq_true_2; [done|done|by right].
    + rewrite !bool_decide_eq_false_2; [done|done|].
      by intros [?|?]%elem_of_cons.
Qed.

Lemma deleteListed_nil t rs : deleteListed t [] rs = rs.
Proof.
  unfold deleteListed. rewrite <- (map_id rs) at 2. apply map_ext. intros r.
  rewrite bool_decide_eq_false_2; [done|by intros ?%elem_of_nil].
Qed.

Lemma storeOk_ids_unique w x y :
  storeOk w -> x ∈ responses w -> y ∈ responses w -> resp_id x = resp_id y -> x = y.
Proof.
  intros [Hnd _] Hx Hy Heq.
  apply list_elem_of_lookup in Hx as [i Hi]. apply list_elem_of_lookup in Hy as [j Hj].
  assert (i = j) as ->; [|congruence].
  eapply NoDup_lookup; [exact Hnd|..]; rewrite list_lookup_fmap.
  - by rewrite Hi.
  - rewrite Hj. simpl. by rewrite Heq.
Qed.

Lemma markAsDeleted_run rid w :
  storeOk w -> faults w = [] ->
  exists found w',
    Response_markAsDeleted rid w = (Ok found, w')
    /\ responses w' = deleteListed (now w) [rid] (responses w)
    /\ onlyResponsesChanged w w'.
Proof.
  intros Hok Hf. unfold Response_markAsDeleted. rewrite io_run by done.
  destruct (List.find _ (responses w)) as [r|] eqn:Hfind.
  - eexists _, _. split; [reflexivity|]. split; [|done]. simpl.
    pose proof (linkedResponse_Some w rid r Hfind) as [Hr Hrid].
    unfold replaceById, deleteListed. apply map_ext_in. intros x Hx%list_elem_of_In.
    simpl. fold (markedDeleted (now w) r).
    destruct (Nat.eqb_spec (resp_id x) (resp_id r)) as [Heq|Hne].
    + assert (x = r) as -> by (by apply (storeOk_ids_unique w)).
      rewrite bool_decide_eq_true_2; [done|]. rewrite Hrid. left.
    + rewrite bool_decide_eq_false_2; [done|].
      intros Hin%list_elem_of_singleton. apply Hne. f_equal.
      apply (storeOk_unique w); [done..|congruence].
  - eexists _, _. split; [reflexivity|]. split; [|done].
    unfold deleteListed. rewrite <- (map_id (responses w)) at 1.
    apply map_ext_in. intros x Hx.
    rewrite bool_decide_eq_false_2; [done|].
    intros Hin%list_elem_of_singleton.
    apply (find_none _ _ Hfind) in Hx. by apply String.eqb_neq in Hx.
Qed.

Lemma markEach_run ids :
  forall w, storeOk w -> faults w = [] ->
    exists w',
      forEach (fun recordId => tryCatch (Response_markAsDeleted recordId ;; ret tt)
                                        (fun error => ret tt)) ids w = (Ok tt, w')
      /\ responses w' = deleteListed (now w) ids (responses w)
      /\ onlyResponsesChanged w w'.
Proof.
  induction ids as [|rid ids IH]; intros w Hok Hf; simpl.
  - exists w. split; [done|]. by rewrite deleteListed_nil.
  - destruct (markAsDeleted_run rid w Hok Hf) as (found & w1 & Hrun & Hrs & Hsame).
    assert (Hok1 : storeOk w1).
    { pose proof (preserves_Response_markAsDeleted _ storeOk_Stable rid w Hok) as Hkeep.
      by rewrite Hrun in Hkeep. }
    destruct Hsame as (Hforms & Husers & Hnow & Hreq & Hnext & Hcreated & Hfaults).
    destruct (IH w1 Hok1) as (w' & Hrest & Hrs' & Hsame'); [congruence|].
    exists w'. unfold bind at 1. unfold tryCatch at 1. unfold bind at 1.
    rewrite Hrun. unfold ret at 1. rewrite Hrest.
    split; [done|]. split.
    + rewrite Hrs', Hrs, Hnow. symmetry. apply deleteListed_cons.
    + unfold onlyResponsesChanged in *. naive_solver congruence.
Qed.

(** X7. With a table id and a list of record ids, [handleDeletedRecords]
    never raises, whatever store call fails. In a collection with unique keys
    and no failing call it marks every Response linked to a listed record as
    deleted, stamped with the current time, and leaves its answers, attempts
    and error as they were; every other Response and everything else is
    untouched, and no request goes to Airtable. Without a table id or a list
    of record ids it raises and changes nothing. *)
Theorem handleDeletedRecords_marks (base table : string) (ids : list string) (w : World) :
  (table <> "" ->
   exists w', handleDeletedRecords base (deletedPayload (Some table) (Some ids)) w
              = (Ok tt, w'))
  /\ (table <> "" -> storeOk w -> faults w = [] ->
      exists w', handleDeletedRecords base (deletedPayload (Some table) (Some ids)) w
                 = (Ok tt, w')
                 /\ responses w' = deleteListed (now w) ids (responses w)
                 /\ onlyResponsesChanged w w')
  /\ (forall event,
        tableId event = None \/ tableId event = Some "" \/ recordIds event = None ->
        handleDeletedRecords base event w = (Throw "Invalid deleted records payload", w)).
Proof.
  split_and!.
  - intros Hne%String.eqb_neq. unfold handleDeletedRecords. simpl. rewrite Hne.
    destruct (neverThrows_forEach
                (fun recordId => tryCatch (Response_markAsDeleted recordId ;; ret tt)
                                          (fun error => ret tt)) ids) with (w := w)
      as [[] Hrun].
    + intros rid. apply neverThrows_tryCatch; [|by intros msg w0; exists tt].
      unfold Response_markAsDeleted. solve_total.
    + destruct (forEach _ ids w) as [o w']. simpl in Hrun. subst o. by exists w'.
  - intros Hne%String.eqb_neq Hok Hf. unfold handleDeletedRecords. simpl. rewrite Hne.
    by apply markEach_run.
  - intros event Hbad. unfold handleDeletedRecords.
    destruct (tableId event) as [table'|], (recordIds event) as [ids'|];
      try done; destruct Hbad as [?|[[= ->]|?]]; done.
Qed.

Lemma handleDeletedRecords_marks_witness :
  exists w', handleDeletedRecords "appBase" (deletedPayload (Some "tblPlans") (Some ["recA"]))
               (worldWith 2000 [linkedA]) = (Ok tt, w')
             /\ responses w' = deleteListed 1000 ["recA"] [linkedA]
             /\ onlyResponsesChanged (worldWith 2000 [linkedA]) w'.
Proof.
  apply (proj1 (proj2 (handleDeletedRecords_marks "appBase" "tblPlans" ["recA"]
                         (worldWith 2000 [linkedA])))).
  - discriminate.
  - split; apply (bool_decide_unpack _); vm_compute; reflexivity.
  - reflexivity.
Defined.

(** *** The first sync of a record *)

Lemma freshIds_not_stored w r :
  freshIds w -> resp_id r = nextObjectId w -> isStored r (responses w) = false.
Proof.
  intros Hfresh Hid. apply not_true_iff_false. rewrite isStored_true.
  intros (x & Hx & Hin)%list_elem_of_fmap. unfold freshIds in Hfresh.
  rewrite Forall_forall in Hfresh. specialize (Hfresh x Hin). lia.
Qed.

Lemma unlinked_no_duplicate w rid r :
  linkedResponse w rid = None -> airtableRecordId r = rid ->
  duplicatesRecordId r (responses w) = false.
Proof.
  intros Hnone Hrid. apply duplicatesRecordId_false. intros x Hx Hxr.
  apply list_elem_of_In in Hx. apply (find_none _ _ Hnone) in Hx.
  apply String.eqb_neq in Hx. congruence.
Qed.

Lemma find_app_None {A} (f : A -> bool) l l' :
  List.find f l = None -> List.find f (l ++ l') = List.find f l'.
Proof.
  induction l as [|x l IH]; simpl; [done|]. destruct (f x); [discriminate|apply IH].
Qed.

Lemma syncSingleRecord_try_create env b t rid w form u record fields :
  schemaOk w -> freshIds w -> faults w = [] ->
  boundForm w b t = Some form ->
  userById w (form_userId form) = Some u ->
  (tokenExpiresAt u <? now w)%nat = false ->
  getRecordReply env (accessToken u) b t rid = Replied (Some record) ->
  rec_fields record = Some fields ->
  linkedResponse w rid = None -> rid <> "" ->
  syncSingleRecord_try env b t rid w
  = (Ok tt, setResponses
              (responses w ++ [createdResponse (nextObjectId w) form rid (now w) fields])
              (setNextObjectId (S (nextObjectId w)) (logRequest (ReqGetRecord b t rid) w))).
Proof.
  intros Hschema Hfresh Hf Hform Huser Htoken Hreply Hfields Hnone Hrid.
  assert (Hvalid : validResponse (createdResponse (nextObjectId w) form rid (now w) fields)
                   = true).
  { unfold validResponse. simpl. apply String.eqb_neq in Hrid. rewrite Hrid. simpl.
    apply fieldAnswers_valid. by apply (schemaOk_boundForm w b t). }
  pose proof (unlinked_no_duplicate w rid
                (createdResponse (nextObjectId w) form rid (now w) fields) Hnone eq_refl)
    as Hdup.
  pose proof (freshIds_not_stored w
                (createdResponse (nextObjectId w) form rid (now w) fields) Hfresh eq_refl)
    as Hstored.
  unfold boundForm, userById, linkedResponse in *.
  unfold syncSingleRecord_try, bind, Form_findOne.
  rewrite io_run by done. rewrite Hform.
  unfold User_findById. rewrite io_run by done. rewrite Huser.
  unfold isTokenExpired, bind, newDate, ret. rewrite Htoken.
  unfold AirtableService_getRecord, bind, modify.
  rewrite io_run by done. rewrite Hreply. simpl.
  rewrite (recordAnswers_run _ _ fields) by done.
  unfold Response_findOne. rewrite io_run by done. simpl. rewrite Hnone.
  unfold newResponse, Response_save. simpl.
  change (validResponse _)
    with (validResponse (createdResponse (nextObjectId w) form rid (now w) fields)).
  rewrite Hvalid. rewrite io_run by done. simpl.
  unfold createdResponse in *. by rewrite Hdup, Hstored.
Qed.

(** X8. The first sync of a record that no Response is linked to (an active
    form is bound to the table, its owner's token has not expired, the API
    returns the record with its fields, the record id is not empty, the stored
    documents meet their schemas and no call fails) appends exactly one
    Response: linked to the record and to the form and its owner, with status
    synced, one attempt, no error, and one answer per question whose field the
    record holds. The collection keeps its unique keys, and a second sync of
    the record updates that Response instead of creating another. *)
Theorem syncSingleRecord_creates env b t rid w form u record fields :
  storeOk w -> schemaOk w -> freshIds w -> faults w = [] ->
  boundForm w b t = Some form ->
  userById w (form_userId form) = Some u ->
  (tokenExpiresAt u <? now w)%nat = false ->
  getRecordReply env (accessToken u) b t rid = Replied (Some record) ->
  rec_fields record = Some fields ->
  linkedResponse w rid = None -> rid <> "" ->
  let created := createdResponse (nextObjectId w) form rid (now w) fields in
  let first := snd (syncSingleRecord env b t rid w) in
  let second := snd (syncSingleRecord env b t rid first) in
  responses first = responses w ++ [created]
  /\ linkedResponse first rid = Some created
  /\ storeOk first /\ schemaOk first /\ freshIds first
  /\ requestsSince w first [ReqGetRecord b t rid]
  /\ length (responses second) = S (length (responses w))
  /\ exists r2, linkedResponse second rid = Some r2
                /\ resp_id r2 = resp_id created
                /\ syncAttempts (syncStatus r2) = 2.
Proof.
  intros Hok Hschema Hfresh Hf Hform Huser Htoken Hreply Hfields Hnone Hrid created first second.
  pose proof (syncSingleRecord_try_create env b t rid w form u record fields
                Hschema Hfresh Hf Hform Huser Htoken Hreply Hfields Hnone Hrid) as Htry.
  pose proof (syncSingleRecord_of_try _ _ _ _ _ _ Htry) as Hrun.
  assert (Hfirst : first = setResponses (responses w ++ [created])
                             (setNextObjectId (S (nextObjectId w))
                                (logRequest (ReqGetRecord b t rid) w)))
    by (unfold first; by rewrite Hrun).
  assert (Hok1 : storeOk first)
    by (by apply preserves_syncSingleRecord; [apply storeOk_Stable|]).
  assert (Hschema1 : schemaOk first)
    by (by apply preserves_syncSingleRecord; [apply schemaOk_Stable|]).
  assert (Hlinked : linkedResponse first rid = Some created).
  { rewrite Hfirst. unfold linkedResponse in *. simpl.
    rewrite find_app_None by done. simpl. by rewrite String.eqb_refl. }
  destruct (syncSingleRecord_update env b t rid first form u record fields created)
    as (Hl2 & Hrs2 & _); try done; try (by rewrite Hfirst).
  fold second in Hl2, Hrs2.
  split_and!; try done; try (by rewrite Hfirst).
  - rewrite Hfirst. unfold freshIds in *. simpl. apply Forall_app. split.
    + eapply Forall_impl; [exact Hfresh|]. intros x Hx. simpl in Hx. lia.
    + apply Forall_singleton. simpl. lia.
  - rewrite Hrs2, replaceById_length, Hfirst. simpl. rewrite length_app. simpl. lia.
  - eexists. split; [exact Hl2|]. split; [done|]. rewrite Hfirst. simpl. done.
Qed.

Lemma syncSingleRecord_creates_witness :
  exists r2,
    linkedResponse
      (snd (syncSingleRecord (pagedEnv [recA] 10) "appBase" "tblPlans" "recA"
              (snd (syncSingleRecord (pagedEnv [recA] 10) "appBase" "tblPlans" "recA"
                      (worldWith 2000 [])))))
      "recA" = Some r2
    /\ resp_id r2 = 100
    /\ syncAttempts (syncStatus r2) = 2.
Proof.
  destruct (syncSingleRecord_creates (pagedEnv [recA] 10) "appBase" "tblPlans" "recA"
              (worldWith 2000 []) planForm (owner 2000) recA
              [("fld_name", JStr "A"); ("fld_plan", JStr "basic")])
    as (_ & _ & _ & _ & _ & _ & _ & r2 & Hl & Hid & Hattempts); try reflexivity.
  - split; constructor.
  - split; repeat constructor.
  - constructor.
  - discriminate.
  - exists r2. split; [exact Hl|]. split; [exact Hid|exact Hattempts].
Defined.

(** *** Pushing a Response to Airtable *)

Lemma responseById_Some w id r :
  responseById w id = Some r -> r ∈ responses w /\ resp_id r = id.
Proof.
  unfold responseById. intros [Hin Heq]%find_some.
  split; [by apply list_elem_of_In|by apply Nat.eqb_eq].
Qed.

(** A rewritten copy of a stored response is stored in its place, provided its
    record id is held by no other response. *)
Lemma save_rewritten w id r r' :
  storeOk w -> faults w = [] ->
  responseById w id = Some r -> resp_id r' = id ->
  validResponse r' = true -> recordIdFree w id (airtableRecordId r') ->
  Response_save r' w = (Ok tt, setResponses (replaceById r' (responses w)) w).
Proof.
  intros Hok Hf [Hr Hid]%responseById_Some Hid' Hvalid Hfree.
  unfold Response_save. rewrite Hvalid, io_run by done.
  assert (Hdup : duplicatesRecordId r' (responses w) = false).
  { apply duplicatesRecordId_false. intros x Hx Hxr. rewrite Hid'. by apply Hfree. }
  assert (Hstored : isStored r' (responses w) = true).
  { apply isStored_true. rewrite Hid', <- Hid. by apply list_elem_of_fmap_2. }
  by rewrite Hdup, Hstored.
Qed.

Lemma recordIdFree_own w id r :
  storeOk w -> responseById w id = Some r -> recordIdFree w id (airtableRecordId r).
Proof.
  intros Hok [Hr Hid]%responseById_Some x Hx Hxr.
  rewrite (storeOk_unique w x r); done.
Qed.

Lemma schemaOk_byId w id r :
  schemaOk w -> responseById w id = Some r -> validResponse r = true.
Proof.
  intros [Hrs _] [Hr _]%responseById_Some. rewrite Forall_forall in Hrs. by apply Hrs.
Qed.

Lemma find_byId_replace rs r r' id :
  List.find (fun x => Nat.eqb (resp_id x) id) rs = Some r -> resp_id r' = id ->
  List.find (fun x => Nat.eqb (resp_id x) id) (replaceById r' rs) = Some r'.
Proof.
  intros Hfind <-. induction rs as [|x rs IH]; simpl in *; [done|].
  destruct (Nat.eqb_spec (resp_id x) (resp_id r')) as [Heq|Hne]; simpl.
  - by rewrite Nat.eqb_refl.
  - destruct (Nat.eqb_spec (resp_id x) (resp_id r')); [done|]. by apply IH.
Qed.

(** X9. [syncResponseToAirtable] refuses, before any request to Airtable and
    without touching the Response, an id that no Response has, a Response that
    is deleted, and a Response whose form owner is missing or has an expired
    token. *)
Theorem syncResponseToAirtable_guards env (id : nat) (w : World) :
  faults w = [] ->
  (responseById w id = None ->
   syncResponseToAirtable env id w = (Throw "Response not found or deleted", w))
  /\ (forall r, responseById w id = Some r -> status r = Deleted ->
        syncResponseToAirtable env id w = (Throw "Response not found or deleted", w))
  /\ (forall r form,
        responseById w id = Some r -> status r <> Deleted ->
        formById w (r_formId r) = Some form ->
        match userById w (form_userId form) with
        | Some u => (tokenExpiresAt u <? now w)%nat = true
        | None => True
        end ->
        syncResponseToAirtable env id w = (Throw "User token expired or not found", w)).
Proof.
  intros Hf. unfold responseById, formById, userById. split_and!.
  - intros Hnone. unfold syncResponseToAirtable, bind, Response_findById.
    rewrite io_run by done. by rewrite Hnone.
  - intros r Hfind Hdel. unfold syncResponseToAirtable, bind, Response_findById, Form_findById.
    rewrite io_run by done. rewrite Hfind. rewrite io_run by done.
    by rewrite decide_True.
  - intros r form Hfind Hlive Hform Huser.
    unfold syncResponseToAirtable, bind, Response_findById, Form_findById, User_findById.
    rewrite io_run by done. rewrite Hfind. rewrite io_run by done. rewrite Hform.
    rewrite decide_False by done. rewrite io_run by done.
    destruct (List.find _ (users w)) as [u|]; [|done].
    unfold isTokenExpired, bind, newDate, ret. by rewrite Huser.
Qed.

Lemma syncResponseToAirtable_guards_witness :
  syncResponseToAirtable (pagedEnv [] 10) 0 (worldWith 500 [linkedA])
  = (Throw "User token expired or not found", worldWith 500 [linkedA]).
Proof.
  apply (proj2 (proj2 (syncResponseToAirtable_guards (pagedEnv [] 10) 0
                         (worldWith 500 [linkedA]) eq_refl)) linkedA planForm).
  - reflexivity.
  - discriminate.
  - reflexivity.
  - reflexivity.
Defined.

(** X10. For a Response that is submitted or failed (its form and the form's
    owner are found, the token has not expired, the stored documents meet
    their schemas and no store call fails), [syncResponseToAirtable] sends
    one create request. If Airtable refuses it, the Response is stored as
    failed with the error text and one more attempt, and the error is raised
    again. If Airtable answers with a record whose id is not empty and held by
    no other Response, the Response is stored as synced under that record id,
    with one more attempt and no error, and the record is returned. In both
    cases no other Response changes. *)
Theorem syncResponseToAirtable_creates env (id : nat) (w : World) r form u :
  storeOk w -> schemaOk w -> faults w = [] ->
  responseById w id = Some r ->
  status r = Submitted \/ status r = Failed ->
  formById w (r_formId r) = Some form ->
  userById w (form_userId form) = Some u ->
  (tokenExpiresAt u <? now w)%nat = false ->
  let request := ReqCreateRecord (airtableBaseId form) (airtableTableId form) in
  let reply := createRecordReply env (created w) (accessToken u) (airtableBaseId form)
                 (airtableTableId form) (answersToFields form (answers r)) in
  (forall error, reply = Refused error ->
     exists w',
       syncResponseToAirtable env id w = (Throw error, w')
       /\ responses w' = replaceById (markFailed (now w) error r) (responses w)
       /\ responseById w' id = Some (markFailed (now w) error r)
       /\ requestsSince w w' [request])
  /\ (forall record, reply = Replied record ->
        rec_id record <> "" -> recordIdFree w id (rec_id record) ->
        exists w',
          syncResponseToAirtable env id w = (Ok record, w')
          /\ responses w'
             = replaceById (markSynced (now w) (withRecordId (rec_id record) r)) (responses w)
          /\ responseById w' id = Some (markSynced (now w) (withRecordId (rec_id record) r))
          /\ requestsSince w w' [request]).
Proof.
  intros Hok Hschema Hf Hfind Hstatus Hform Huser Htoken request reply.
  pose proof (responseById_Some _ _ _ Hfind) as [Hr Hid].
  pose proof (schemaOk_byId _ _ _ Hschema Hfind) as Hvalid.
  assert (Hlive : status r <> Deleted) by (destruct Hstatus as [-> | ->]; discriminate).
  assert (Hbyid : forall r', resp_id r' = id ->
            List.find (fun x => Nat.eqb (resp_id x) id) (replaceById r' (responses w))
            = Some r')
    by (intros r' Hid'; by apply (find_byId_replace _ r)).
  unfold responseById, formById, userById in *.
  split.
  - intros error Hreply.
    assert (Hsave : Response_save (markFailed (now w) error r) (logRequest request w)
                    = (Ok tt, setResponses
                                (replaceById (markFailed (now w) error r) (responses w))
                                (logRequest request w))).
    { apply (save_rewritten (logRequest request w) id r); try done.
      exact (recordIdFree_own w id r Hok Hfind). }
    eexists. split.
    + unfold syncResponseToAirtable, bind, Response_findById, Form_findById, User_findById.
      rewrite io_run by done. rewrite Hfind. rewrite io_run by done. rewrite Hform.
      rewrite decide_False by done. rewrite io_run by done. rewrite Huser.
      unfold isTokenExpired, bind, newDate, ret. rewrite Htoken.
      rewrite decide_True by done.
      unfold attempt, tryCatch, bind, AirtableService_createRecord, bind, modify, getWorld.
      rewrite io_run by done. simpl. fold reply. rewrite Hreply. simpl.
      unfold updateSyncStatus_failed, bind, newDate. simpl.
      fold request. rewrite Hsave. reflexivity.
    + simpl. split; [done|]. split; [by apply Hbyid|]. unfold requestsSince. done.
  - intros record Hreply Hrid Hfree.
    assert (Hsave : Response_save (markSynced (now w) (withRecordId (rec_id record) r))
                      (setCreated (S (created w)) (logRequest request w))
                    = (Ok tt, setResponses
                                (replaceById
                                   (markSynced (now w) (withRecordId (rec_id record) r))
                                   (responses w))
                                (setCreated (S (created w)) (logRequest request w)))).
    { apply (save_rewritten (setCreated (S (created w)) (logRequest request w)) id r);
        try done.
      unfold validResponse in *. simpl. apply String.eqb_neq in Hrid. rewrite Hrid. simpl.
      by apply andb_true_iff in Hvalid as [_ ?]. }
    eexists. split.
    + unfold syncResponseToAirtable, bind, Response_findById, Form_findById, User_findById.
      rewrite io_run by done. rewrite Hfind. rewrite io_run by done. rewrite Hform.
      rewrite decide_False by done. rewrite io_run by done. rewrite Huser.
      unfold isTokenExpired, bind, newDate, ret. rewrite Htoken.
      rewrite decide_True by done.
      unfold attempt, tryCatch, bind, AirtableService_createRecord, bind, modify, getWorld.
      rewrite io_run by done. simpl. fold reply. rewrite Hreply. simpl.
      fold request. unfold attempt, tryCatch, bind. rewrite Hsave. reflexivity.
    + simpl. split; [done|]. split; [by apply Hbyid|]. unfold requestsSince. done.
Qed.

Lemma syncResponseToAirtable_creates_witness :
  exists w',
    syncResponseToAirtable (pagedEnv [] 10) 1 (worldWith 2000 [failedResponse 1 2])
    = (Ok {| rec_id := "x"; rec_fields := Some [] |}, w')
    /\ responseById w' 1
       = Some (markSynced 1000 (withRecordId "x" (failedResponse 1 2))).
Proof.
  destruct (proj2 (syncResponseToAirtable_creates (pagedEnv [] 10) 1
                     (worldWith 2000 [failedResponse 1 2]) (failedResponse 1 2)
                     planForm (owner 2000)
                     ltac:(split; repeat constructor; by intros ?%elem_of_nil)
                     ltac:(split; repeat constructor)
                     eq_refl eq_refl ltac:(by right) eq_refl eq_refl eq_refl)
              {| rec_id := "x"; rec_fields := Some [] |})
    as (w' & Hrun & _ & Hfound & _).
  - reflexivity.
  - discriminate.
  - intros r ->%list_elem_of_singleton. discriminate.
  - exists w'. split; [exact Hrun|exact Hfound].
Defined.

(** *** The field object of a push *)

Lemma find_snoc {A} (f : A -> bool) l x :
  List.find f (l ++ [x])
  = match List.find f l with
    | Some y => Some y
    | None => if f x then Some x else None
    end.
Proof.
  induction l as [|y l IH]; simpl; [done|]. by destruct (f y).
Qed.

Lemma answersToFields_fold form ans acc fid :
  obj_get (fold_left (fun fields answer =>
                        match getQuestion form (a_questionKey answer) with
                        | Some question =>
                            obj_set fields (airtableFieldId question) (a_value answer)
                        | None => fields
                        end) ans acc) fid
  = match List.find (answersField form fid) (rev ans) with
    | Some a => Some (a_value a)
    | None => obj_get acc fid
    end.
Proof.
  revert acc. induction ans as [|a ans IH]; intros acc; simpl; [done|].
  rewrite IH, find_snoc. destruct (List.find _ (rev ans)); [done|].
  unfold answersField. destruct (getQuestion form (a_questionKey a)) as [q|]; [|done].
  rewrite obj_get_set. destruct (String.eqb_spec (airtableFieldId q) fid); by case_decide.
Qed.

Lemma getQuestion_NoDup form q :
  NoDup (map questionKey (questions form)) -> q ∈ questions form ->
  getQuestion form (questionKey q) = Some q.
Proof.
  unfold getQuestion. induction (questions form) as [|x qs IH]; simpl.
  - by intros _ ?%elem_of_nil.
  - intros [Hx Hnd]%NoDup_cons [->|Hq]%elem_of_cons.
    + by rewrite String.eqb_refl.
    + destruct (String.eqb_spec (questionKey x) (questionKey q)) as [Heq|_]; [|by apply IH].
      destruct Hx. rewrite Heq. by apply list_elem_of_fmap_2.
Qed.

Lemma elem_of_fieldAnswers t qs fields a :
  a ∈ fieldAnswers t qs fields
  <-> exists q value, q ∈ qs /\ definedField fields (airtableFieldId q) = Some value
                      /\ a = {| a_questionKey := questionKey q; a_value := value;
                                a_submittedAt := t |}.
Proof.
  unfold fieldAnswers. rewrite list_elem_of_omap. unfold fieldAnswer, definedField. split.
  - intros (q & Hq & Ha). exists q.
    destruct (obj_get fields (airtableFieldId q)) as [[]|]; simplify_eq; eauto.
  - intros (q & value & Hq & Hv & ->). exists q. split; [done|].
    by destruct (obj_get fields (airtableFieldId q)) as [[]|]; simplify_eq.
Qed.

(** X11. In the field object that a push sends to Airtable, a field holds the
    value of the last answer whose question is bound to it, and answers to
    keys that are no question of the form are dropped. Pushing the answers
    that [syncSingleRecord] read from a record gives the record's own value
    for every field bound to a question of a form with distinct question keys
    (an absent or [undefined] field stays absent), and nothing for any other
    field. *)
Theorem answersToFields_lookup (form : Form) :
  (forall ans fid,
     obj_get (answersToFields form ans) fid
     = a_value <$> List.find (answersField form fid) (rev ans))
  /\ (forall ans fid,
        is_Some (obj_get (answersToFields form ans) fid) ->
        exists q, q ∈ questions form /\ airtableFieldId q = fid)
  /\ (NoDup (map questionKey (questions form)) ->
      forall t fields fid,
        obj_get (answersToFields form (fieldAnswers t (questions form) fields)) fid
        = if bool_decide (fid ∈ map airtableFieldId (questions form))
          then definedField fields fid else None).
Proof.
  assert (Hlookup : forall ans fid,
            obj_get (answersToFields form ans) fid
            = a_value <$> List.find (answersField form fid) (rev ans)).
  { intros ans fid. unfold answersToFields. rewrite answersToFields_fold.
    by destruct (List.find _ (rev ans)). }
  assert (Hbound : forall a fid, answersField form fid a = true ->
            exists q, q ∈ questions form /\ questionKey q = a_questionKey a
                      /\ airtableFieldId q = fid).
  { intros a fid. unfold answersField, getQuestion.
    destruct (List.find _ (questions form)) as [q|] eqn:Hfind; [|done].
    apply find_some in Hfind as [Hin Hkey]. intros Hfid. exists q.
    split; [by apply list_elem_of_In|]. split; by apply String.eqb_eq. }
  split_and!; [exact Hlookup| |].
  - intros ans fid. rewrite Hlookup. intros [v Hv].
    destruct (List.find _ (rev ans)) as [a|] eqn:Hfind; [|done].
    apply find_some in Hfind as [_ Ha]. destruct (Hbound a fid Ha) as (q & Hq & _ & Hfid).
    by exists q.
  - intros Hnd t fields fid. rewrite Hlookup.
    destruct (List.find _ (rev _)) as [a|] eqn:Hfind; simpl.
    + apply find_some in Hfind as [Hin Ha].
      apply in_rev, list_elem_of_In, elem_of_fieldAnswers in Hin
        as (q & value & Hq & Hvalue & ->).
      destruct (Hbound _ fid Ha) as (q' & Hq' & Hkey & Hfid). simpl in Hkey.
      unfold answersField in Ha. simpl in Ha.
      rewrite (getQuestion_NoDup form q Hnd Hq) in Ha. apply String.eqb_eq in Ha.
      rewrite bool_decide_eq_true_2 by (rewrite <- Ha; by apply list_elem_of_fmap_2).
      by rewrite <- Ha, Hvalue.
    + case_bool_decide as Hfid; [|done].
      apply list_elem_of_fmap in Hfid as (q & -> & Hq).
      destruct (definedField fields (airtableFieldId q)) as [value|] eqn:Hvalue; [|done].
      exfalso.
      assert (Hin : {| a_questionKey := questionKey q; a_value := value;
                       a_submittedAt := t |}
                    ∈ fieldAnswers t (questions form) fields)
        by (apply elem_of_fieldAnswers; by exists q, value).
      apply list_elem_of_In, in_rev in Hin.
      apply (find_none _ _ Hfind) in Hin. unfold answersField in Hin. simpl in Hin.
      rewrite (getQuestion_NoDup form q Hnd Hq) in Hin.
      by rewrite String.eqb_refl in Hin.
Qed.

Lemma answersToFields_lookup_witness :
  obj_get (answersToFields planForm
             (fieldAnswers 5 (questions planForm)
                [("fld_plan", JStr "pro"); ("fld_other", JStr "x")])) "fld_plan"
  = Some (JStr "pro").
Proof.
  rewrite (proj2 (proj2 (answersToFields_lookup planForm))).
  - reflexivity.
  - apply (bool_decide_unpack _). vm_compute. reflexivity.
Defined.

(** *** Pagination for any table size *)

Lemma pagesNeeded_more n p k :
  0 < p -> k + p < n -> pagesNeeded (n - k) p = S (pagesNeeded (n - (k + p)) p).
Proof.
  intros Hp Hk. unfold pagesNeeded.
  replace (n - k + p - 1) with ((n - (k + p) + p - 1) + 1 * p) by lia.
  rewrite Nat.div_add by lia.
  assert (1 <= (n - (k + p) + p - 1) / p); [|lia].
  apply Nat.div_le_lower_bound; lia.
Qed.

Lemma pagesNeeded_last n p k : 0 < p -> n <= k + p -> pagesNeeded (n - k) p = 1.
Proof.
  intros Hp Hk. unfold pagesNeeded.
  assert ((n - k + p - 1) / p < 2); [|lia].
  apply Nat.Div0.div_lt_upper_bound. lia.
Qed.

Lemma truthyString_offsetAt k : truthyString (offsetAt k) = negb (k =? 0)%nat.
Proof. by destruct k. Qed.

Lemma syncPages_paged env token b t records p :
  0 < p ->
  (forall offset, listRecordsReply env token b t offset
                  = listRecordsReply (pagedEnv records p) token b t offset) ->
  forall fuel k synced errors w,
    faults w = [] -> pagesNeeded (length records - k) p <= fuel ->
    exists w',
      syncPages env fuel token b t (offsetAt k) (synced, errors) w
      = (Ok (synced + (length records - k), errors), w')
      /\ pageFetches w' = pageFetches w + pagesNeeded (length records - k) p.
Proof.
  intros Hp Henv. induction fuel as [|fuel IH]; intros k synced errors w Hf Hfuel.
  - unfold pagesNeeded in Hfuel. lia.
  - destruct (syncPages_page env fuel token b t (offsetAt k) (synced, errors)
                {| page_records := take p (drop k records);
                   page_offset := if (k + p <? length records)%nat
                                  then Some (tokenOf (k + p)) else None |} w)
      as (w1 & Hf1 & Hp1 & Hrun); [done|..].
    { rewrite Henv. destruct k as [|k]; [done|]. simpl.
      by rewrite tokenOf_length. }
    rewrite Hrun. cbn [page_offset page_records fst snd].
    rewrite length_take, length_drop.
    destruct (Nat.ltb_spec (k + p) (length records)) as [Hmore|Hlast].
    + assert (Htruthy : truthyString (Some (tokenOf (k + p))) = true).
      { destruct (k + p) as [|kp] eqn:Hkp; [lia|done]. }
      rewrite Htruthy.
      assert (Hoff : Some (tokenOf (k + p)) = offsetAt (k + p)).
      { destruct (k + p) as [|kp] eqn:Hkp; [lia|done]. }
      rewrite Hoff. rewrite (pagesNeeded_more _ _ _ Hp Hmore) in *.
      destruct (IH (k + p) (synced + p `min` (length records - k)) errors w1)
        as (w' & Hrest & Hp'); [done|lia|].
      exists w'. rewrite Hrest. split; [do 3 f_equal; lia|lia].
    + exists w1. rewrite (pagesNeeded_last _ _ _ Hp Hlast).
      split; [do 3 f_equal; lia|lia].
Qed.

(** X12. For a table of any number of records served any positive number at a
    time (the form exists, its owner's token has not expired, no call fails),
    [syncAllRecordsForForm] requests each page once, one page even when the
    table is empty, and reports every record as synced and no error. *)
Theorem syncAllRecordsForForm_any_size env fuel formId w form u records p :
  0 < p -> pagesNeeded (length records) p <= fuel ->
  faults w = [] ->
  formById w formId = Some form ->
  userById w (form_userId form) = Some u ->
  (tokenExpiresAt u <? now w)%nat = false ->
  (forall offset,
     listRecordsReply env (accessToken u) (airtableBaseId form) (airtableTableId form) offset
     = listRecordsReply (pagedEnv records p) (accessToken u) (airtableBaseId form)
         (airtableTableId form) offset) ->
  exists w',
    syncAllRecordsForForm env fuel formId w
    = (Ok {| reportSuccess := true; syncedCount := length records; errorCount := 0 |}, w')
    /\ pageFetches w' = pageFetches w + pagesNeeded (length records) p.
Proof.
  intros Hp Hfuel Hf Hform Huser Htoken Henv.
  rewrite (syncAllRecordsForForm_run env fuel formId w form u) by done.
  destruct (syncPages_paged env (accessToken u) (airtableBaseId form) (airtableTableId form)
              records p Hp Henv fuel 0 0 0 w) as (w' & Hrun & Hpages); [done|..].
  { by rewrite Nat.sub_0_r. }
  change (offsetAt 0) with (@None string) in Hrun. rewrite Hrun.
  rewrite Nat.sub_0_r in *. exists w'. by split.
Qed.

Lemma syncAllRecordsForForm_any_size_witness :
  exists w',
    syncAllRecordsForForm (pagedEnv (recordsN 7) 3) 3 1 (worldWith 2000 [])
    = (Ok {| reportSuccess := true; syncedCount := 7; errorCount := 0 |}, w')
    /\ pageFetches w' = pageFetches (worldWith 2000 []) + 3.
Proof.
  apply (syncAllRecordsForForm_any_size (pagedEnv (recordsN 7) 3) 3 1 (worldWith 2000 [])
           planForm (owner 2000) (recordsN 7) 3).
  - lia.
  - vm_compute. lia.
  - reflexivity.
  - reflexivity.
  - reflexivity.
  - reflexivity.
  - intros offset. reflexivity.
Defined.

(** *** Updated records: batches *)

Lemma batches_spec fuel ids :
  length ids <= fuel ->
  concat (batches fuel ids) = ids
  /\ length (batches fuel ids) = (length ids + 9) / 10
  /\ Forall (fun batch => 0 < length batch <= batchSize) (batches fuel ids).
Proof.
  revert ids. induction fuel as [|fuel IH]; intros ids Hlen.
  - destruct ids; [|simpl in Hlen; lia]. by repeat split.
  - destruct ids as [|rid ids]; [by repeat split|].
    change (batches (S fuel) (rid :: ids))
      with (take batchSize (rid :: ids) :: batches fuel (drop batchSize (rid :: ids))).
    destruct (IH (drop batchSize (rid :: ids))) as (Hconcat & Hcount & Hall).
    { rewrite length_drop. simpl in *. unfold batchSize. lia. }
    split; [|split].
    + rewrite concat_cons, Hconcat. apply take_drop.
    + rewrite length_cons, Hcount, length_drop. unfold batchSize.
      set (n := length (rid :: ids)). assert (0 < n) by (unfold n; simpl; lia).
      destruct (Nat.le_gt_cases n 10) as [Hsmall|Hbig].
      * replace (n - 10) with 0 by lia. change ((0 + 9) / 10) with 0.
        assert ((n + 9) / 10 < 2) by (apply Nat.Div0.div_lt_upper_bound; lia).
        assert (1 <= (n + 9) / 10) by (apply Nat.div_le_lower_bound; lia). lia.
      * replace (n + 9) with ((n - 10 + 9) + 1 * 10) by lia.
        rewrite Nat.div_add by lia. lia.
    + constructor; [|done]. rewrite length_take, length_cons. unfold batchSize. lia.
Qed.

(** The calls that follow the fetch request keep the clock, the forms, the
    users, the request log and the empty fault plan. *)
Ltac solve_keeps :=
  repeat first
    [ apply preserves_ret | apply preserves_throw | apply preserves_fromRemote
    | apply preserves_attempt
    | apply preserves_bind; [|intros ?]
    | apply preserves_tryCatch; [|intros ?]
    | apply preserves_io; [by (intros ? ? ? [? ?] ?; congruence)|]
    | match goal with |- preserves _ (match ?x with _ => _ end) => destruct x end
    | match goal with |- preserves _ (if ?x then _ else _) => destruct x end
    | by intros ? ?
    | by (intros ? ?; simpl; repeat case_match) ].

Lemma syncSingleRecord_fetches env b t rid w form u :
  faults w = [] ->
  boundForm w b t = Some form ->
  userById w (form_userId form) = Some u ->
  (tokenExpiresAt u <? now w)%nat = false ->
  exists w',
    syncSingleRecord env b t rid w = (Ok tt, w')
    /\ faults w' = [] /\ forms w' = forms w /\ users w' = users w /\ now w' = now w
    /\ requests w' = requests w ++ [ReqGetRecord b t rid].
Proof.
  intros Hf Hform Huser Htoken.
  destruct (syncSingleRecord_returns env b t rid w) as [w' Hrun]. exists w'.
  split; [done|].
  set (K := fun w0 : World =>
              faults w0 = [] /\ (forms w0 = forms w /\ users w0 = users w /\ now w0 = now w
              /\ requests w0 = requests w ++ [ReqGetRecord b t rid])).
  assert (HK : K w'); [|by destruct HK as (? & ? & ? & ? & ?)].
  assert (Hcatch : forall error, preserves K (syncSingleRecord_catch rid error)).
  { intros error. unfold syncSingleRecord_catch, Response_findOne, Response_save.
    solve_keeps. }
  assert (Hrest : forall record,
            preserves K
              (ans <- recordAnswers form record ;;
               existing <- Response_findOne rid ;;
               response <- match existing with
                           | Some response =>
                               t0 <- newDate ;;
                               ret (withStatus Synced
                                      {| lastSyncedAt := Some t0;
                                         syncAttempts := syncAttempts (syncStatus response) + 1;
                                         syncError := syncError (syncStatus response) |}
                                      (withAnswers ans response))
                           | None =>
                               t0 <- newDate ;;
                               newResponse (form_id form) (form_userId form) rid Synced ans
                                 {| lastSyncedAt := Some t0; syncAttempts := 1;
                                    syncError := None |}
                           end ;;
               Response_save response)).
  { intros record. unfold recordAnswers, Response_findOne, Response_save, newDate, newResponse.
    solve_keeps. }
  assert (HK0 : K (logRequest (ReqGetRecord b t rid) w)) by done.
  revert Hrun. unfold syncSingleRecord, tryCatch, syncSingleRecord_try.
  unfold boundForm, userById in *.
  unfold bind at 1. unfold Form_findOne. rewrite io_run by done. rewrite Hform.
  unfold bind at 1. unfold User_findById. rewrite io_run by done. rewrite Huser.
  unfold bind at 1. unfold isTokenExpired, bind at 1, newDate, ret at 1. rewrite Htoken.
  unfold bind at 1. unfold AirtableService_getRecord, bind at 1, modify.
  rewrite io_run by done.
  destruct (getRecordReply env (accessToken u) b t rid) as [[record|]|error]; simpl.
  - pose proof (Hrest record _ HK0) as Hkeep.
    destruct (bind (recordAnswers form record) _ _) as [[?|error|] w1] eqn:Hbody;
      simpl in Hkeep.
    + intros Heq. inversion Heq. by subst.
    + intros Hrun. pose proof (Hcatch error w1 Hkeep) as Hkeep'.
      rewrite Hrun in Hkeep'. done.
    + intros [=].
  - intros Heq. inversion Heq. by subst.
  - intros Hrun. pose proof (Hcatch error _ HK0) as Hkeep'. rewrite Hrun in Hkeep'. done.
Qed.

Lemma syncBatch_fetches env b t batch :
  forall w form u,
    faults w = [] -> boundForm w b t = Some form ->
    userById w (form_userId form) = Some u ->
    (tokenExpiresAt u <? now w)%nat = false ->
    exists w',
      forEach (syncSingleRecord env b t) batch w = (Ok tt, w')
      /\ faults w' = [] /\ forms w' = forms w /\ users w' = users w /\ now w' = now w
      /\ requests w' = requests w ++ map (ReqGetRecord b t) batch.
Proof.
  induction batch as [|rid batch IH]; intros w form u Hf Hform Huser Htoken; simpl.
  - exists w. by rewrite app_nil_r.
  - destruct (syncSingleRecord_fetches env b t rid w form u)
      as (w1 & Hrun & Hf1 & Hforms1 & Husers1 & Hnow1 & Hreq1); [done..|].
    destruct (IH w1 form u) as (w' & Hrest & Hf' & Hforms' & Husers' & Hnow' & Hreq');
      [done|unfold boundForm; by rewrite Hforms1|unfold userById; by rewrite Husers1
      |by rewrite Hnow1|].
    exists w'. unfold bind. rewrite Hrun, Hrest.
    split; [done|]. split; [done|]. split; [congruence|]. split; [congruence|].
    split; [congruence|]. rewrite Hreq', Hreq1, <- app_assoc. done.
Qed.

Lemma syncBatches_fetches env b t form u groups :
  forall w,
    faults w = [] -> boundForm w b t = Some form ->
    userById w (form_userId form) = Some u ->
    now w + 100 * length groups <= tokenExpiresAt u ->
    exists w',
      forEach (fun batch => forEach (syncSingleRecord env b t) batch ;; sleep 100) groups w
      = (Ok tt, w')
      /\ faults w' = [] /\ now w' = now w + 100 * length groups
      /\ requests w' = requests w ++ map (ReqGetRecord b t) (concat groups).
Proof.
  induction groups as [|batch groups IH]; intros w Hf Hform Huser Htoken.
  - exists w. simpl. rewrite app_nil_r. split; [done|]. split; [done|]. split; [lia|done].
  - rewrite length_cons in *. cbn [forEach].
    destruct (syncBatch_fetches env b t batch w form u)
      as (w1 & Hrun & Hf1 & Hforms1 & Husers1 & Hnow1 & Hreq1); [done..| |].
    { apply Nat.ltb_ge. lia. }
    destruct (IH (setNow (now w1 + 100) w1)) as (w' & Hrest & Hf' & Hnow' & Hreq');
      [done|unfold boundForm; cbn [forms setNow]; by rewrite Hforms1
      |unfold userById; cbn [users setNow]; by rewrite Husers1
      |cbn [now setNow]; lia|].
    exists w'. unfold bind at 1. unfold bind at 1. rewrite Hrun.
    change (sleep 100 w1) with (Ok tt, setNow (now w1 + 100) w1). cbv beta iota.
    rewrite Hrest.
    cbn [now setNow requests] in Hnow', Hreq'.
    split; [done|]. split; [done|]. split; [lia|].
    rewrite Hreq', Hreq1, concat_cons, map_app, <- app_assoc. done.
Qed.

Lemma filter_boundForm w base table :
  List.filter (fun f => String.eqb (airtableBaseId f) base
                        && String.eqb (airtableTableId f) table
                        && isActive f) (forms w) = []
  <-> boundForm w base table = None.
Proof.
  unfold boundForm. induction (forms w) as [|f fs IH]; simpl; [done|].
  destruct (_ && isActive f); [done|apply IH].
Qed.



(** *** The retry run *)

Lemma total_syncResponseToAirtable env id : total (syncResponseToAirtable env id).
Proof.
  unfold syncResponseToAirtable, updateSyncStatus_failed, Response_findById, Form_findById,
    User_findById, isTokenExpired, AirtableService_createRecord,
    AirtableService_updateRecord, Response_save, newDate, modify, getWorld.
  solve_total.
Qed.

Lemma retryOne_run env results r w :
  exists results' w',
    retryOne env results r w = (Ok results', w')
    /\ retrySuccess results' + retryFailed results'
       <= S (retrySuccess results + retryFailed results).
Proof.
  unfold retryOne.
  set (body := bind (Form_findById (r_formId r)) _).
  assert (Htotal : total body).
  { pose proof (total_syncResponseToAirtable env) as Hsync.
    unfold body, Form_findById, User_findById, isTokenExpired, newDate. solve_total. }
  assert (Hcount : returning (fun _ => True)
                     (fun outcome =>
                        match outcome with
                        | Some results' =>
                            results' = {| retrySuccess := S (retrySuccess results);
                                          retryFailed := retryFailed results |}
                        | None => True
                        end) body).
  { assert (Htrue : forall A (m : M A), returning (fun _ => True) (fun _ => True) m)
      by (by intros A m w0 _).
    unfold body. eapply returning_bind; [apply Htrue|]. intros [form|] _;
      [|by apply returning_ret].
    eapply returning_bind; [apply Htrue|]. intros user _.
    eapply returning_bind; [apply Htrue|]. intros expired _.
    destruct user as [u|]; [|by apply returning_ret].
    destruct expired; [by apply returning_ret|].
    eapply returning_bind; [apply Htrue|]. intros record _. by apply returning_ret. }
  unfold bind at 1. unfold attempt, tryCatch, bind at 1. specialize (Htotal w).
  destruct (Hcount w I) as [_ Hresult].
  destruct (body w) as [[[results'|]|error|] w1]; [| | |done]; simpl.
  - rewrite (Hresult _ eq_refl). eexists _, _. split; [reflexivity|]. simpl. lia.
  - eexists _, _. split; [reflexivity|]. lia.
  - eexists _, _. split; [reflexivity|]. simpl. lia.
Qed.

Lemma retryEach_run env rs :
  forall results w,
    exists results' w',
      retryEach env rs results w = (Ok results', w')
      /\ retrySuccess results' + retryFailed results'
         <= retrySuccess results + retryFailed results + length rs.
Proof.
  induction rs as [|r rs IH]; intros results w; simpl.
  - eexists _, _. split; [reflexivity|]. lia.
  - destruct (retryOne_run env results r w) as (results1 & w1 & Hrun & Hle).
    destruct (IH results1 w1) as (results' & w' & Hrest & Hle').
    exists results', w'. unfold bind. rewrite Hrun, Hrest. split; [done|]. lia.
Qed.



(** *** The checks of createForm and updateForm *)

(** The cycle check decides whether the rules are acyclic. *)
Lemma detectCircularDependencies_decides qs :
  exists report, detectCircularDependencies qs = Some report
                 /\ (hasCycles report = false <-> acyclicRules qs).
Proof.
  destruct (detectState_spec qs) as (st & Hrun & Hinv & Hvis).
  destruct Hinv as [Hstack _ Hsound Hcomplete _ _].
  exists {| hasCycles := (0 <? length (cycles st))%nat; reportedCycles := cycles st |}.
  split; [unfold detectCircularDependencies; by rewrite Hrun|].
  simpl. split.
  - intros Hnone k Hk.
    assert (Hnil : cycles st = []) by (by destruct (cycles st)).
    destruct (Hcomplete Hnil) as [_ Hac]. apply (Hac k).
    + rewrite Hvis, Hstack. split; [|set_solver].
      apply elem_of_list_to_set, createDependencyGraph_keys.
      by eapply tc_dependsOn_is_key.
    + by apply cycle_edge_dependsOn.
  - intros Hacyc. destruct (cycles st) as [|entry rest]; [done|]. exfalso.
    apply Forall_cons in Hsound as [(pre & d & _ & _ & Hd) _].
    apply (Hacyc d). by apply cycle_edge_dependsOn.
Qed.

(** In a finite acyclic rule graph some question depends on no other. *)
Lemma acyclicRules_source qs q0 :
  acyclicRules qs -> q0 ∈ qs ->
  exists q, q ∈ qs /\ forall k, ~ dependsOnQuestion qs (questionKey q) k.
Proof.
  intros Hacyc Hq0.
  set (R := dependsOnQuestion qs).
  assert (Hkeys : forall a b, tc R a b -> b ∈ map questionKey qs).
  { intros a b Hab. induction Hab as [a b [Hb _]|]; done. }
  assert (Hdec : forall y, Decision (red R y)).
  { intros y.
    destruct (decide (Exists (fun q => questionKey q = y
                                /\ Exists (fun c => c_questionKey c ∈ map questionKey qs)
                                          (conditionsOf q)) qs)) as [Hyes|Hno].
    - left. apply Exists_exists in Hyes as (q & Hq & Hkey & (c & Hc & Hin)%Exists_exists).
      exists (c_questionKey c). split; [done|]. exists q. split; [done|]. split; [done|].
      by exists c.
    - right. intros (z & Hz & q & Hq & Hkey & c & Hc & Hcz). apply Hno.
      apply Exists_exists. exists q. split; [done|]. split; [done|].
      apply Exists_exists. exists c. split; [done|]. by rewrite Hcz. }
  assert (Hsn : sn R (questionKey q0)).
  { apply tc_finite_sn.
    - intros k Hk. by apply (Hacyc k).
    - exists (map questionKey qs). intros b Hb. by eapply Hkeys. }
  destruct (sn_wn _ Hsn) as (y & Hreach & Hnf).
  assert (Hy : y ∈ map questionKey qs).
  { apply rtc_tc in Hreach as [<- |Htc]; [|by eapply Hkeys].
    apply list_elem_of_fmap. by exists q0. }
  apply list_elem_of_fmap in Hy as (q & -> & Hq).
  exists q. split; [done|]. intros k Hk. apply Hnf. by exists k.
Qed.

Section FormGuardsProps.
Context `{JsBuiltins}.

Lemma arrayIncludes_strings keys v :
  arrayIncludes (map JStr keys) v = true <-> exists k, v = JStr k /\ k ∈ keys.
Proof.
  unfold arrayIncludes. rewrite existsb_exists. split.
  - intros (x & Hx%list_elem_of_In & Heq).
    apply list_elem_of_fmap in Hx as (k & -> & Hk).
    destruct v; try discriminate. apply String.eqb_eq in Heq as <-. by exists k.
  - intros (k & -> & Hk). exists (JStr k). split.
    + apply list_elem_of_In, list_elem_of_fmap. by exists k.
    + simpl. apply String.eqb_refl.
Qed.

Lemma validateRules_valid_inv available rules :
  rulesValid (validateRules (Some rules) available) = true ->
  (rd_logic rules = JStr "AND" \/ rd_logic rules = JStr "OR")
  /\ exists conditions,
       rd_conditions rules = Some conditions /\ conditions <> []
       /\ forall condition, condition ∈ conditions ->
            arrayIncludes available (cd_questionKey condition) = true
            /\ cd_value condition <> JUndefined /\ cd_value condition <> JNull.
Proof.
  unfold validateRules.
  destruct (rd_conditions rules) as [[|c conds]|] eqn:Hconds; [done| |done].
  cbv zeta. cbn [rulesValid]. intros Hnil%Nat.eqb_eq%length_zero_iff_nil.
  apply app_nil in Hnil as [Hlogic Hall]. split.
  - destruct (rd_logic rules) as [| | | |s| |]; try discriminate Hlogic.
    unfold arrayIncludes in Hlogic. cbn [existsb sameValueZero] in Hlogic.
    destruct (String.eqb "AND" s) eqn:Hand; [apply String.eqb_eq in Hand as <-; by left|].
    destruct (String.eqb "OR" s) eqn:Hor; [apply String.eqb_eq in Hor as <-; by right|].
    discriminate Hlogic.
  - exists (c :: conds). split; [done|]. split; [done|].
    intros condition (i & Hi)%list_elem_of_lookup.
    pose proof (proj1 (concat_imap_nil _ _) Hall i condition Hi) as Hcond.
    apply validateCondition_accepts in Hcond. naive_solver.
Qed.

Lemma conditionalErrors_nil questions :
  conditionalErrors questions = []
  <-> forall q rules, q ∈ questions -> fq_conditionalRules q = Some rules ->
        rulesValid (validateRules (Some rules) (availableKeys questions)) = true.
Proof.
  unfold conditionalErrors. rewrite concat_imap_nil. split.
  - intros Hall q rules (i & Hi)%list_elem_of_lookup Hrules.
    specialize (Hall i q Hi). rewrite Hrules in Hall. cbv zeta in Hall.
    by destruct (rulesValid _).
  - intros Hall i q Hi. destruct (fq_conditionalRules q) as [rules|] eqn:Hrules; [|done].
    cbv zeta. rewrite (Hall q rules); [done| |done]. by eapply list_elem_of_lookup_2.
Qed.

Lemma questionOf_keys questions keys :
  map d_questionKey (map fq_question questions) = map JStr keys ->
  map questionKey (map questionOf questions) = keys.
Proof.
  revert keys. induction questions as [|q qs IH]; intros [|k ks]; simpl; try done.
  intros [= Hq Hrest]. rewrite Hq. simpl. f_equal. by apply IH.
Qed.

Lemma conditionsOf_questionOf q :
  conditionsOf (questionOf q)
  = match fq_conditionalRules q with
    | Some rules => map conditionOf (default [] (rd_conditions rules))
    | None => []
    end.
Proof.
  unfold conditionsOf, questionOf. simpl.
  destruct (fq_conditionalRules q) as [rules|]; [|done]. simpl.
  by destruct (rd_conditions rules).
Qed.

(** What the first two checks guarantee. *)
Lemma checked_questions questions fields :
  valid (validateQuestions (map fq_question questions) fields) = true ->
  conditionalErrors questions = [] ->
  NoDup (map questionKey (map questionOf questions))
  /\ (forall q, q ∈ map questionOf questions ->
        conditionalRules q = None
        \/ exists rules, conditionalRules q = Some rules
                         /\ (logic rules = "AND" \/ logic rules = "OR")
                         /\ conditionsOf q <> [])
  /\ (forall q c, q ∈ map questionOf questions -> c ∈ conditionsOf q ->
        c_questionKey c ∈ map questionKey (map questionOf questions)
        /\ c_value c <> JUndefined /\ c_value c <> JNull).
Proof.
  unfold validateQuestions. simpl. intros Hnil%Nat.eqb_eq%length_zero_iff_nil Hrules.
  destruct (validateEach_accepts _ _ _ _ Hnil) as (keys & _ & Hkeys & _ & Hnd & _).
  rewrite (questionOf_keys _ _ Hkeys).
  assert (Havail : availableKeys questions = map JStr keys).
  { rewrite <- Hkeys. unfold availableKeys. by rewrite map_map. }
  pose proof (proj1 (conditionalErrors_nil questions) Hrules) as Hvalid.
  rewrite Havail in Hvalid.
  split_and!; [done| |].
  - intros q' (q & -> & Hq)%list_elem_of_fmap.
    destruct (fq_conditionalRules q) as [rules|] eqn:Hq_rules; [right|left].
    + destruct (validateRules_valid_inv _ _ (Hvalid q rules Hq Hq_rules))
        as (Hlogic & conditions & Hconds & Hne & _).
      exists (rulesOf rules). split; [unfold questionOf; simpl; by rewrite Hq_rules|].
      split.
      * unfold rulesOf. simpl. by destruct Hlogic as [-> | ->]; [left|right].
      * rewrite conditionsOf_questionOf, Hq_rules, Hconds. simpl.
        by destruct conditions.
    + unfold questionOf. simpl. by rewrite Hq_rules.
  - intros q' c' (q & -> & Hq)%list_elem_of_fmap. rewrite conditionsOf_questionOf.
    destruct (fq_conditionalRules q) as [rules|] eqn:Hq_rules; [|by intros ?%elem_of_nil].
    destruct (validateRules_valid_inv _ _ (Hvalid q rules Hq Hq_rules))
      as (_ & conditions & Hconds & _ & Hall).
    rewrite Hconds. simpl. intros (c & -> & Hc)%list_elem_of_fmap.
    destruct (Hall c Hc) as (Hkey & Hundef & Hnull).
    apply arrayIncludes_strings in Hkey as (k & Hk & Hin).
    unfold conditionOf. simpl. by rewrite Hk.
Qed.

Lemma formGuards_inv questions fields :
  formGuards questions fields = Some None ->
  valid (validateQuestions (map fq_question questions) fields) = true
  /\ conditionalErrors questions = []
  /\ acyclicRules (map questionOf questions).
Proof.
  unfold formGuards, questionsGate. cbv zeta.
  destruct (valid _) eqn:Hvalid; [|done]. simpl.
  destruct (conditionalErrors questions) as [|e es] eqn:Herr; [|done]. simpl.
  destruct (detectCircularDependencies_decides (map questionOf questions))
    as (report & -> & Hacyc).
  simpl. destruct (hasCycles report); [done|]. intros _. by split_and!; [| |apply Hacyc].
Qed.



End FormGuardsProps.



(** *** Answer validation and the checks of submitResponse *)

Section SubmitProps.
Context `{JsBuiltins}.
Variable stringLength : string -> float.

Lemma storedQuestion_Some questions key question :
  storedQuestion questions key = Some question ->
  question ∈ questions /\ questionKey (sq_question question) = key.
Proof.
  unfold storedQuestion. intros [Hin Hkey%String.eqb_eq]%find_some.
  by split; [apply list_elem_of_In|].
Qed.

Lemma lengthBeyond_raises limit compare answer error :
  lengthBeyond stringLength limit compare answer = Throw error
  <-> (answer = JUndefined \/ answer = JNull)
      /\ (exists n, limit = Some n /\ truthy (JNum n) = true)
      /\ error = match answer with
                 | JUndefined =>
                     "TypeError: Cannot read properties of undefined (reading 'length')"
                 | _ => "TypeError: Cannot read properties of null (reading 'length')"
                 end.
Proof.
  unfold lengthBeyond. destruct limit as [n|].
  - destruct (truthy (JNum n)) eqn:Hn.
    + destruct answer; split; naive_solver.
    + split; [done|]. intros (_ & (m & [= <-] & Hm) & _). congruence.
  - split; [done|]. by intros (_ & (m & Hm & _) & _).
Qed.

Lemma lengthBeyond_falsy limit compare answer :
  truthy answer = false -> isMissing answer = false ->
  lengthBeyond stringLength limit compare answer = Ok None.
Proof.
  intros Hfalsy Hthere. unfold lengthBeyond. destruct limit as [n|]; [|done].
  destruct (truthy (JNum n)); [|done].
  destruct answer as [| | | |s| |]; try done.
  simpl in Hfalsy, Hthere. by rewrite Hthere in Hfalsy.
Qed.

Lemma requiredErrors_nil questions (answers : gmap string jsval) :
  requiredErrors questions answers = []
  <-> forall question, question ∈ questions -> sq_required question = true ->
        isMissing (answerOf answers (questionKey (sq_question question))) = false.
Proof.
  unfold requiredErrors. induction questions as [|q qs IH]; simpl.
  - split; [by intros _ ? ?%elem_of_nil|done].
  - rewrite app_nil, IH. split.
    + intros [Hq Hall] question [->|Hin]%elem_of_cons Hreq; [|by apply Hall].
      rewrite Hreq in Hq. simpl in Hq. by destruct (isMissing _).
    + intros Hall. split.
      * destruct (sq_required q) eqn:Hreq; [|done]. simpl.
        rewrite (Hall q); [done|by left|done].
      * intros question Hin. apply Hall. by right.
Qed.

Lemma shownUnder_hidden questions (answers : gmap string jsval) key question :
  storedQuestion questions key = Some question ->
  shownUnder questions answers key
  = negb match conditionalRules (sq_question question) with
         | Some rules => negb (shouldShowQuestion (Some rules) answers)
         | None => false
         end.
Proof.
  intros Hq. unfold shownUnder. rewrite Hq.
  destruct (conditionalRules (sq_question question)); [by rewrite negb_involutive|done].
Qed.

Lemma checkEntries_run questions (answers : gmap string jsval) entries :
  forall checks result,
    checkEntries stringLength questions answers entries checks = Ok result ->
    (validationErrors result = []
     <-> validationErrors checks = []
         /\ forall key value, (key, value) ∈ entries ->
              Form_validateAnswer stringLength questions key value = Ok None)
    /\ (validationErrors result = [] ->
        processedAnswers result
        = processedAnswers checks
          ++ List.filter (fun entry => shownUnder questions answers (fst entry)) entries).
Proof.
  induction entries as [|[key value] rest IH]; intros checks result Hrun.
  - simpl in Hrun. injection Hrun as <-. split.
    + split; [intros Hnil; split; [done|by intros ? ? ?%elem_of_nil]|by intros [? _]].
    + intros _. simpl. by rewrite app_nil_r.
  - cbn [checkEntries] in Hrun.
    assert (Hpush : forall error result',
              (validationErrors result' = []
               <-> (validationErrors checks ++ [(key, error)] = []
                    /\ forall key' value', (key', value') ∈ rest ->
                         Form_validateAnswer stringLength questions key' value' = Ok None)) ->
              Form_validateAnswer stringLength questions key value = Ok (Some error) ->
              (validationErrors result' = []
               <-> validationErrors checks = []
                   /\ forall key' value', (key', value') ∈ (key, value) :: rest ->
                        Form_validateAnswer stringLength questions key' value' = Ok None)
              /\ (validationErrors result' = [] ->
                  processedAnswers result'
                  = processedAnswers checks
                    ++ List.filter (fun entry => shownUnder questions answers (fst entry))
                                   ((key, value) :: rest))).
    { intros error result' Hiff Hbad.
      assert (Hne : validationErrors result' <> []).
      { intros Hnil. apply Hiff in Hnil as [Hnil _]. by destruct (validationErrors checks). }
      split; [|done]. split; [done|].
      intros [_ Hall]. specialize (Hall key value (list_elem_of_here _ _)). congruence. }
    destruct (storedQuestion questions key) as [question|] eqn:Hq.
    + destruct (Form_validateAnswer stringLength questions key value)
        as [[error|]| |] eqn:Hvalid; try discriminate Hrun.
      * destruct (IH _ _ Hrun) as [Hiff _]. by apply (Hpush error).
      * pose proof (shownUnder_hidden questions answers key question Hq) as Hshown.
        destruct (match conditionalRules (sq_question question) with
                  | Some rules => negb (shouldShowQuestion (Some rules) answers)
                  | None => false
                  end) eqn:Hhidden; simpl in Hshown.
        -- destruct (IH _ _ Hrun) as [Hiff Hproc]. split.
           ++ rewrite Hiff. split; intros [Hnil Hall]; (split; [done|]).
              ** intros key' value' [[= -> ->]|Hin]%elem_of_cons; [done|by apply Hall].
              ** intros key' value' Hin. apply Hall. by right.
           ++ intros Hnil. cbn [List.filter fst]. rewrite Hshown. by apply Hproc.
        -- destruct (IH _ _ Hrun) as [Hiff Hproc]. simpl in Hiff, Hproc. split.
           ++ rewrite Hiff. split; intros [Hnil Hall]; (split; [done|]).
              ** intros key' value' [[= -> ->]|Hin]%elem_of_cons; [done|by apply Hall].
              ** intros key' value' Hin. apply Hall. by right.
           ++ intros Hnil. cbn [List.filter fst]. rewrite Hshown, (Hproc Hnil).
              by rewrite <- app_assoc.
    + destruct (IH _ _ Hrun) as [Hiff _]. apply (Hpush ErrQuestionNotFound); [done|].
      unfold Form_validateAnswer. by rewrite Hq.
Qed.

Lemma checkEntries_raises questions (answers : gmap string jsval) entries :
  forall checks error,
    checkEntries stringLength questions answers entries checks = Throw error ->
    exists key value, (key, value) ∈ entries
      /\ Form_validateAnswer stringLength questions key value = Throw error.
Proof.
  induction entries as [|[key value] rest IH]; intros checks error Hrun; [done|].
  cbn [checkEntries] in Hrun.
  assert (Hrest : forall checks',
            checkEntries stringLength questions answers rest checks' = Throw error ->
            exists key' value', (key', value') ∈ (key, value) :: rest
              /\ Form_validateAnswer stringLength questions key' value' = Throw error).
  { intros checks' Hthrow. destruct (IH _ _ Hthrow) as (key' & value' & Hin & Hbad).
    exists key', value'. split; [by right|done]. }
  destruct (storedQuestion questions key) as [question|]; [|by eapply Hrest].
  destruct (Form_validateAnswer stringLength questions key value)
    as [[e|]|msg|] eqn:Hvalid; try discriminate Hrun.
  - by eapply Hrest.
  - destruct (match conditionalRules (sq_question question) with
              | Some rules => negb (shouldShowQuestion (Some rules) answers)
              | None => false
              end); by eapply Hrest.
  - injection Hrun as <-. exists key, value. split; [by left|done].
Qed.

Lemma checkEntries_returns questions (answers : gmap string jsval) entries :
  forall checks, checkEntries stringLength questions answers entries checks <> OutOfFuel.
Proof.
  induction entries as [|[key value] rest IH]; intros checks; [done|].
  cbn [checkEntries].
  assert (Hvalid : Form_validateAnswer stringLength questions key value <> OutOfFuel).
  { unfold Form_validateAnswer, validateText, lengthBeyond. by repeat case_match. }
  destruct (storedQuestion questions key) as [question|]; [|apply IH].
  destruct (Form_validateAnswer stringLength questions key value) as [[e|]|msg|];
    [apply IH| |done|done].
  destruct (match conditionalRules (sq_question question) with
            | Some rules => negb (shouldShowQuestion (Some rules) answers)
            | None => false
            end); apply IH.
Qed.

(** A check raises only on [undefined] or [null] given to an optional text
    question with a length limit. *)
Lemma Form_validateAnswer_raises questions key answer error :
  Form_validateAnswer stringLength questions key answer = Throw error ->
  exists question rules,
    storedQuestion questions key = Some question
    /\ sq_required question = false
    /\ (sq_type question = "shortText" \/ sq_type question = "longText")
    /\ (answer = JUndefined \/ answer = JNull)
    /\ sq_validationRules question = Some rules
    /\ (exists n, (rule_minLength rules = Some n \/ rule_maxLength rules = Some n)
                  /\ truthy (JNum n) = true).
Proof.
  unfold Form_validateAnswer.
  destruct (storedQuestion questions key) as [question|] eqn:Hq; [|done].
  destruct (sq_required question && isMissing answer) eqn:Hreq; [done|].
  destruct (String.eqb (sq_type question) "singleSelect");
    [destruct (truthy answer && _); discriminate|].
  destruct (String.eqb (sq_type question) "multiSelect");
    [destruct (truthy answer && _); discriminate|].
  destruct (_ || _) eqn:Htype; [|done].
  unfold validateText. destruct (truthy answer && _); [done|].
  destruct (sq_validationRules question) as [rules|] eqn:Hrules; [|done].
  intros Hraise.
  assert (Hlimit : exists compare limit n,
            lengthBeyond stringLength limit compare answer = Throw error
            /\ limit = Some n
            /\ (rule_minLength rules = Some n \/ rule_maxLength rules = Some n)).
  { destruct (lengthBeyond stringLength (rule_minLength rules) _ answer)
      as [[n|]|msg|] eqn:Hmin; try discriminate Hraise.
    - destruct (lengthBeyond stringLength (rule_maxLength rules) _ answer)
        as [[n|]|msg|] eqn:Hmax; try discriminate Hraise.
      injection Hraise as ->.
      pose proof (proj1 (lengthBeyond_raises _ _ _ _) Hmax) as (_ & (n & Hn & _) & _).
      eexists _, _, n. split; [exact Hmax|]. split; [done|by right].
    - injection Hraise as ->.
      pose proof (proj1 (lengthBeyond_raises _ _ _ _) Hmin) as (_ & (n & Hn & _) & _).
      eexists _, _, n. split; [exact Hmin|]. split; [done|by left]. }
  destruct Hlimit as (compare & limit & n & Hthrow & -> & Hrule).
  apply lengthBeyond_raises in Hthrow as (Hanswer & (m & [= <-] & Hm) & _).
  exists question, rules. split; [done|]. split.
  - apply andb_false_iff in Hreq as [Hreq|Hthere]; [done|].
    by destruct Hanswer as [-> | ->].
  - split; [apply orb_true_iff in Htype as [Ht%String.eqb_eq|Ht%String.eqb_eq]; auto|].
    split; [done|]. split; [done|]. by exists n.
Qed.

(** X17. [Form.validateAnswer] at its edges. An answer for a key that names no
    question is refused. A falsy answer that is not missing ([false], [0]) is
    accepted by every question, required or not, whatever its type, options
    and limits. A truthy answer to a single-select question is accepted
    exactly when it is the value of one of the options. The check raises
    exactly on [undefined] or [null] given to an optional text question with a
    length limit in force; and the empty string given to an optional text
    question is refused as too short when the minimum is above its length. *)
Theorem Form_validateAnswer_edges (questions : list StoredQuestion) (key : string)
    (answer : jsval) :
  (storedQuestion questions key = None ->
   Form_validateAnswer stringLength questions key answer = Ok (Some ErrQuestionNotFound))
  /\ (forall question,
        storedQuestion questions key = Some question ->
        truthy answer = false -> isMissing answer = false ->
        Form_validateAnswer stringLength questions key answer = Ok None)
  /\ (forall question,
        storedQuestion questions key = Some question ->
        sq_type question = "singleSelect" -> truthy answer = true ->
        (Form_validateAnswer stringLength questions key answer = Ok None
         <-> exists value, value ∈ sq_options question /\ answer = JStr value))
  /\ (forall question rules n,
        storedQuestion questions key = Some question ->
        sq_required question = false ->
        sq_type question = "shortText" \/ sq_type question = "longText" ->
        sq_validationRules question = Some rules ->
        rule_minLength rules = Some n \/ rule_maxLength rules = Some n ->
        truthy (JNum n) = true ->
        answer = JUndefined \/ answer = JNull ->
        exists error, Form_validateAnswer stringLength questions key answer = Throw error)
  /\ (forall error,
        Form_validateAnswer stringLength questions key answer = Throw error ->
        exists question rules,
          storedQuestion questions key = Some question
          /\ sq_required question = false
          /\ (sq_type question = "shortText" \/ sq_type question = "longText")
          /\ (answer = JUndefined \/ answer = JNull)
          /\ sq_validationRules question = Some rules
          /\ (exists n, (rule_minLength rules = Some n \/ rule_maxLength rules = Some n)
                        /\ truthy (JNum n) = true))
  /\ (forall question rules n,
        storedQuestion questions key = Some question ->
        sq_required question = false ->
        sq_type question = "shortText" \/ sq_type question = "longText" ->
        sq_validationRules question = Some rules ->
        rule_minLength rules = Some n -> truthy (JNum n) = true ->
        PrimFloat.ltb (stringLength "") n = true ->
        answer = JStr "" ->
        Form_validateAnswer stringLength questions key answer
        = Ok (Some (ErrMinimumLength n))).
Proof.
  assert (Htext : forall question,
            sq_type question = "shortText" \/ sq_type question = "longText" ->
            String.eqb (sq_type question) "singleSelect" = false
            /\ String.eqb (sq_type question) "multiSelect" = false
            /\ String.eqb (sq_type question) "shortText"
               || String.eqb (sq_type question) "longText" = true).
  { by intros question [-> | ->]. }
  split_and!.
  - intros Hq. unfold Form_validateAnswer. by rewrite Hq.
  - intros question Hq Hfalsy Hthere. unfold Form_validateAnswer. rewrite Hq.
    rewrite Hthere, Hfalsy, andb_false_r. simpl.
    destruct (String.eqb _ "singleSelect"); [done|].
    destruct (String.eqb _ "multiSelect"); [done|].
    destruct (_ || _); [|done].
    unfold validateText. rewrite Hfalsy. simpl.
    destruct (sq_validationRules question) as [rules|]; [|done].
    by rewrite !lengthBeyond_falsy.
  - intros question Hq Htype Htruthy. unfold Form_validateAnswer. rewrite Hq, Htype.
    assert (Hthere : isMissing answer = false).
    { destruct answer; try done. simpl in *. by destruct (String.eqb s ""). }
    rewrite Hthere, andb_false_r, Htruthy. simpl.
    unfold isOption. destruct (existsb _ (sq_options question)) eqn:Hopt; simpl.
    + split; [intros _|done]. apply existsb_exists in Hopt as (value & Hin & Heq).
      exists value. split; [by apply list_elem_of_In|].
      destruct answer; try done. simpl in Heq. by apply String.eqb_eq in Heq as ->.
    + split; [done|]. intros (value & Hin & ->). exfalso.
      assert (Hyes : existsb (fun value0 => strictEqString value0 (JStr value))
                             (sq_options question) = true).
      { apply existsb_exists. exists value. split; [by apply list_elem_of_In|].
        simpl. apply String.eqb_refl. }
      congruence.
  - intros question rules n Hq Hreq Htype Hrules Hlimit Hn Hanswer.
    destruct (Htext question Htype) as (Hs & Hm & Ht).
    unfold Form_validateAnswer. rewrite Hq, Hreq, Hs, Hm, Ht. simpl.
    unfold validateText. rewrite Hrules.
    replace (truthy answer) with false by (by destruct Hanswer as [-> | ->]). simpl.
    destruct Hlimit as [Hmin|Hmax].
    + rewrite Hmin. unfold lengthBeyond at 1. rewrite Hn.
      destruct Hanswer as [-> | ->]; by eexists.
    + destruct (lengthBeyond stringLength (rule_minLength rules) _ answer)
        as [[limit|]|msg|] eqn:Hfirst.
      * exfalso. unfold lengthBeyond in Hfirst.
        destruct (rule_minLength rules) as [m|]; [|done]. destruct (truthy (JNum m)); [|done].
        by destruct Hanswer as [-> | ->].
      * rewrite Hmax. unfold lengthBeyond. rewrite Hn.
        destruct Hanswer as [-> | ->]; by eexists.
      * by eexists.
      * exfalso. unfold lengthBeyond in Hfirst.
        destruct (rule_minLength rules) as [m|]; [|done]. destruct (truthy (JNum m)); [|done].
        by destruct Hanswer as [-> | ->].
  - intros error Hraise. by apply Form_validateAnswer_raises in Hraise.
  - intros question rules n Hq Hreq Htype Hrules Hmin Hn Hshort ->.
    destruct (Htext question Htype) as (Hs & Hm & Ht).
    unfold Form_validateAnswer. rewrite Hq, Hreq, Hs, Hm, Ht. simpl.
    unfold validateText. rewrite Hrules. simpl.
    rewrite Hmin. unfold lengthBeyond. by rewrite Hn, Hshort.
Qed.


End SubmitProps.

Lemma Form_validateAnswer_edges_witness :
  @Form_validateAnswer byteLength [commentQuestion; seatsQuestion] "comment" (JStr "")
  = Ok (Some (ErrMinimumLength 3%float)).
Proof.
  apply (proj2 (proj2 (proj2 (proj2 (proj2
           (@Form_validateAnswer_edges byteLength [commentQuestion; seatsQuestion]
              "comment" (JStr "")))))) commentQuestion
           {| rule_minLength := Some 3%float; rule_maxLength := None |});
    try reflexivity.
  by left.
Defined.

